(** * In-Memoria cache stack: a shallow embedding and its properties

    The three layers of the cache stack and the key builder are embedded
    from their TypeScript sources:

    - [src/utils/lru-cache.ts]         -> module [LRU]
    - [src/storage/query-cache.ts]     -> modules [KeyBuilder], [QueryCache]
    - [src/storage/statement-cache.ts] -> module [StatementCache]

    and, beside them, the LIKE pattern functions of [src/utils/security.ts]
    (module [Security]) and the statements that
    [src/storage/repositories.ts] builds with them (module [Repositories]),

    with what they use of JavaScript: the insertion-ordered [Map] (module
    [JsMap]), ordinary objects and [JSON.stringify] (module [JSON]).

    Conventions of the embedding.

    - A JavaScript [Map<string, V>] iterates in insertion order, and the LRU
      cache relies on it; it is an association list, oldest binding first.
    - A string is a sequence of code units below 256.
    - JavaScript numbers that hold capacities, counters, sizes and
      millisecond timestamps are integers of [Z].
    - [Date.now()] is a parameter [now] of every operation that reads the
      clock.
    - A callback or a function supplied by the caller ([onEvict], the visitor
      of [forEach], [computeFn], [db.prepare]) acts on a state of the caller,
      of an arbitrary type, which the operations thread through; it does
      not call back into the cache.
    - A result [T | undefined] is an [option]; a call that may throw returns
      a sum whose left injection carries the thrown error.

    The file has three parts: the embedding, the vocabulary of the
    properties, and the properties with their proofs. *)

From Stdlib Require Import ZArith List String Ascii Bool Lia QArith.
From Stdlib Require Import Permutation Sorted DecimalString DecimalZ DecimalN.
Import ListNotations.

Local Open Scope string_scope.
Local Open Scope list_scope.
Local Open Scope Z_scope.

(** ** The insertion-ordered [Map<string, V>] of JavaScript *)

Module JsMap.
Section Defs.
Context {V : Type}.

Definition t := list (string * V).

Definition empty : t := [].

(** [map.get(key)] *)
Fixpoint get (key : string) (m : t) : option V :=
  match m with
  | [] => None
  | (k, v) :: rest => if String.eqb k key then Some v else get key rest
  end.

(** [map.has(key)] *)
Definition has (key : string) (m : t) : bool :=
  match get key m with Some _ => true | None => false end.

(** [map.delete(key)]: the binding of [key] leaves the iteration order. *)
Definition delete (key : string) (m : t) : t :=
  filter (fun kv => negb (String.eqb (fst kv) key)) m.

(** [map.set(key, v)]: a bound key keeps its place and takes the new
    value; a fresh key goes to the end of the iteration order. *)
Fixpoint set (key : string) (v : V) (m : t) : t :=
  match m with
  | [] => [(key, v)]
  | (k, v') :: rest =>
      if String.eqb k key then (k, v) :: rest else (k, v') :: set key v rest
  end.

(** [map.size] *)
Definition size (m : t) : Z := Z.of_nat (List.length m).

(** [map.keys().next().value]: the oldest key, [undefined] on an empty map. *)
Definition first_key (m : t) : option string :=
  match m with
  | [] => None
  | (k, _) :: _ => Some k
  end.

Definition keys (m : t) : list string := List.map fst m.

(** Every key is bound once: the invariant of a [Map]. *)
Definition wf (m : t) : Prop := NoDup (keys m).

End Defs.
Arguments t : clear implicits.
End JsMap.

(** ** [LRUCache<T>] of [src/utils/lru-cache.ts] *)

Module LRU.
Section WithValue.
(** [T] is the type of cached values; [W] is the state the [onEvict]
    callback of the caller acts on. *)
Context {T W : Type}.

(** [interface CacheEntry<T>] *)
Record CacheEntry : Type := mkEntry { value : T; timestamp : Z }.

(** [interface LRUCacheOptions<T>] *)
Record Options : Type := mkOptions {
  opt_maxSize : Z;
  opt_maxAge : option Z;
  opt_onEvict : option (string -> T -> W -> W)
}.

(** The private fields of [class LRUCache<T>]. *)
Record t : Type := mk {
  cache : JsMap.t CacheEntry;
  maxSize : Z;
  maxAge : option Z;
  onEvict : option (string -> T -> W -> W);
  hits : Z;
  misses : Z
}.

Definition with_cache (c : t) (m : JsMap.t CacheEntry) : t :=
  mk m (maxSize c) (maxAge c) (onEvict c) (hits c) (misses c).

(** [constructor(options)]: throws when [maxSize < 1]. *)
Definition new (options : Options) : string + t :=
  if opt_maxSize options <? 1 then inl "maxSize must be at least 1"
  else inr (mk JsMap.empty (opt_maxSize options) (opt_maxAge options)
               (opt_onEvict options) 0 0).

(** [get size()] *)
Definition size (c : t) : Z := JsMap.size (cache c).

(** [private isExpired(entry)]: [!this.maxAge] holds for an absent
    [maxAge] and for [0]. *)
Definition isExpired (c : t) (entry : CacheEntry) (now : Z) : bool :=
  match maxAge c with
  | None => false
  | Some age => if age =? 0 then false else now - timestamp entry >? age
  end.

(** [get(key)] *)
Definition get (c : t) (key : string) (now : Z) : option T * t :=
  match JsMap.get key (cache c) with
  | None =>
      (None, mk (cache c) (maxSize c) (maxAge c) (onEvict c)
                (hits c) (misses c + 1))
  | Some entry =>
      if isExpired c entry now then
        (None, mk (JsMap.delete key (cache c)) (maxSize c) (maxAge c)
                  (onEvict c) (hits c) (misses c + 1))
      else
        (Some (value entry),
         mk (JsMap.set key entry (JsMap.delete key (cache c)))
            (maxSize c) (maxAge c) (onEvict c) (hits c + 1) (misses c))
  end.

(** The first half of [set]: what happens to the map, and to the state of
    the caller, before the new entry is added. *)
Definition make_room (c : t) (key : string) (w : W)
  : JsMap.t CacheEntry * W :=
  if JsMap.has key (cache c) then (JsMap.delete key (cache c), w)
  else if JsMap.size (cache c) >=? maxSize c then
    match JsMap.first_key (cache c) with
    | None => (cache c, w)
    | Some firstKey =>
        let firstEntry := JsMap.get firstKey (cache c) in
        let m := JsMap.delete firstKey (cache c) in
        match onEvict c, firstEntry with
        | Some callback, Some e => (m, callback firstKey (value e) w)
        | _, _ => (m, w)
        end
    end
  else (cache c, w).

(** [set(key, value)] *)
Definition set (c : t) (key : string) (v : T) (now : Z) (w : W) : t * W :=
  let (m, w') := make_room c key w in
  (with_cache c (JsMap.set key (mkEntry v now) m), w').

(** [has(key)] *)
Definition has (c : t) (key : string) (now : Z) : bool * t :=
  match JsMap.get key (cache c) with
  | None => (false, c)
  | Some entry =>
      if isExpired c entry now
      then (false, with_cache c (JsMap.delete key (cache c)))
      else (true, c)
  end.

(** [delete(key)] *)
Definition delete (c : t) (key : string) : bool * t :=
  (JsMap.has key (cache c), with_cache c (JsMap.delete key (cache c))).

(** [clear()] *)
Definition clear (c : t) : t :=
  mk JsMap.empty (maxSize c) (maxAge c) (onEvict c) 0 0.

(** [interface LRUCacheStats] *)
Record Stats : Type := mkStats {
  st_hits : Z; st_misses : Z; st_size : Z; st_hitRate : Q
}.

Definition hitRate (h m : Z) : Q :=
  let total := h + m in
  if total >? 0 then Qmake h (Z.to_pos total) else 0%Q.

(** [getStats()] *)
Definition getStats (c : t) : Stats :=
  mkStats (hits c) (misses c) (JsMap.size (cache c))
          (hitRate (hits c) (misses c)).

(** [forEach(callback)]: the visitor acts on a state [A] of its own. *)
Definition forEach {A : Type} (c : t) (callback : T -> string -> A -> A)
                   (a : A) : A :=
  fold_left (fun acc kv => callback (value (snd kv)) (fst kv) acc)
            (cache c) a.

(** The loop of [cleanExpired]: the iterator walks the bindings present
    when it started, and each aged one is deleted from the live map. *)
Definition cleanLoop (age now : Z) (m : JsMap.t CacheEntry)
  : Z * JsMap.t CacheEntry :=
  fold_left
    (fun (st : Z * JsMap.t CacheEntry) kv =>
       if now - timestamp (snd kv) >? age
       then (fst st + 1, JsMap.delete (fst kv) (snd st))
       else st)
    m (0, m).

(** [cleanExpired()] *)
Definition cleanExpired (c : t) (now : Z) : Z * t :=
  match maxAge c with
  | None => (0, c)
  | Some age =>
      if age =? 0 then (0, c)
      else let (cleaned, m) := cleanLoop age now (cache c) in
           (cleaned, with_cache c m)
  end.

(** *** Calls and runs

    A call of a public method, with the clock reading during the call,
    and the run of a sequence of calls from a given cache. *)
Inductive call : Type :=
| CGet (key : string)
| CSet (key : string) (v : T)
| CHas (key : string)
| CDelete (key : string)
| CClear
| CGetStats
| CForEach
| CCleanExpired.

Definition step (c : t) (w : W) (now : Z) (op : call) : t * W :=
  match op with
  | CGet key => (snd (get c key now), w)
  | CSet key v => set c key v now w
  | CHas key => (snd (has c key now), w)
  | CDelete key => (snd (delete c key), w)
  | CClear => (clear c, w)
  | CGetStats => (c, w)
  | CForEach => (c, w)
  | CCleanExpired => (snd (cleanExpired c now), w)
  end.

Fixpoint run (c : t) (w : W) (calls : list (Z * call)) : t * W :=
  match calls with
  | [] => (c, w)
  | (now, op) :: rest =>
      let (c', w') := step c w now op in run c' w' rest
  end.

End WithValue.
Arguments CacheEntry : clear implicits.
Arguments Options : clear implicits.
Arguments t : clear implicits.
Arguments call : clear implicits.
End LRU.


(** ** [JSON.stringify] on flat parameter records

    What [generateCacheKey] needs of JavaScript: primitive values, ordinary
    objects with their property order, and [JSON.stringify]. A string is a
    sequence of code units below 256. A number is one of three:

    - [Int z], an integer of the safe range, up to 2^53 - 1 in absolute
      value, where [Number::toString] is the decimal notation of [z]; the
      two zeros, which are equal numbers, are both [Int 0];
    - [Num negative s n], any other finite number, given by its sign and by
      the decimal digits [s] and the exponent [n] that [Number::toString]
      determines for it (ECMA-262, Number::toString, step 5): the number
      is the Number value for [0.s] times [10^n], and [s], with as few
      digits as possible, neither starts nor ends with a zero. Two
      different numbers differ in their sign, digits or exponent;
    - [NaN], a number that is not finite. *)

Module JSON.

Inductive value : Type :=
| Undefined
| Null
| Bool (b : bool)
| NaN
| Int (z : Z)
| Num (negative : bool) (digits : string) (n : Z)
| Str (s : string).

(** The own enumerable properties of an ordinary object, in property
    order. *)
Definition object : Type := JsMap.t value.

Definition dquote : ascii := "034"%char.
Definition backslash : ascii := "092"%char.

Definition hexDigit (n : N) : ascii :=
  match n with
  | 0 => "0" | 1 => "1" | 2 => "2" | 3 => "3" | 4 => "4" | 5 => "5"
  | 6 => "6" | 7 => "7" | 8 => "8" | 9 => "9" | 10 => "a" | 11 => "b"
  | 12 => "c" | 13 => "d" | 14 => "e" | _ => "f"
  end%N%char.

(** One code unit of [QuoteJSONString]. *)
Definition escapeChar (c : ascii) : string :=
  let n := N_of_ascii c in
  if (n =? 34)%N then String backslash (String dquote "")
  else if (n =? 92)%N then String backslash (String backslash "")
  else if (n =? 8)%N then String backslash "b"
  else if (n =? 9)%N then String backslash "t"
  else if (n =? 10)%N then String backslash "n"
  else if (n =? 12)%N then String backslash "f"
  else if (n =? 13)%N then String backslash "r"
  else if (n <? 32)%N then
    String backslash
      (String "u" (String "0" (String "0"
         (String (hexDigit (n / 16)) (String (hexDigit (n mod 16)) "")))))
  else String c "".

Fixpoint escape (s : string) : string :=
  match s with
  | EmptyString => ""
  | String c rest => (escapeChar c ++ escape rest)%string
  end.

(** [QuoteJSONString] *)
Definition quote (s : string) : string :=
  String dquote (escape s ++ String dquote "")%string.

(** The decimal notation of an integer, which is [Number::toString] on an
    integer of the safe range. *)
Definition numberToString (z : Z) : string :=
  DecimalString.NilEmpty.string_of_int (Z.to_int z).

Fixpoint zeros (count : nat) : string :=
  match count with
  | O => ""
  | S count' => String "0" (zeros count')
  end.

(** The first [count] code units of a text, and the others. *)
Fixpoint take (count : nat) (s : string) : string :=
  match count, s with
  | S count', String c rest => String c (take count' rest)
  | _, _ => ""
  end.

Fixpoint drop (count : nat) (s : string) : string :=
  match count, s with
  | S count', String c rest => drop count' rest
  | _, _ => s
  end.

(** [Number::toString], steps 6 to 11, on a positive finite number with
    the [k] digits [s] and the exponent [n]: the digits followed by zeros,
    or with a point among them, or after [0.] and zeros, when [n] is
    between -5 and 21; the exponent notation otherwise. *)
Definition digitsToString (s : string) (n : Z) : string :=
  let k := Z.of_nat (String.length s) in
  if (-5 <=? n) && (n <=? 21) then
    if n >=? k then (s ++ zeros (Z.to_nat (n - k)))%string
    else if n >? 0 then
      (take (Z.to_nat n) s ++ "." ++ drop (Z.to_nat n) s)%string
    else ("0." ++ zeros (Z.to_nat (- n)) ++ s)%string
  else
    let exponentSign := if n <? 0 then "-" else "+" in
    let exponent := numberToString (Z.abs (n - 1)) in
    if k =? 1 then (s ++ "e" ++ exponentSign ++ exponent)%string
    else (take 1 s ++ "." ++ drop 1 s ++ "e" ++ exponentSign ++ exponent)%string.

(** [SerializeJSONProperty]: [undefined] has no serialization, a
    non-finite number is [null]. *)
Definition serializeProperty (v : value) : option string :=
  match v with
  | Undefined => None
  | Null => Some "null"
  | Bool true => Some "true"
  | Bool false => Some "false"
  | NaN => Some "null"
  | Int z => Some (numberToString z)
  | Num negative s n =>
      Some ((if negative then "-" else "") ++ digitsToString s n)%string
  | Str s => Some (quote s)
  end.

(** The members of [SerializeJSONObject]: a property whose value has no
    serialization is left out. *)
Fixpoint members (o : object) : list string :=
  match o with
  | [] => []
  | (k, v) :: rest =>
      match serializeProperty v with
      | None => members rest
      | Some sv => (quote k ++ ":" ++ sv)%string :: members rest
      end
  end.

(** [JSON.stringify(o)] on an object, without indentation. *)
Definition stringify (o : object) : string :=
  ("{" ++ String.concat "," (members o) ++ "}")%string.

(** A key is an array index when it is the canonical notation of an
    integer between 0 and 2^32 - 2. *)
Definition arrayIndex (key : string) : option N :=
  match DecimalString.NilEmpty.uint_of_string key with
  | None => None
  | Some u =>
      let n := N.of_uint u in
      if String.eqb (numberToString (Z.of_N n)) key && (n <? 4294967295)%N
      then Some n else None
  end.

(** [o[key]] on an own property; [undefined] when there is none. *)
Definition get (o : object) (key : string) : value :=
  match JsMap.get key o with
  | Some v => v
  | None => Undefined
  end.

(** A new array-index property takes its place among the array indices,
    which come first in ascending order. *)
Fixpoint insertIndex (i : N) (key : string) (v : value) (o : object)
  : object :=
  match o with
  | [] => [(key, v)]
  | (k, v') :: rest =>
      match arrayIndex k with
      | Some j =>
          if (j <? i)%N then (k, v') :: insertIndex i key v rest
          else (key, v) :: o
      | None => (key, v) :: o
      end
  end.

(** [o[key] = v] on an object created by a literal, [v] a primitive: the
    key [__proto__] reaches the setter of [Object.prototype], which creates
    no property; a present key takes the value; a new key goes among the
    array indices or, any other, to the end. *)
Definition assign (o : object) (key : string) (v : value) : object :=
  if String.eqb key "__proto__" then o
  else if JsMap.has key o then JsMap.set key v o
  else match arrayIndex key with
       | Some i => insertIndex i key v o
       | None => o ++ [(key, v)]
       end.

End JSON.

(** ** [generateCacheKey] of [src/storage/query-cache.ts] *)

Module KeyBuilder.

Fixpoint insertSorted (k : string) (l : list string) : list string :=
  match l with
  | [] => [k]
  | h :: rest =>
      if String.leb k h then k :: l else h :: insertSorted k rest
  end.

(** [keys.sort()]: without a comparator the strings are ordered by their
    code units. *)
Definition sort (l : list string) : list string :=
  fold_right insertSorted [] l.

(** The loop that fills [sortedParams]. *)
Definition sortedParams (params : JSON.object) : JSON.object :=
  fold_left (fun o key => JSON.assign o key (JSON.get params key))
            (sort (JsMap.keys params)) [].

Definition generateCacheKey (queryName : string) (params : JSON.object)
  : string :=
  (queryName ++ ":" ++ JSON.stringify (sortedParams params))%string.

End KeyBuilder.

(** ** [QueryCache<T>] of [src/storage/query-cache.ts] *)

Module QueryCache.
Section WithValue.
(** A value of type [T] is an [option V]: [None] is JavaScript's
    [undefined], which a [T] may hold, and which is also what [get] returns
    for a key without a valid entry. *)
Context {V : Type}.

(** [expiresAt]: a time, or [Infinity]. *)
Inductive expiry : Type :=
| Never
| At (time : Z).

(** [interface CacheEntry<T>] *)
Record CacheEntry : Type := mkEntry { value : option V; expiresAt : expiry }.

(** [interface QueryCacheOptions] *)
Record Options : Type := mkOptions {
  opt_maxSize : Z;
  opt_ttlMs : Z;
  opt_refreshOnAccess : option bool
}.

(** The private fields of [class QueryCache<T>]. The state the [onEvict]
    callback of the inner cache acts on is the field [evictions]. *)
Record t : Type := mk {
  cache : LRU.t CacheEntry Z;
  ttlMs : Z;
  refreshOnAccess : bool;
  hits : Z;
  misses : Z;
  expirations : Z;
  evictions : Z
}.

(** [() => { this.evictions++; }] *)
Definition countEviction (_ : string) (_ : CacheEntry) (evictions : Z) : Z :=
  evictions + 1.

(** [constructor(options)] *)
Definition new (options : Options) : string + t :=
  match LRU.new (LRU.mkOptions (opt_maxSize options) None
                               (Some countEviction)) with
  | inl err => inl err
  | inr c =>
      inr (mk c (opt_ttlMs options)
              (match opt_refreshOnAccess options with
               | Some b => b
               | None => false
               end)
              0 0 0 0)
  end.

(** [Date.now() > entry.expiresAt] *)
Definition isPast (now : Z) (e : expiry) : bool :=
  match e with
  | Never => false
  | At time => now >? time
  end.

(** [entry.expiresAt = ...] in [get]: the entry is the object that the
    inner cache holds under [key], so the write shows there. *)
Definition writeExpiresAt (c : LRU.t CacheEntry Z) (key : string)
                          (e : expiry) : LRU.t CacheEntry Z :=
  LRU.with_cache c
    (List.map
       (fun kv : string * LRU.CacheEntry CacheEntry =>
          if String.eqb (fst kv) key
          then (fst kv,
                LRU.mkEntry (mkEntry (value (LRU.value (snd kv))) e)
                            (LRU.timestamp (snd kv)))
          else kv)
       (LRU.cache c)).

(** [get(key)] *)
Definition get (q : t) (key : string) (now : Z) : option V * t :=
  let (found, c) := LRU.get (cache q) key now in
  match found with
  | None =>
      (None, mk c (ttlMs q) (refreshOnAccess q) (hits q) (misses q + 1)
                (expirations q) (evictions q))
  | Some entry =>
      if (ttlMs q >? 0) && isPast now (expiresAt entry) then
        (None, mk (snd (LRU.delete c key)) (ttlMs q) (refreshOnAccess q)
                  (hits q) (misses q + 1) (expirations q + 1) (evictions q))
      else
        let c' := if refreshOnAccess q && (ttlMs q >? 0)
                  then writeExpiresAt c key (At (now + ttlMs q))
                  else c in
        (value entry, mk c' (ttlMs q) (refreshOnAccess q) (hits q + 1)
                         (misses q) (expirations q) (evictions q))
  end.

(** [set(key, value)] *)
Definition set (q : t) (key : string) (v : option V) (now : Z) : t :=
  let entry := mkEntry v (if ttlMs q >? 0 then At (now + ttlMs q) else Never) in
  let (c, ev) := LRU.set (cache q) key entry now (evictions q) in
  mk c (ttlMs q) (refreshOnAccess q) (hits q) (misses q) (expirations q) ev.

(** [getOrCompute(key, computeFn)]. [computeFn] acts on a state [W] of the
    caller and returns a value or throws (or rejects with) an error of type
    [E]; [now] is the clock during the lookup and [now'] the clock when the
    computed value is stored, after the [await]. The calls are run one
    after the other: no other call is interleaved at the [await]. *)
Definition getOrCompute {E W : Type} (q : t) (key : string)
    (computeFn : W -> (E + option V) * W) (now now' : Z) (w : W)
  : (E + option V) * t * W :=
  let (cached, q1) := get q key now in
  match cached with
  | Some v => (inr (Some v), q1, w)
  | None =>
      let (outcome, w') := computeFn w in
      match outcome with
      | inl err => (inl err, q1, w')
      | inr v => (inr v, set q1 key v now', w')
      end
  end.

(** [clear()] *)
Definition clear (q : t) : t :=
  mk (LRU.clear (cache q)) (ttlMs q) (refreshOnAccess q) 0 0 0 0.

(** The visitor of [invalidateByPrefix]. *)
Definition collectKey (prefix : string) (_ : CacheEntry) (key : string)
                      (keysToDelete : list string) : list string :=
  if String.prefix prefix key then keysToDelete ++ [key] else keysToDelete.

(** [invalidateByPrefix(prefix)] *)
Definition invalidateByPrefix (q : t) (prefix : string) : t :=
  let keysToDelete := LRU.forEach (cache q) (collectKey prefix) [] in
  let c := fold_left (fun c key => snd (LRU.delete c key))
                     keysToDelete (cache q) in
  mk c (ttlMs q) (refreshOnAccess q) (hits q) (misses q) (expirations q)
     (evictions q).

(** [interface QueryCacheStats] *)
Record Stats : Type := mkStats {
  st_hits : Z; st_misses : Z; st_size : Z; st_hitRate : Q;
  st_expirations : Z; st_evictions : Z
}.

(** [getStats()] *)
Definition getStats (q : t) : Stats :=
  mkStats (hits q) (misses q) (LRU.st_size (LRU.getStats (cache q)))
          (LRU.hitRate (hits q) (misses q)) (expirations q) (evictions q).

End WithValue.
Arguments CacheEntry : clear implicits.
Arguments t : clear implicits.
End QueryCache.

(** ** [StatementCache] of [src/storage/statement-cache.ts] *)

Module StatementCache.

(** [\s] of a regular expression, which is also what [trim] removes, among
    the code units below 256: tab, line feed, vertical tab, form feed,
    carriage return, space, no-break space. *)
Definition isSpace (c : ascii) : bool :=
  let n := N_of_ascii c in
  ((9 <=? n) && (n <=? 13) || (n =? 32) || (n =? 160))%N.

(** [s.replace(/\s+/g, ' ')]; [inRun] tells that the code unit before was
    whitespace. *)
Fixpoint collapse (inRun : bool) (s : string) : string :=
  match s with
  | EmptyString => ""
  | String c rest =>
      if isSpace c
      then if inRun then collapse true rest
           else String " " (collapse true rest)
      else String c (collapse false rest)
  end.

Fixpoint trimStart (s : string) : string :=
  match s with
  | EmptyString => ""
  | String c rest => if isSpace c then trimStart rest else s
  end.

Fixpoint trimEnd (s : string) : string :=
  match s with
  | EmptyString => ""
  | String c rest =>
      match trimEnd rest with
      | EmptyString => if isSpace c then "" else String c ""
      | kept => String c kept
      end
  end.

(** [s.trim()] *)
Definition trim (s : string) : string := trimEnd (trimStart s).

(** [normalizeSQL(sql)] *)
Definition normalizeSQL (sql : string) : string :=
  trim (collapse false sql).

Section WithDatabase.
(** [Stmt] is the type of prepared statements, [D] the state of the
    database, [E] the type of the errors its [prepare] throws. *)
Context {Stmt D E : Type}.

(** The private fields of [class StatementCache]; the inner cache has no
    eviction callback. *)
Record t : Type := mk {
  cache : LRU.t Stmt unit;
  db_prepare : string -> D -> (E + Stmt) * D;
  hits : Z;
  misses : Z
}.

(** [constructor(db, options)] *)
Definition new (prepareFn : string -> D -> (E + Stmt) * D) (maxSize : Z)
  : string + t :=
  match LRU.new (LRU.mkOptions maxSize None None) with
  | inl err => inl err
  | inr c => inr (mk c prepareFn 0 0)
  end.

(** [prepare(sql)] *)
Definition prepare (sc : t) (sql : string) (now : Z) (d : D)
  : (E + Stmt) * t * D :=
  let normalizedSQL := normalizeSQL sql in
  let (cached, c) := LRU.get (cache sc) normalizedSQL now in
  match cached with
  | Some stmt =>
      (inr stmt, mk c (db_prepare sc) (hits sc + 1) (misses sc), d)
  | None =>
      let sc1 := mk c (db_prepare sc) (hits sc) (misses sc + 1) in
      let (outcome, d') := db_prepare sc1 normalizedSQL d in
      match outcome with
      | inl err => (inl err, sc1, d')
      | inr stmt =>
          (inr stmt,
           mk (fst (LRU.set (cache sc1) normalizedSQL stmt now tt))
              (db_prepare sc1) (hits sc1) (misses sc1),
           d')
      end
  end.

(** [interface StatementCacheStats] *)
Record Stats : Type := mkStats {
  st_hits : Z; st_misses : Z; st_size : Z; st_hitRate : Q
}.

(** [getStats()] *)
Definition getStats (sc : t) : Stats :=
  mkStats (hits sc) (misses sc) (LRU.st_size (LRU.getStats (cache sc)))
          (LRU.hitRate (hits sc) (misses sc)).

(** [clear()] *)
Definition clear (sc : t) : t :=
  mk (LRU.clear (cache sc)) (db_prepare sc) 0 0.

End WithDatabase.
Arguments t : clear implicits.
End StatementCache.

(** ** The LIKE pattern functions of [src/utils/security.ts] *)

Module Security.

Definition backslash : ascii := "092"%char.

(** [s.replace(/c/g, replacement)] for a pattern that matches the single
    code unit [c] and a replacement text that holds no [$]. *)
Fixpoint replaceAll (c : ascii) (replacement : string) (s : string) : string :=
  match s with
  | EmptyString => ""
  | String a rest =>
      if Ascii.eqb a c then (replacement ++ replaceAll c replacement rest)%string
      else String a (replaceAll c replacement rest)
  end.

(** [escapeLikePattern(input)] with the default [escapeChar], a backslash,
    which is how every caller calls it: the three [replace] passes in the
    order of the source, after the test for an empty input. *)
Definition escapeLikePattern (input : string) : string :=
  match input with
  | EmptyString => ""
  | _ =>
      let escapeChar := String backslash "" in
      replaceAll "_" (escapeChar ++ "_")
        (replaceAll "%" (escapeChar ++ "%")
           (replaceAll backslash (escapeChar ++ escapeChar) input))
  end.

(** ['contains' | 'startsWith' | 'endsWith' | 'exact'] *)
Inductive Position : Type := Contains | StartsWith | EndsWith | Exact.

(** [interface SafeLikePattern] *)
Record SafeLikePattern : Type := mkSafeLikePattern {
  pattern : string;
  escapeClause : string
}.

(** [createSafeLikePattern(searchTerm, position)]; an omitted [position]
    is ['contains']. *)
Definition createSafeLikePattern (searchTerm : string)
    (position : option Position) : SafeLikePattern :=
  let escaped := escapeLikePattern searchTerm in
  let pattern :=
    match position with
    | Some StartsWith => (escaped ++ "%")%string
    | Some EndsWith => ("%" ++ escaped)%string
    | Some Exact => escaped
    | Some Contains | None => ("%" ++ escaped ++ "%")%string
    end in
  mkSafeLikePattern pattern ("ESCAPE '" ++ String backslash "'")%string.

End Security.

(** ** The repositories of [src/storage/repositories.ts]

    What the methods hand to the database adapter: the statement text and
    the values bound to its placeholders. *)

Module Repositories.

(** A bound value: a string or a number. *)
Inductive SqlValue : Type :=
| SqlText (s : string)
| SqlNumber (n : Z).

(** [Partial<Omit<IntelligenceRecord, 'id' | 'createdAt'>>]: an absent
    field is [undefined]. *)
Record IntelligenceUpdates : Type := mkIntelligenceUpdates {
  projectPath : option string;
  status : option string;
  fileCount : option Z;
  conceptCount : option Z;
  patternCount : option Z;
  updatedAt : option Z;
  metadata : option JSON.object
}.

(** [if (updates.x !== undefined) { fields.push(field); values.push(updates.x); }] *)
Definition pushField {A : Type} (given : option A) (field : string)
    (inject : A -> SqlValue) (st : list string * list SqlValue)
  : list string * list SqlValue :=
  match given with
  | Some v => (fst st ++ [field], snd st ++ [inject v])
  | None => st
  end.

(** [IntelligenceRepository.update(id, updates)]: the arguments of the
    call of [db.run], or [None] when the method returns without one. *)
Definition update (id : string) (updates : IntelligenceUpdates)
  : option (string * list SqlValue) :=
  let st := ([], []) in
  let st := pushField (projectPath updates) "project_path = ?" SqlText st in
  let st := pushField (status updates) "status = ?" SqlText st in
  let st := pushField (fileCount updates) "file_count = ?" SqlNumber st in
  let st := pushField (conceptCount updates) "concept_count = ?" SqlNumber st in
  let st := pushField (patternCount updates) "pattern_count = ?" SqlNumber st in
  let st := pushField (updatedAt updates) "updated_at = ?" SqlNumber st in
  if (List.length (fst st) =? 0)%nat then None
  else Some (("UPDATE intelligence SET " ++ String.concat ", " (fst st) ++
              " WHERE id = ?")%string,
             snd st ++ [SqlText id]).

(** [ConceptRepository.searchByName(projectPath, query)]: the values bound
    to the two placeholders of its statement, whose LIKE clause declares
    the backslash as the escape character. *)
Definition searchByName_params (projectPath query : string) : list string :=
  let escapedQuery := Security.escapeLikePattern query in
  [projectPath; ("%" ++ escapedQuery ++ "%")%string].

End Repositories.

(** * The vocabulary of the properties

    Invariants, observations and sample caches that the statements below
    are written with. *)

(** ** The bounded ordered cache *)

(** The invariant of a cache: the map binds each key once, the capacity is
    at least one and never exceeded. *)
Definition LRU_inv {T W : Type} (c : LRU.t T W) : Prop :=
  JsMap.wf (LRU.cache c) /\ 1 <= LRU.maxSize c /\ LRU.size c <= LRU.maxSize c.

(** What no method changes: the configuration of the cache. *)
Definition LRU_same_config {T W : Type} (c c' : LRU.t T W) : Prop :=
  LRU.maxSize c' = LRU.maxSize c /\ LRU.maxAge c' = LRU.maxAge c /\
  LRU.onEvict c' = LRU.onEvict c.

(** [set] adds a key to a full cache: the key is new and the size has
    reached the capacity. *)
Definition LRU_evicting {T W : Type} (c : LRU.t T W) (key : string) : bool :=
  negb (JsMap.has key (LRU.cache c)) &&
  (JsMap.size (LRU.cache c) >=? LRU.maxSize c).

(** The number of calls of a run that add a new key to a full cache. *)
Fixpoint LRU_capacity_evictions {T W : Type} (c : LRU.t T W) (w : W)
    (calls : list (Z * LRU.call T)) : nat :=
  match calls with
  | [] => 0%nat
  | (now, op) :: rest =>
      ((match op with
        | LRU.CSet key _ => if LRU_evicting c key then 1 else 0
        | _ => 0
        end) +
       (let (c', w') := LRU.step c w now op in
        LRU_capacity_evictions c' w' rest))%nat
  end.

(** An [onEvict] callback that records its calls, in order. *)
Definition LRU_record_eviction {T : Type} (key : string) (v : T)
    (log : list (string * T)) : list (string * T) :=
  log ++ [(key, v)].

(** A full cache of capacity 2 with a recording callback. *)
Definition LRU_full_example : LRU.t Z (list (string * Z)) :=
  LRU.mk [("a", LRU.mkEntry 1 0); ("b", LRU.mkEntry 2 5)] 2 (Some 100)
         (Some LRU_record_eviction) 0 0.

(** ** The query result cache *)

(** The bindings of the inner cache. *)
Definition QC_store {V : Type} (q : QueryCache.t V)
  : JsMap.t (LRU.CacheEntry (QueryCache.CacheEntry V)) :=
  LRU.cache (QueryCache.cache q).

(** The invariant of a query cache: the inner cache satisfies its own, has
    no [maxAge], and its [onEvict] is the callback of the constructor. *)
Definition QC_inv {V : Type} (q : QueryCache.t V) : Prop :=
  LRU_inv (QueryCache.cache q) /\
  LRU.maxAge (QueryCache.cache q) = None /\
  LRU.onEvict (QueryCache.cache q) = Some QueryCache.countEviction.

(** [key] has no entry, or one that holds [undefined]. *)
Definition QC_no_value {V : Type} (q : QueryCache.t V) (key : string) : Prop :=
  match JsMap.get key (QC_store q) with
  | None => True
  | Some e => QueryCache.value (LRU.value e) = None
  end.

(** The entry that [set] stores. *)
Definition QC_new_entry {V : Type} (q : QueryCache.t V) (v : option V) (now : Z)
  : LRU.CacheEntry (QueryCache.CacheEntry V) :=
  LRU.mkEntry
    (QueryCache.mkEntry v
       (if QueryCache.ttlMs q >? 0
        then QueryCache.At (now + QueryCache.ttlMs q)
        else QueryCache.Never))
    now.

(** A query cache of capacity 10 and [ttlMs = 50], just constructed. *)
Definition QC_fresh {V : Type} : QueryCache.t V :=
  QueryCache.mk
    (LRU.mk [] 10 None (Some QueryCache.countEviction) 0 0) 50 false 0 0 0 0.

(** A [computeFn] that throws [err] on its first call and returns [v]
    afterwards; the state of the caller counts its calls. *)
Definition QC_flaky {V E : Type} (err : E) (v : V) (calls : nat)
  : (E + option V) * nat :=
  (match calls with
   | O => inl err
   | S _ => inr (Some v)
   end, S calls).

(** [key] has an entry, and the entry holds [undefined]. *)
Definition QC_holds_undefined {V : Type} (q : QueryCache.t V) (key : string)
  : Prop :=
  exists e, JsMap.get key (QC_store q) = Some e /\
            QueryCache.value (LRU.value e) = None.

(** [getOrCompute] on the same key, once for each pair of clock readings;
    the state of the caller goes from one call to the next. *)
Fixpoint QC_getOrCompute_each {V E W : Type} (q : QueryCache.t V)
    (key : string) (f : W -> (E + option V) * W) (times : list (Z * Z))
    (w : W) : QueryCache.t V * W :=
  match times with
  | [] => (q, w)
  | (now, now') :: rest =>
      let r := QueryCache.getOrCompute q key f now now' w in
      QC_getOrCompute_each (snd (fst r)) key f rest (snd r)
  end.

(** A cache whose key [k] holds [undefined], stored at time 0. *)
Definition QC_undefined_example : QueryCache.t Z :=
  QueryCache.set QC_fresh "k" None 0.

(** A cache whose key [k] holds 7, stored at time 0 and valid until 50. *)
Definition QC_stale_example : QueryCache.t Z :=
  QueryCache.set QC_fresh "k" (Some 7) 0.

(** A cache whose key [k] holds [undefined] and whose key [j], stored
    later, holds 1. *)
Definition QC_two_keys_example : QueryCache.t Z :=
  QueryCache.set QC_undefined_example "j" (Some 1) 1.

(** A [computeFn] that throws. *)
Definition QC_failing (w : unit) : (string + option Z) * unit :=
  (inl "boom", w).

(** ** Strings *)

(** Every code unit of the string satisfies [p]. *)
Fixpoint allChars (p : ascii -> bool) (s : string) : bool :=
  match s with
  | EmptyString => true
  | String c rest => p c && allChars p rest
  end.

(** The string is empty or starts with a code unit that fails [p]. *)
Definition stopsAt (p : ascii -> bool) (s : string) : bool :=
  match s with
  | EmptyString => true
  | String c _ => negb (p c)
  end.

(** The order of [sort]: by code units, a prefix first. *)
Definition str_le (a b : string) : Prop := String.leb a b = true.

(** ** The statement cache *)

(** A statement cache of the given capacity, just constructed, on a
    database whose [prepare] is [prepareFn]. *)
Definition SC_fresh {Stmt D E : Type}
    (prepareFn : string -> D -> (E + Stmt) * D) (maxSize : Z)
  : StatementCache.t Stmt D E :=
  StatementCache.mk (LRU.mk [] maxSize None None 0 0) prepareFn 0 0.

(** The bindings of the inner cache. *)
Definition SC_store {Stmt D E : Type} (sc : StatementCache.t Stmt D E)
  : JsMap.t (LRU.CacheEntry Stmt) :=
  LRU.cache (StatementCache.cache sc).

(** A [prepare] of the database that rejects every statement. *)
Definition SC_reject (sql : string) (d : unit) : (string + string) * unit :=
  (inl "SQL syntax error", d).

(** A [prepare] of the database that throws on its first call and then
    returns the text it is given as the handle; the state of the database
    counts the calls. *)
Definition SC_flaky (sql : string) (calls : nat) : (string + string) * nat :=
  (match calls with
   | O => inl "SQL syntax error"
   | S _ => inr sql
   end, S calls).

(** A [prepare] of the database that returns the text it is given as the
    handle and counts the calls. *)
Definition SC_echo (sql : string) (calls : nat) : (string + string) * nat :=
  (inr sql, S calls).

(** The text starts with whitespace. *)
Definition SC_startsWithSpace (s : string) : bool :=
  match s with
  | EmptyString => false
  | String c _ => StatementCache.isSpace c
  end.

(** The words of a text: its maximal runs of code units that are not
    whitespace, in order. Two texts with the same words differ only in
    their runs of whitespace, leading and trailing whitespace included. *)
Fixpoint SC_words (s : string) : list string :=
  match s with
  | EmptyString => []
  | String c rest =>
      if StatementCache.isSpace c then SC_words rest
      else match SC_words rest with
           | [] => [String c ""]
           | w :: ws =>
               if SC_startsWithSpace rest then String c "" :: w :: ws
               else String c w :: ws
           end
  end.

(** The code units of a word. *)
Definition SC_notSpace (c : ascii) : bool := negb (StatementCache.isSpace c).

(** A word is not empty and holds no whitespace. *)
Definition SC_word (w : string) : Prop :=
  w <> "" /\ allChars SC_notSpace w = true.

(** The quoted literals of a statement, in order: the text between an
    apostrophe and the next one. The database reads a literal verbatim, so
    two statements whose literals differ are different statements. *)
Fixpoint SC_literals (open : option string) (s : string) : list string :=
  match s with
  | EmptyString => []
  | String c rest =>
      if Ascii.eqb c "039"%char then
        match open with
        | None => SC_literals (Some "") rest
        | Some lit => lit :: SC_literals None rest
        end
      else
        match open with
        | None => SC_literals None rest
        | Some lit => SC_literals (Some (lit ++ String c "")%string) rest
        end
  end.

(** The quoted literals of a statement read from its start. *)
Definition SC_stringLiterals (s : string) : list string := SC_literals None s.

(** [SELECT  *], a line feed, [ FROM t]. *)
Definition SC_two_lines : string :=
  ("SELECT  *" ++ String "010"%char " FROM t")%string.

(** ** The cache key builder *)

(** The value of a hexadecimal digit. *)
Definition JSON_hexValue (c : ascii) : option N :=
  match N_of_ascii c with
  | 48 => Some 0 | 49 => Some 1 | 50 => Some 2 | 51 => Some 3 | 52 => Some 4
  | 53 => Some 5 | 54 => Some 6 | 55 => Some 7 | 56 => Some 8 | 57 => Some 9
  | 97 => Some 10 | 98 => Some 11 | 99 => Some 12 | 100 => Some 13
  | 101 => Some 14 | 102 => Some 15
  | _ => None
  end%N.

(** The code unit that an escape after a backslash stands for, with the
    rest of the text. *)
Definition JSON_unescapeAfterBackslash (s : string) : option (ascii * string) :=
  match s with
  | EmptyString => None
  | String b rest =>
      match N_of_ascii b with
      | 34 => Some (JSON.dquote, rest)
      | 92 => Some (JSON.backslash, rest)
      | 98 => Some ("008"%char, rest)
      | 116 => Some ("009"%char, rest)
      | 110 => Some ("010"%char, rest)
      | 102 => Some ("012"%char, rest)
      | 114 => Some ("013"%char, rest)
      | 117 =>
          match rest with
          | String "0" (String "0" (String h (String l rest'))) =>
              match JSON_hexValue h, JSON_hexValue l with
              | Some x, Some y => Some (ascii_of_N (16 * x + y), rest')
              | _, _ => None
              end
          | _ => None
          end
      | _ => None
      end%N
  end.

(** The first code unit of an escaped text, with the rest; nothing at a
    double quote, which ends the text. *)
Definition JSON_unescapeHead (s : string) : option (ascii * string) :=
  match s with
  | EmptyString => None
  | String a rest =>
      if Ascii.eqb a JSON.dquote then None
      else if Ascii.eqb a JSON.backslash then JSON_unescapeAfterBackslash rest
      else Some (a, rest)
  end.

Definition JSON_isDigit (c : ascii) : bool :=
  let n := N_of_ascii c in ((48 <=? n) && (n <=? 57))%N.

(** The code units of a number: the digits, the signs, the point and the
    [e] of the exponent. *)
Definition JSON_isNumChar (c : ascii) : bool :=
  let n := N_of_ascii c in
  (JSON_isDigit c || (n =? 45) || (n =? 43) || (n =? 46) || (n =? 101))%N.

(** The text holds the code unit [c]. *)
Fixpoint hasChar (c : ascii) (s : string) : bool :=
  match s with
  | EmptyString => false
  | String a rest => Ascii.eqb a c || hasChar c rest
  end.

Definition JSON_isZero (c : ascii) : bool := Ascii.eqb c "0".

Definition JSON_startsNonZero (s : string) : bool :=
  match s with
  | EmptyString => false
  | String c _ => negb (Ascii.eqb c "0")
  end.

Fixpoint JSON_endsNonZero (s : string) : bool :=
  match s with
  | EmptyString => false
  | String c rest =>
      match rest with
      | EmptyString => negb (Ascii.eqb c "0")
      | _ => JSON_endsNonZero rest
      end
  end.

(** The digits of a number: decimal digits, the first and the last of
    which are not zeros. *)
Definition JSON_digits (s : string) : bool :=
  allChars JSON_isDigit s && JSON_startsNonZero s && JSON_endsNonZero s.

(** [Number.MAX_SAFE_INTEGER], 2^53 - 1. *)
Definition JSON_maxSafeInteger : Z := 9007199254740991.

(** The number with the digits [s] and the exponent [n] is an integer of
    the safe range: it has no digit after the point and, written out, is
    at most 2^53 - 1. *)
Definition JSON_safeDigits (s : string) (n : Z) : bool :=
  let k := Z.of_nat (String.length s) in
  (k <=? n) &&
  match NilEmpty.uint_of_string (s ++ JSON.zeros (Z.to_nat (n - k))) with
  | Some u => Z.of_uint u <=? JSON_maxSafeInteger
  | None => false
  end.

(** The values of the model that are well formed and that
    [JSON.stringify] writes as themselves: null, the booleans, the
    strings and the finite numbers, an integer of the safe range as
    [Int], any other finite number as [Num]; not [undefined] and not a
    number that is not finite. *)
Definition JSON_representable (v : JSON.value) : bool :=
  match v with
  | JSON.Undefined | JSON.NaN => false
  | JSON.Int z => Z.abs z <=? JSON_maxSafeInteger
  | JSON.Num _ s n => JSON_digits s && negb (JSON_safeDigits s n)
  | _ => true
  end.

(** A parameter record that [sortedParams] and [JSON.stringify] keep whole:
    no parameter is named [__proto__] and every value is representable. *)
Definition JSON_plain (o : JSON.object) : Prop :=
  Forall (fun kv => fst kv <> "__proto__" /\
                    JSON_representable (snd kv) = true) o.

(** What follows the first member of an object. *)
Definition JSON_tail (rest : list string) : string :=
  match rest with
  | [] => "}"
  | _ => ("," ++ String.concat "," rest ++ "}")%string
  end.

(** ** Further vocabulary *)

(** The age test of [isExpired] and of [cleanExpired], on a timestamp: an
    absent [maxAge] and a [maxAge] of 0 age nothing. *)
Definition LRU_aged (maxAge : option Z) (timestamp now : Z) : bool :=
  match maxAge with
  | None => false
  | Some age => negb (age =? 0) && (now - timestamp >? age)
  end.

(** The number of calls of [get] in a run since its last [clear], on top
    of [base] calls before the run. *)
Fixpoint LRU_lookups {T : Type} (base : Z) (calls : list (Z * LRU.call T)) : Z :=
  match calls with
  | [] => base
  | (_, op) :: rest =>
      LRU_lookups (match op with
                   | LRU.CGet _ => base + 1
                   | LRU.CClear => 0
                   | _ => base
                   end) rest
  end.

(** A call of a public method of the query cache. [QCompute] is
    [getOrCompute] with a [computeFn] that ends in [outcome]; [storedAt] is
    the clock when the computed value is stored. *)
Inductive QC_call (V E : Type) : Type :=
| QGet (key : string)
| QSet (key : string) (v : option V)
| QCompute (key : string) (outcome : E + option V) (storedAt : Z)
| QClear
| QInvalidate (prefix : string)
| QGetStats.
Arguments QGet {V E}.
Arguments QSet {V E}.
Arguments QCompute {V E}.
Arguments QClear {V E}.
Arguments QInvalidate {V E}.
Arguments QGetStats {V E}.

Definition QC_step {V E : Type} (q : QueryCache.t V) (now : Z)
    (op : QC_call V E) : QueryCache.t V :=
  match op with
  | QGet key => snd (QueryCache.get q key now)
  | QSet key v => QueryCache.set q key v now
  | QCompute key outcome storedAt =>
      snd (fst (QueryCache.getOrCompute q key
                  (fun w : unit => (outcome, w)) now storedAt tt))
  | QClear => QueryCache.clear q
  | QInvalidate prefix => QueryCache.invalidateByPrefix q prefix
  | QGetStats => q
  end.

(** The run of a sequence of calls, each with its clock reading. *)
Fixpoint QC_run {V E : Type} (q : QueryCache.t V)
    (calls : list (Z * QC_call V E)) : QueryCache.t V :=
  match calls with
  | [] => q
  | (now, op) :: rest => QC_run (QC_step q now op) rest
  end.

(** The number of lookups ([get] and [getOrCompute]) in a run since its
    last [clear], on top of [base] lookups before the run. *)
Fixpoint QC_lookups {V E : Type} (base : Z) (calls : list (Z * QC_call V E))
  : Z :=
  match calls with
  | [] => base
  | (_, op) :: rest =>
      QC_lookups (match op with
                  | QGet _ | QCompute _ _ _ => base + 1
                  | QClear => 0
                  | _ => base
                  end) rest
  end.

(** An entry set at [setAt] is past its expiry at [now]: only with a
    positive [ttlMs]. *)
Definition QC_lapsed (ttlMs setAt now : Z) : bool :=
  (ttlMs >? 0) && (now >? setAt + ttlMs).

(** What the counters of a query cache of the given capacity satisfy after
    the given number of lookups. *)
Definition QC_accounts {V : Type} (q : QueryCache.t V)
    (capacity lookups : Z) : Prop :=
  QC_inv q /\ LRU.maxSize (QueryCache.cache q) = capacity /\
  0 <= QueryCache.hits q /\
  0 <= QueryCache.expirations q <= QueryCache.misses q /\
  0 <= QueryCache.evictions q /\
  QueryCache.hits q + QueryCache.misses q = lookups.

(** ** Further vocabulary: the statement cache *)

(** A database that counts the calls of its [prepare]. *)
Definition SC_counting {Stmt D E : Type}
    (prepareFn : string -> D -> (E + Stmt) * D) (sql : string) (dn : D * Z)
  : (E + Stmt) * (D * Z) :=
  let (outcome, d') := prepareFn sql (fst dn) in (outcome, (d', snd dn + 1)).

(** [prepare] for each text in turn, each with its clock reading; a call
    that throws is followed by the next one. *)
Fixpoint SC_prepare_each {Stmt D E : Type} (sc : StatementCache.t Stmt D E)
    (d : D) (calls : list (Z * string)) : StatementCache.t Stmt D E * D :=
  match calls with
  | [] => (sc, d)
  | (now, sql) :: rest =>
      let r := StatementCache.prepare sc sql now d in
      SC_prepare_each (snd (fst r)) (snd r) rest
  end.

(** The distinct keys of a sequence of [prepare] calls. *)
Definition SC_distinct_keys (calls : list (Z * string)) : list string :=
  nodup string_dec
        (List.map (fun call => StatementCache.normalizeSQL (snd call)) calls).

(** The state of a statement cache on a counting database that has never
    evicted and never failed: every call of the database left an entry. *)
Definition SC_inv {Stmt D E : Type}
    (prepareFn : string -> D -> (E + Stmt) * D) (capacity : Z)
    (sc : StatementCache.t Stmt (D * Z) E) (dbCalls : Z) : Prop :=
  StatementCache.db_prepare sc = SC_counting prepareFn /\
  JsMap.wf (SC_store sc) /\
  LRU.maxAge (StatementCache.cache sc) = None /\
  LRU.maxSize (StatementCache.cache sc) = capacity /\
  dbCalls = JsMap.size (SC_store sc) /\
  StatementCache.misses sc = dbCalls /\
  0 <= StatementCache.hits sc.

(** ** Further vocabulary: LIKE patterns

    How the database reads a LIKE pattern whose escape character is the
    backslash: the escape character makes the next code unit a literal,
    [%] stands for any text and [_] for any one code unit. A pattern that
    ends in a lone escape character matches nothing. *)
Inductive LIKE_token : Type :=
| LIKE_Lit (c : ascii)
| LIKE_AnyString
| LIKE_AnyChar.

Fixpoint LIKE_tokens_from (escaped : bool) (pattern : string)
  : option (list LIKE_token) :=
  match pattern with
  | EmptyString => if escaped then None else Some []
  | String c rest =>
      if escaped then option_map (cons (LIKE_Lit c)) (LIKE_tokens_from false rest)
      else if Ascii.eqb c Security.backslash then LIKE_tokens_from true rest
      else if Ascii.eqb c "%" then
        option_map (cons LIKE_AnyString) (LIKE_tokens_from false rest)
      else if Ascii.eqb c "_" then
        option_map (cons LIKE_AnyChar) (LIKE_tokens_from false rest)
      else option_map (cons (LIKE_Lit c)) (LIKE_tokens_from false rest)
  end.

Definition LIKE_tokens (pattern : string) : option (list LIKE_token) :=
  LIKE_tokens_from false pattern.

(** Some suffix of the text satisfies [matchRest]. *)
Fixpoint LIKE_skip (matchRest : string -> bool) (text : string) : bool :=
  matchRest text ||
  match text with
  | EmptyString => false
  | String _ rest => LIKE_skip matchRest rest
  end.

(** The text matches the tokens; [eqc] compares a literal of the pattern
    with a code unit of the text (the database folds the case of
    letters). *)
Fixpoint LIKE_match (eqc : ascii -> ascii -> bool) (tokens : list LIKE_token)
    (text : string) : bool :=
  match tokens with
  | [] => match text with EmptyString => true | _ => false end
  | LIKE_Lit c :: rest =>
      match text with
      | EmptyString => false
      | String a text' => eqc c a && LIKE_match eqc rest text'
      end
  | LIKE_AnyChar :: rest =>
      match text with
      | EmptyString => false
      | String _ text' => LIKE_match eqc rest text'
      end
  | LIKE_AnyString :: rest => LIKE_skip (LIKE_match eqc rest) text
  end.

(** [text LIKE pattern ESCAPE '\'] *)
Definition LIKE_matches (eqc : ascii -> ascii -> bool) (pattern text : string)
  : bool :=
  match LIKE_tokens pattern with
  | Some tokens => LIKE_match eqc tokens text
  | None => false
  end.

(** Two texts of the same length whose code units agree under [eqc]. *)
Fixpoint LIKE_same (eqc : ascii -> ascii -> bool) (term text : string) : bool :=
  match term, text with
  | EmptyString, EmptyString => true
  | String c term', String a text' => eqc c a && LIKE_same eqc term' text'
  | _, _ => false
  end.

(** The code units that mean something in a LIKE pattern. *)
Definition LIKE_special (c : ascii) : bool :=
  Ascii.eqb c Security.backslash || Ascii.eqb c "%" || Ascii.eqb c "_".

Definition LIKE_ordinary (c : ascii) : bool := negb (LIKE_special c).

(** One code unit of the escaped text. *)
Definition LIKE_escapeChar (c : ascii) : string :=
  if LIKE_special c then String Security.backslash (String c "")
  else String c "".

(** ** Further vocabulary: the statements of the repositories *)

(** The number of occurrences of a code unit in a text. *)
Fixpoint countChar (c : ascii) (s : string) : nat :=
  match s with
  | EmptyString => O
  | String a rest => (if Ascii.eqb a c then 1 else 0) + countChar c rest
  end.

Definition isGiven {A : Type} (field : option A) : bool :=
  match field with Some _ => true | None => false end.

(** Which of the fields that [update] looks at are given. *)
Definition IU_given (u : Repositories.IntelligenceUpdates) : list bool :=
  [isGiven (Repositories.projectPath u); isGiven (Repositories.status u);
   isGiven (Repositories.fileCount u); isGiven (Repositories.conceptCount u);
   isGiven (Repositories.patternCount u); isGiven (Repositories.updatedAt u)].

(** The values of the given fields, in the order of the record type. *)
Definition IU_values (u : Repositories.IntelligenceUpdates)
  : list Repositories.SqlValue :=
  let text := fun f => match f with
                       | Some s => [Repositories.SqlText s] | None => [] end in
  let number := fun f => match f with
                         | Some n => [Repositories.SqlNumber n] | None => [] end in
  text (Repositories.projectPath u) ++ text (Repositories.status u) ++
  number (Repositories.fileCount u) ++ number (Repositories.conceptCount u) ++
  number (Repositories.patternCount u) ++ number (Repositories.updatedAt u).

(** An update record with the same fields given as [u], each with a
    blank value. *)
Definition IU_blank (u : Repositories.IntelligenceUpdates)
  : Repositories.IntelligenceUpdates :=
  let text := fun f : option string =>
                match f with Some _ => Some "" | None => None end in
  let number := fun f : option Z =>
                  match f with Some _ => Some 0 | None => None end in
  Repositories.mkIntelligenceUpdates
    (text (Repositories.projectPath u)) (text (Repositories.status u))
    (number (Repositories.fileCount u)) (number (Repositories.conceptCount u))
    (number (Repositories.patternCount u)) (number (Repositories.updatedAt u))
    None.

(** ** Further vocabulary: the visits of [forEach] *)

(** The keys and values that [forEach] hands to its callback, in order. *)
Definition LRU_visits {T W : Type} (c : LRU.t T W) : list (string * T) :=
  LRU.forEach c (fun v k acc => acc ++ [(k, v)]) [].

(** No colon. *)
Definition notColon (c : ascii) : bool := negb (Ascii.eqb c ":").

(** ** Further vocabulary: what keeps a memoized value *)




(** ** Further vocabulary: where a cached value comes from *)

(** What a call does to the entries of the cache: it stores a value under
    a key at a time, removes every entry, or removes the entries whose
    keys start with a prefix. *)
Inductive QC_event (V : Type) : Type :=
| QStored (key : string) (v : option V) (storedAt : Z)
| QCleared
| QInvalidated (prefix : string).
Arguments QStored {V}.
Arguments QCleared {V}.
Arguments QInvalidated {V}.

(** The events of one call made on the cache [q]. A [set] stores; a
    [getOrCompute] stores when its lookup finds no value and its
    [computeFn] returns, and only then; a lookup stores nothing. *)
Definition QC_event_of {V E : Type} (q : QueryCache.t V) (now : Z)
    (op : QC_call V E) : list (QC_event V) :=
  match op with
  | QSet key v => [QStored key v now]
  | QCompute key outcome storedAt =>
      match fst (QueryCache.get q key now), outcome with
      | None, inr v => [QStored key v storedAt]
      | _, _ => []
      end
  | QClear => [QCleared]
  | QInvalidate prefix => [QInvalidated prefix]
  | QGet _ | QGetStats => []
  end.

(** The events of a run, in order. *)
Fixpoint QC_events {V E : Type} (q : QueryCache.t V)
    (calls : list (Z * QC_call V E)) : list (QC_event V) :=
  match calls with
  | [] => []
  | (now, op) :: rest => QC_event_of q now op ++ QC_events (QC_step q now op) rest
  end.

(** What an event leaves of the last value stored for [key]. *)
Definition QC_track {V : Type} (key : string)
    (current : option (option V * Z)) (event : QC_event V)
  : option (option V * Z) :=
  match event with
  | QStored k v storedAt => if String.eqb k key then Some (v, storedAt) else current
  | QCleared => None
  | QInvalidated prefix => if String.prefix prefix key then None else current
  end.

(** The value stored last for [key], with the time it was stored at, when
    no [clear] and no invalidation of a prefix of [key] came after it. *)
Definition QC_last_stored {V : Type} (key : string) (events : list (QC_event V))
  : option (option V * Z) :=
  fold_left (QC_track key) events None.

(** Every entry of the cache holds the value stored last for its key, and
    without [refreshOnAccess] it still has the expiry it was stored
    with. *)
Definition QC_provenance {V : Type} (q : QueryCache.t V)
    (events : list (QC_event V)) : Prop :=
  forall k e, JsMap.get k (QC_store q) = Some e ->
    exists t, QC_last_stored k events =
                Some (QueryCache.value (LRU.value e), t) /\
      (QueryCache.refreshOnAccess q = false -> QueryCache.ttlMs q > 0 ->
       QueryCache.expiresAt (LRU.value e) = QueryCache.At (t + QueryCache.ttlMs q)).

(** * Properties *)

(** ** The tests of the repository, run on the embedding *)

Section RepositoryTests.

(** [lru-cache.test.ts], "should update existing keys". *)
Example test_lru_update :
  exists c0 : LRU.t Z unit,
    LRU.new (LRU.mkOptions 10 None None) = inr c0 /\
    let c1 := fst (LRU.set c0 "key" 100 0 tt) in
    let c2 := fst (LRU.set (snd (LRU.get c1 "key" 1)) "key" 200 2 tt) in
    fst (LRU.get c1 "key" 1) = Some 100 /\
    fst (LRU.get c2 "key" 3) = Some 200 /\
    LRU.size c2 = 1.
Proof. eexists. split; [reflexivity|]. vm_compute. repeat split. Qed.

(** [lru-cache.test.ts], "should track access order correctly". *)
Example test_lru_access_order :
  exists c0 : LRU.t Z (list (string * Z)),
    LRU.new (LRU.mkOptions 2 None (Some LRU_record_eviction)) = inr c0 /\
    snd (LRU.run c0 [] [(0, LRU.CSet "first" 1); (1, LRU.CSet "second" 2);
                        (2, LRU.CGet "first"); (3, LRU.CSet "third" 3)])
    = [("second", 2)].
Proof. eexists. split; reflexivity. Qed.

(** [lru-cache.test.ts], "should clean expired entries with cleanExpired()". *)
Example test_lru_cleanExpired :
  exists c0 : LRU.t string unit,
    LRU.new (LRU.mkOptions 10 (Some 1000) None) = inr c0 /\
    let c2 := fst (LRU.run c0 tt [(0, LRU.CSet "key1" "value1");
                                   (500, LRU.CSet "key2" "value2")]) in
    let r := LRU.cleanExpired c2 1100 in
    fst r = 1 /\
    fst (LRU.has (snd r) "key1" 1100) = false /\
    fst (LRU.has (snd r) "key2" 1100) = true.
Proof. eexists. split; [reflexivity|]. vm_compute. repeat split. Qed.

(** [lru-cache.test.ts], "should calculate hit rate correctly" and "should
    return 0 hit rate when no accesses". *)
Example test_lru_hitRate :
  exists c0 : LRU.t string unit,
    LRU.new (LRU.mkOptions 10 None None) = inr c0 /\
    LRU.st_hitRate (LRU.getStats c0) = 0%Q /\
    LRU.st_hitRate
      (LRU.getStats
         (fst (LRU.run c0 tt [(0, LRU.CSet "key" "value"); (1, LRU.CGet "key");
                              (2, LRU.CGet "key"); (3, LRU.CGet "key");
                              (4, LRU.CGet "key"); (5, LRU.CGet "missing")])))
    = (4 # 5)%Q.
Proof. eexists. split; [reflexivity|]. vm_compute. split; reflexivity. Qed.

(** [lru-cache.test.ts], "should handle maxSize of 1" and "should throw
    error for invalid maxSize". *)
Example test_lru_edge :
  LRU.new (LRU.mkOptions 0 None None : LRU.Options Z unit)
    = inl "maxSize must be at least 1" /\
  LRU.new (LRU.mkOptions (-1) None None : LRU.Options Z unit)
    = inl "maxSize must be at least 1" /\
  exists c0 : LRU.t Z unit,
    LRU.new (LRU.mkOptions 1 None None) = inr c0 /\
    let c2 := fst (LRU.run c0 tt [(0, LRU.CSet "a" 1); (1, LRU.CSet "b" 2)]) in
    fst (LRU.get c2 "a" 2) = None /\ fst (LRU.get c2 "b" 2) = Some 2.
Proof.
  split; [reflexivity|]. split; [reflexivity|].
  eexists. split; [reflexivity|]. vm_compute. split; reflexivity.
Qed.

(** [query-cache.test.ts], "should refresh TTL on access when configured". *)
Example test_qc_refresh :
  exists q0 : QueryCache.t string,
    QueryCache.new (QueryCache.mkOptions 10 100 (Some true)) = inr q0 /\
    let q1 := QueryCache.set q0 "key1" (Some "value1") 0 in
    let r2 := QueryCache.get q1 "key1" 50 in
    let r3 := QueryCache.get (snd r2) "key1" 110 in
    fst r2 = Some "value1" /\ fst r3 = Some "value1".
Proof. eexists. split; [reflexivity|]. vm_compute. split; reflexivity. Qed.

(** [query-cache.test.ts], "should compute and cache value on miss". *)
Example test_qc_getOrCompute :
  let computeFn (calls : nat) : (string + option Z) * nat :=
    (inr (Some 42), S calls) in
  let r1 := QueryCache.getOrCompute QC_fresh "key1" computeFn 0 1 0%nat in
  let r2 := QueryCache.getOrCompute (snd (fst r1)) "key1" computeFn 2 3
              (snd r1) in
  fst (fst r1) = inr (Some 42) /\ fst (fst r2) = inr (Some 42) /\
  snd r2 = 1%nat.
Proof. vm_compute. repeat split. Qed.

(** [statement-cache.test.ts], "should report hit rate correctly". *)
Example test_sc_hit_rate :
  let sql1 := "SELECT * FROM users WHERE id = ?" in
  let sql2 := "SELECT * FROM posts WHERE id = ?" in
  let r1 := StatementCache.prepare (SC_fresh SC_echo 10) sql1 0 0%nat in
  let r2 := StatementCache.prepare (snd (fst r1)) sql1 1 (snd r1) in
  let r3 := StatementCache.prepare (snd (fst r2)) sql2 2 (snd r2) in
  let r4 := StatementCache.prepare (snd (fst r3)) sql1 3 (snd r3) in
  let r5 := StatementCache.prepare (snd (fst r4)) sql2 4 (snd r4) in
  let stats := StatementCache.getStats (snd (fst r5)) in
  StatementCache.st_hits stats = 3 /\
  StatementCache.st_misses stats = 2 /\
  StatementCache.st_hitRate stats = (3 # 5)%Q /\
  snd r5 = 2%nat.
Proof. vm_compute. repeat split. Qed.

(** [statement-cache.test.ts], "should evict least recently used statements
    when at capacity". *)
Example test_sc_eviction :
  let r1 := StatementCache.prepare (SC_fresh SC_echo 3) "SELECT 1" 0 0%nat in
  let r2 := StatementCache.prepare (snd (fst r1)) "SELECT 2" 1 (snd r1) in
  let r3 := StatementCache.prepare (snd (fst r2)) "SELECT 3" 2 (snd r2) in
  let r4 := StatementCache.prepare (snd (fst r3)) "SELECT 1" 3 (snd r3) in
  let r5 := StatementCache.prepare (snd (fst r4)) "SELECT 4" 4 (snd r4) in
  let r6 := StatementCache.prepare (snd (fst r5)) "SELECT 2" 5 (snd r5) in
  snd r3 = 3%nat /\ snd r4 = 3%nat /\ snd r5 = 4%nat /\ snd r6 = 5%nat.
Proof. vm_compute. repeat split. Qed.

(** [statement-cache.test.ts], "should not cache statements that fail to
    prepare". *)
Example test_sc_retry :
  let r1 := StatementCache.prepare (SC_fresh SC_flaky 10) "SELECT 1" 0 0%nat in
  let r2 := StatementCache.prepare (snd (fst r1)) "SELECT 1" 1 (snd r1) in
  fst (fst r1) = inl "SQL syntax error" /\
  fst (fst r2) = inr "SELECT 1" /\
  snd r2 = 2%nat /\
  StatementCache.misses (snd (fst r2)) = 2.
Proof. vm_compute. repeat split. Qed.

(** [statement-cache.test.ts], "should trim SQL strings" and "should
    normalize whitespace in SQL". *)
Example test_sc_normalize :
  StatementCache.normalizeSQL "  SELECT * FROM users  " = "SELECT * FROM users" /\
  StatementCache.normalizeSQL "SELECT  *  FROM  users  WHERE  id = ?" =
    "SELECT * FROM users WHERE id = ?" /\
  StatementCache.normalizeSQL SC_two_lines = "SELECT * FROM t".
Proof. vm_compute. repeat split. Qed.

(** [query-cache.test.ts], "should generate different keys for different
    parameters" and "should handle parameter order consistently". *)
Example test_key_generation :
  KeyBuilder.generateCacheKey "query" [("path", JSON.Str "/test1")] <>
  KeyBuilder.generateCacheKey "query" [("path", JSON.Str "/test2")] /\
  KeyBuilder.generateCacheKey "query" [("a", JSON.Int 1); ("b", JSON.Int 2)] =
  KeyBuilder.generateCacheKey "query" [("b", JSON.Int 2); ("a", JSON.Int 1)].
Proof. split; [vm_compute; discriminate | reflexivity]. Qed.

End RepositoryTests.


(** ** The ordered map *)

Section JsMapFacts.
Context {V : Type}.
Implicit Types (m : JsMap.t V) (k key : string) (v : V).

Lemma JsMap_has_get key m :
  JsMap.has key m = true <-> exists v, JsMap.get key m = Some v.
Proof.
  unfold JsMap.has. destruct (JsMap.get key m) as [v|].
  - split; eauto.
  - split; [discriminate | intros [v Hv]; discriminate].
Qed.

Lemma JsMap_has_false key m :
  JsMap.has key m = false <-> JsMap.get key m = None.
Proof.
  unfold JsMap.has. destruct (JsMap.get key m); split; congruence.
Qed.

Lemma JsMap_get_In key m :
  JsMap.get key m = None <-> ~ In key (JsMap.keys m).
Proof.
  induction m as [|[k v] m IH]; simpl.
  - tauto.
  - destruct (String.eqb_spec k key) as [->|Hne].
    + split; [discriminate | intros H; exfalso; apply H; now left].
    + rewrite IH. split.
      * intros H [Heq|Hin]; [congruence | tauto].
      * intros H Hin. apply H. now right.
Qed.

Lemma JsMap_get_delete_eq key m : JsMap.get key (JsMap.delete key m) = None.
Proof.
  induction m as [|[k v] m IH]; simpl; [reflexivity|].
  destruct (String.eqb_spec k key) as [->|Hne]; simpl; [exact IH|].
  destruct (String.eqb_spec k key); [contradiction | exact IH].
Qed.

Lemma JsMap_get_delete_ne key k m :
  k <> key -> JsMap.get k (JsMap.delete key m) = JsMap.get k m.
Proof.
  intros Hne. induction m as [|[k' v] m IH]; simpl; [reflexivity|].
  destruct (String.eqb_spec k' key) as [->|Hne']; simpl.
  - destruct (String.eqb_spec key k); [congruence | exact IH].
  - now rewrite IH.
Qed.

Lemma JsMap_delete_absent key m :
  JsMap.get key m = None -> JsMap.delete key m = m.
Proof.
  induction m as [|[k v] m IH]; simpl; [reflexivity|].
  destruct (String.eqb_spec k key) as [->|Hne]; simpl; [discriminate|].
  intros H. now rewrite IH.
Qed.

Lemma JsMap_set_absent key v m :
  JsMap.get key m = None -> JsMap.set key v m = m ++ [(key, v)].
Proof.
  induction m as [|[k v'] m IH]; simpl; [reflexivity|].
  destruct (String.eqb_spec k key) as [->|Hne]; [discriminate|].
  intros H. now rewrite IH.
Qed.

Lemma JsMap_get_app_last key k v m :
  JsMap.get k (m ++ [(key, v)]) =
  match JsMap.get k m with
  | Some x => Some x
  | None => if String.eqb key k then Some v else None
  end.
Proof.
  induction m as [|[k' v'] m IH]; simpl; [reflexivity|].
  destruct (String.eqb k' k); [reflexivity | exact IH].
Qed.

Lemma JsMap_keys_delete key m :
  JsMap.keys (JsMap.delete key m) =
  filter (fun k => negb (String.eqb k key)) (JsMap.keys m).
Proof.
  induction m as [|[k v] m IH]; simpl; [reflexivity|].
  destruct (String.eqb k key); simpl; now rewrite <- IH.
Qed.

Lemma JsMap_wf_delete key m : JsMap.wf m -> JsMap.wf (JsMap.delete key m).
Proof.
  unfold JsMap.wf. rewrite JsMap_keys_delete. apply NoDup_filter.
Qed.

Lemma JsMap_wf_add key v m :
  JsMap.wf m -> JsMap.get key m = None -> JsMap.wf (m ++ [(key, v)]).
Proof.
  unfold JsMap.wf, JsMap.keys. intros Hm Hk. rewrite map_app. simpl.
  apply NoDup_app; [exact Hm | repeat constructor; simpl; tauto |].
  intros x Hx [<-|[]]. apply JsMap_get_In in Hk. exact (Hk Hx).
Qed.

Lemma JsMap_length_delete_le key m :
  (List.length (JsMap.delete key m) <= List.length m)%nat.
Proof. apply filter_length_le. Qed.

Lemma JsMap_length_delete_lt key m v :
  JsMap.get key m = Some v ->
  (List.length (JsMap.delete key m) < List.length m)%nat.
Proof.
  unfold JsMap.delete.
  induction m as [|[k v'] m IH]; simpl; [discriminate|].
  destruct (String.eqb k key); simpl.
  - intros _.
    pose proof (filter_length_le (fun kv => negb (String.eqb (fst kv) key)) m).
    lia.
  - intros H. apply IH in H. lia.
Qed.

Lemma JsMap_delete_head k v m :
  JsMap.wf ((k, v) :: m) -> JsMap.delete k ((k, v) :: m) = m.
Proof.
  unfold JsMap.wf. simpl. intros Hnd. inversion Hnd as [|? ? Hnotin Hrest].
  subst. rewrite String.eqb_refl. simpl.
  apply JsMap_delete_absent, JsMap_get_In, Hnotin.
Qed.

End JsMapFacts.

(** ** The bounded ordered cache *)

Section LRUFacts.
Context {T W : Type}.
Implicit Types (c : LRU.t T W) (w : W) (key : string) (v : T) (now : Z).

Lemma LRU_new_ok (options : LRU.Options T W) :
  1 <= LRU.opt_maxSize options ->
  exists c, LRU.new options = inr c /\ LRU.cache c = [] /\
            LRU.maxSize c = LRU.opt_maxSize options /\
            LRU.maxAge c = LRU.opt_maxAge options /\
            LRU.onEvict c = LRU.opt_onEvict options /\
            LRU.hits c = 0 /\ LRU.misses c = 0.
Proof.
  intros H. unfold LRU.new.
  destruct (Z.ltb_spec (LRU.opt_maxSize options) 1); [lia|].
  eexists. split; [reflexivity|]. simpl. repeat split.
Qed.

Lemma LRU_new_inv (options : LRU.Options T W) c :
  LRU.new options = inr c -> LRU_inv c.
Proof.
  unfold LRU.new.
  destruct (Z.ltb_spec (LRU.opt_maxSize options) 1); [discriminate|].
  intros [= <-]. unfold LRU_inv, LRU.size, JsMap.size, JsMap.wf. simpl.
  repeat split; [constructor | lia | lia].
Qed.

(** A map with a binding for [key], re-inserted at the end. *)
Lemma LRU_promote_shape key (e e' : LRU.CacheEntry T) (m : JsMap.t (LRU.CacheEntry T)) :
  JsMap.set key e' (JsMap.delete key m) = JsMap.delete key m ++ [(key, e')].
Proof. apply JsMap_set_absent, JsMap_get_delete_eq. Qed.

Lemma LRU_promote_wf key (e' : LRU.CacheEntry T) (m : JsMap.t (LRU.CacheEntry T)) :
  JsMap.wf m -> JsMap.wf (JsMap.set key e' (JsMap.delete key m)).
Proof.
  intros Hm. rewrite (LRU_promote_shape key e' e').
  apply JsMap_wf_add; [now apply JsMap_wf_delete | apply JsMap_get_delete_eq].
Qed.

Lemma LRU_promote_size key (e e' : LRU.CacheEntry T) (m : JsMap.t (LRU.CacheEntry T)) :
  JsMap.get key m = Some e ->
  JsMap.size (JsMap.set key e' (JsMap.delete key m)) <= JsMap.size m.
Proof.
  intros Hk. rewrite (LRU_promote_shape key e' e'). unfold JsMap.size.
  rewrite length_app. simpl.
  pose proof (JsMap_length_delete_lt key m e Hk). lia.
Qed.

Lemma LRU_get_inv c key now :
  LRU_inv c -> LRU_inv (snd (LRU.get c key now)).
Proof.
  intros (Hwf & Hcap & Hsize). unfold LRU.get.
  destruct (JsMap.get key (LRU.cache c)) as [e|] eqn:Hk.
  - destruct (LRU.isExpired c e now); unfold LRU_inv, LRU.size in *; simpl.
    + repeat split; [now apply JsMap_wf_delete | lia |].
      pose proof (JsMap_length_delete_le key (LRU.cache c)).
      unfold JsMap.size in *. lia.
    + repeat split; [now apply LRU_promote_wf | lia |].
      pose proof (LRU_promote_size key e e (LRU.cache c) Hk). lia.
  - unfold LRU_inv, LRU.size in *; simpl. tauto.
Qed.

(** The map that [make_room] leaves has no binding for the key and room
    for one more. *)
Lemma LRU_make_room_spec c key w :
  LRU_inv c ->
  let m := fst (LRU.make_room c key w) in
  JsMap.wf m /\ JsMap.get key m = None /\ JsMap.size m + 1 <= LRU.maxSize c.
Proof.
  intros (Hwf & Hcap & Hsize). unfold LRU.make_room, LRU.size in *.
  destruct (JsMap.has key (LRU.cache c)) eqn:Hhas.
  - apply JsMap_has_get in Hhas. destruct Hhas as [e He]. simpl.
    split; [now apply JsMap_wf_delete|]. split; [apply JsMap_get_delete_eq|].
    pose proof (JsMap_length_delete_lt key _ e He). unfold JsMap.size in *. lia.
  - apply JsMap_has_false in Hhas.
    destruct (Z.geb_spec (JsMap.size (LRU.cache c)) (LRU.maxSize c)) as [Hfull|Hroom].
    + destruct (LRU.cache c) as [|[k0 e0] rest] eqn:Hm.
      * unfold JsMap.size in Hfull. simpl in Hfull. lia.
      * assert (Hne : k0 <> key).
        { intros ->. simpl in Hhas. rewrite String.eqb_refl in Hhas. discriminate. }
        assert (Hdel : JsMap.delete k0 ((k0, e0) :: rest) = rest)
          by now apply JsMap_delete_head.
        assert (Hgoal : JsMap.wf rest /\ JsMap.get key rest = None /\
                        JsMap.size rest + 1 <= LRU.maxSize c).
        { split; [now inversion Hwf|]. split.
          - simpl in Hhas. destruct (String.eqb_spec k0 key); [contradiction | exact Hhas].
          - unfold JsMap.size in *. simpl in Hsize. lia. }
        cbn [JsMap.first_key]. cbv zeta. rewrite Hdel.
        destruct (LRU.onEvict c), (JsMap.get k0 ((k0, e0) :: rest)); exact Hgoal.
    + simpl. repeat split; [exact Hwf | exact Hhas | lia].
Qed.

Lemma LRU_set_inv c key v now w :
  LRU_inv c -> LRU_inv (fst (LRU.set c key v now w)).
Proof.
  intros Hinv. pose proof (LRU_make_room_spec c key w Hinv) as Hroom.
  destruct Hinv as (Hwf & Hcap & Hsize). unfold LRU.set.
  destruct (LRU.make_room c key w) as [m w']. simpl in *.
  destruct Hroom as (Hm & Hk & Hlen).
  unfold LRU_inv, LRU.size. simpl. rewrite (JsMap_set_absent _ _ _ Hk).
  split; [now apply JsMap_wf_add|]. split; [exact Hcap|].
  unfold JsMap.size in *. rewrite length_app. simpl. lia.
Qed.

Lemma LRU_has_inv c key now :
  LRU_inv c -> LRU_inv (snd (LRU.has c key now)).
Proof.
  intros Hinv. unfold LRU.has.
  destruct (JsMap.get key (LRU.cache c)) as [e|]; [|exact Hinv].
  destruct (LRU.isExpired c e now); [|exact Hinv].
  destruct Hinv as (Hwf & Hcap & Hsize). unfold LRU_inv, LRU.size in *. simpl.
  repeat split; [now apply JsMap_wf_delete | exact Hcap |].
  pose proof (JsMap_length_delete_le key (LRU.cache c)). unfold JsMap.size in *. lia.
Qed.

Lemma LRU_delete_inv c key :
  LRU_inv c -> LRU_inv (snd (LRU.delete c key)).
Proof.
  intros (Hwf & Hcap & Hsize). unfold LRU_inv, LRU.size in *. simpl.
  repeat split; [now apply JsMap_wf_delete | exact Hcap |].
  pose proof (JsMap_length_delete_le key (LRU.cache c)). unfold JsMap.size in *. lia.
Qed.

Lemma LRU_clear_inv c : LRU_inv c -> LRU_inv (LRU.clear c).
Proof.
  intros (Hwf & Hcap & Hsize). unfold LRU_inv, LRU.size, JsMap.size, JsMap.wf. simpl.
  repeat split; [constructor | exact Hcap | lia].
Qed.

Lemma LRU_cleanLoop_inv age now (l m : JsMap.t (LRU.CacheEntry T)) (n : Z) :
  JsMap.wf m ->
  let r := fold_left
      (fun (st : Z * JsMap.t (LRU.CacheEntry T)) kv =>
         if now - LRU.timestamp (snd kv) >? age
         then (fst st + 1, JsMap.delete (fst kv) (snd st))
         else st) l (n, m) in
  JsMap.wf (snd r) /\ (List.length (snd r) <= List.length m)%nat.
Proof.
  revert m n. induction l as [|kv l IH]; intros m n Hwf; simpl.
  - split; [exact Hwf | lia].
  - destruct (now - LRU.timestamp (snd kv) >? age).
    + simpl. destruct (IH (JsMap.delete (fst kv) m) (n + 1)) as [H1 H2].
      { now apply JsMap_wf_delete. }
      split; [exact H1|].
      pose proof (JsMap_length_delete_le (fst kv) m). simpl in H2. lia.
    + apply IH, Hwf.
Qed.

Lemma LRU_cleanExpired_inv c now :
  LRU_inv c -> LRU_inv (snd (LRU.cleanExpired c now)).
Proof.
  intros Hinv. unfold LRU.cleanExpired.
  destruct (LRU.maxAge c) as [age|]; [|exact Hinv].
  destruct (age =? 0); [exact Hinv|].
  destruct Hinv as (Hwf & Hcap & Hsize).
  pose proof (LRU_cleanLoop_inv age now (LRU.cache c) (LRU.cache c) 0 Hwf) as Hloop.
  unfold LRU.cleanLoop.
  destruct (fold_left _ (LRU.cache c) (0, LRU.cache c)) as [cleaned m].
  simpl in *. destruct Hloop as [H1 H2].
  unfold LRU_inv, LRU.size, JsMap.size in *. simpl.
  repeat split; [exact H1 | exact Hcap | lia].
Qed.

Lemma LRU_step_inv c w now (op : LRU.call T) :
  LRU_inv c -> LRU_inv (fst (LRU.step c w now op)).
Proof.
  intros Hinv. destruct op; simpl.
  - now apply LRU_get_inv.
  - now apply LRU_set_inv.
  - now apply LRU_has_inv.
  - now apply LRU_delete_inv.
  - now apply LRU_clear_inv.
  - exact Hinv.
  - exact Hinv.
  - now apply LRU_cleanExpired_inv.
Qed.

Lemma LRU_step_config c w now (op : LRU.call T) :
  LRU_same_config c (fst (LRU.step c w now op)).
Proof.
  unfold LRU_same_config.
  destruct op; simpl; try (repeat split; reflexivity).
  - unfold LRU.get. destruct (JsMap.get key (LRU.cache c)) as [e|];
      [destruct (LRU.isExpired c e now)|]; repeat split.
  - unfold LRU.set. destruct (LRU.make_room c key w). repeat split.
  - unfold LRU.has. destruct (JsMap.get key (LRU.cache c)) as [e|];
      [destruct (LRU.isExpired c e now)|]; repeat split.
  - unfold LRU.cleanExpired. destruct (LRU.maxAge c) as [age|] eqn:Hage; [|repeat split; auto].
    destruct (age =? 0); [repeat split; auto|].
    destruct (LRU.cleanLoop age now (LRU.cache c)). simpl. repeat split; auto.
Qed.

Lemma LRU_run_inv (calls : list (Z * LRU.call T)) c w :
  LRU_inv c ->
  LRU_inv (fst (LRU.run c w calls)) /\
  LRU_same_config c (fst (LRU.run c w calls)).
Proof.
  revert c w. induction calls as [|[now op] calls IH]; intros c w Hinv; simpl.
  - split; [exact Hinv | repeat split].
  - pose proof (LRU_step_inv c w now op Hinv) as Hstep.
    pose proof (LRU_step_config c w now op) as Hcfg.
    destruct (LRU.step c w now op) as [c' w']. simpl in *.
    destruct (IH c' w' Hstep) as [H1 H2]. split; [exact H1|].
    unfold LRU_same_config in *. intuition congruence.
Qed.

(** Adding a new key to a full cache: the oldest binding goes, the others
    keep their order, the new one comes last. *)
Lemma LRU_set_full c key v now w :
  LRU_inv c -> LRU_evicting c key = true ->
  exists k0 e0 rest,
    LRU.cache c = (k0, e0) :: rest /\
    LRU.set c key v now w =
      (LRU.with_cache c (rest ++ [(key, LRU.mkEntry v now)]),
       match LRU.onEvict c with
       | Some callback => callback k0 (LRU.value e0) w
       | None => w
       end).
Proof.
  intros (Hwf & Hcap & Hsize) Hev. unfold LRU_evicting in Hev.
  apply andb_true_iff in Hev. destruct Hev as [Hnew Hfull].
  apply negb_true_iff in Hnew.
  unfold LRU.set, LRU.make_room. rewrite Hnew, Hfull.
  apply JsMap_has_false in Hnew.
  destruct (LRU.cache c) as [|[k0 e0] rest] eqn:Hm.
  - unfold JsMap.size in Hfull. simpl in Hfull.
    destruct (Z.geb_spec 0 (LRU.maxSize c)); [lia | discriminate].
  - exists k0, e0, rest. split; [reflexivity|].
    cbn [JsMap.first_key]. cbv zeta.
    rewrite (JsMap_delete_head k0 e0 rest Hwf).
    assert (Hget : JsMap.get k0 ((k0, e0) :: rest) = Some e0)
      by (simpl; now rewrite String.eqb_refl).
    rewrite Hget.
    assert (Hk : JsMap.get key rest = None).
    { simpl in Hnew. destruct (String.eqb k0 key); [discriminate | exact Hnew]. }
    destruct (LRU.onEvict c); rewrite (JsMap_set_absent _ _ _ Hk); reflexivity.
Qed.

(** Every other [set] leaves the state of the caller alone. *)
Lemma LRU_set_not_full c key v now w :
  LRU_evicting c key = false -> snd (LRU.set c key v now w) = w.
Proof.
  unfold LRU_evicting, LRU.set, LRU.make_room. intros Hev.
  destruct (JsMap.has key (LRU.cache c)); simpl in *; [reflexivity|].
  rewrite Hev. reflexivity.
Qed.

End LRUFacts.

(** What a call does to the state of the caller: only a [set] that adds a
    new key to a full cache reaches it, through one call of [onEvict] on
    the oldest binding. *)
Lemma LRU_step_caller_state {T W : Type} (c : LRU.t T W) (w : W) (now : Z)
    (op : LRU.call T) :
  LRU_inv c ->
  match op with
  | LRU.CSet key v =>
      if LRU_evicting c key then
        exists k0 e0 rest,
          LRU.cache c = (k0, e0) :: rest /\
          snd (LRU.step c w now op) =
            match LRU.onEvict c with
            | Some callback => callback k0 (LRU.value e0) w
            | None => w
            end
      else snd (LRU.step c w now op) = w
  | _ => snd (LRU.step c w now op) = w
  end.
Proof.
  intros Hinv. destruct op; try reflexivity.
  destruct (LRU_evicting c key) eqn:Hev.
  - destruct (LRU_set_full c key v now w Hinv Hev) as (k0 & e0 & rest & Hm & Hset).
    exists k0, e0, rest. split; [exact Hm|]. simpl. now rewrite Hset.
  - simpl. now apply LRU_set_not_full.
Qed.

Lemma LRU_run_recorded {T : Type} (calls : list (Z * LRU.call T))
    (c : LRU.t T (list (string * T))) (log : list (string * T)) :
  LRU_inv c -> LRU.onEvict c = Some LRU_record_eviction ->
  List.length (snd (LRU.run c log calls)) =
  (List.length log + LRU_capacity_evictions c log calls)%nat.
Proof.
  revert c log. induction calls as [|[now op] calls IH]; intros c log Hinv Hcb; simpl.
  - lia.
  - pose proof (LRU_step_inv c log now op Hinv) as Hinv'.
    pose proof (LRU_step_config c log now op) as (_ & _ & Hcb').
    pose proof (LRU_step_caller_state c log now op Hinv) as Hw.
    destruct (LRU.step c log now op) as [c' log'] eqn:Hstep. simpl in *.
    rewrite IH; [|exact Hinv' | congruence].
    destruct op; try (rewrite Hw; lia).
    destruct (LRU_evicting c key).
    + destruct Hw as (k0 & e0 & rest & _ & ->). rewrite Hcb.
      unfold LRU_record_eviction. rewrite length_app. simpl. lia.
    + rewrite Hw. lia.
Qed.

(** C1. Capacity invariant of the bounded ordered cache: a capacity of at
    least one constructs a cache, and after every sequence of calls of its
    methods the size is at most the capacity, which is the configured one;
    adding a new key to a full cache removes exactly one binding, the
    oldest, before the new one is added at the end, and the size stays at
    the capacity. *)
Theorem C1_capacity_invariant {T W : Type} (options : LRU.Options T W) :
  1 <= LRU.opt_maxSize options ->
  exists c0,
    LRU.new options = inr c0 /\
    forall (calls : list (Z * LRU.call T)) (w : W),
      let c := fst (LRU.run c0 w calls) in
      LRU.maxSize c = LRU.opt_maxSize options /\
      LRU.size c <= LRU.maxSize c /\
      forall key v now w',
        JsMap.has key (LRU.cache c) = false ->
        LRU.size c = LRU.maxSize c ->
        exists k0 e0 rest,
          LRU.cache c = (k0, e0) :: rest /\
          LRU.cache (fst (LRU.set c key v now w')) =
            rest ++ [(key, LRU.mkEntry v now)] /\
          LRU.size (fst (LRU.set c key v now w')) = LRU.maxSize c.
Proof.
  intros Hcap.
  destruct (LRU_new_ok options Hcap) as (c0 & Hnew & _ & Hmax & _).
  exists c0. split; [exact Hnew|]. intros calls w c.
  destruct (LRU_run_inv calls c0 w (LRU_new_inv options c0 Hnew))
    as [Hinv (Hmax' & _ & _)].
  fold c in Hinv, Hmax'. split; [congruence|].
  split; [apply Hinv|].
  intros key v now w' Hnewkey Hfull.
  assert (Hev : LRU_evicting c key = true).
  { unfold LRU_evicting. rewrite Hnewkey. simpl.
    unfold LRU.size in Hfull. rewrite Hfull. apply Z.geb_le. lia. }
  destruct (LRU_set_full c key v now w' Hinv Hev) as (k0 & e0 & rest & Hm & Hset).
  exists k0, e0, rest. split; [exact Hm|]. rewrite Hset. simpl.
  split; [reflexivity|].
  unfold LRU.size, JsMap.size in *. simpl. rewrite Hm in Hfull.
  rewrite length_app. simpl in *. lia.
Qed.

(** C1 at a cache of capacity 2, after six calls. *)
Lemma C1_capacity_invariant_witness :
  let options : LRU.Options Z unit := LRU.mkOptions 2 None None in
  1 <= LRU.opt_maxSize options /\
  exists c0,
    LRU.new options = inr c0 /\
    LRU.size (fst (LRU.run c0 tt
      [(10, LRU.CSet "a" 1); (11, LRU.CSet "b" 2); (12, LRU.CGet "a");
       (13, LRU.CSet "c" 3); (14, LRU.CDelete "zz"); (15, LRU.CSet "d" 4)]))
    <= 2.
Proof.
  assert (H : 1 <= LRU.opt_maxSize (LRU.mkOptions 2 None None : LRU.Options Z unit))
    by (simpl; lia).
  split; [exact H|].
  destruct (C1_capacity_invariant (LRU.mkOptions 2 None None) H)
    as (c0 & Hnew & Hrun).
  exists c0. split; [exact Hnew|].
  destruct (Hrun [(10, LRU.CSet "a" 1); (11, LRU.CSet "b" 2); (12, LRU.CGet "a");
       (13, LRU.CSet "c" 3); (14, LRU.CDelete "zz"); (15, LRU.CSet "d" 4)] tt)
    as (Hmax & Hsize & _).
  rewrite Hmax in Hsize. exact Hsize.
Defined.

Lemma LRU_get_hit {T W : Type} (c : LRU.t T W) key now (e : LRU.CacheEntry T) :
  JsMap.get key (LRU.cache c) = Some e ->
  LRU.isExpired c e now = false ->
  LRU.get c key now =
    (Some (LRU.value e),
     LRU.mk (JsMap.delete key (LRU.cache c) ++ [(key, e)]) (LRU.maxSize c)
            (LRU.maxAge c) (LRU.onEvict c) (LRU.hits c + 1) (LRU.misses c)).
Proof.
  intros Hk Hexp. unfold LRU.get. rewrite Hk, Hexp.
  now rewrite (LRU_promote_shape key e e).
Qed.

(** C2. Eviction follows recency. A successful [get] moves the binding to
    the most recently used end of the order, keeps the others in order and
    counts a hit; a [set] that adds a new key to a full cache removes the
    single binding at the least recently used end. With capacity 3, after
    [set a], [set b], [set c], [get a], [set d], the cache holds [c], [a],
    [d] in this order: [b] was evicted (and handed to [onEvict]), [has a]
    is true and [has b] is false. *)
Theorem C2_lru_eviction_order {T W : Type} :
  (forall (c : LRU.t T W) key now e,
      JsMap.get key (LRU.cache c) = Some e ->
      LRU.isExpired c e now = false ->
      fst (LRU.get c key now) = Some (LRU.value e) /\
      LRU.cache (snd (LRU.get c key now)) =
        JsMap.delete key (LRU.cache c) ++ [(key, e)] /\
      LRU.hits (snd (LRU.get c key now)) = LRU.hits c + 1) /\
  (forall (c : LRU.t T W) key v now w,
      LRU_inv c -> LRU_evicting c key = true ->
      exists k0 e0 rest,
        LRU.cache c = (k0, e0) :: rest /\
        LRU.cache (fst (LRU.set c key v now w)) =
          rest ++ [(key, LRU.mkEntry v now)]) /\
  (forall (va vb vc vd : T) (t1 t2 t3 t4 t5 t6 : Z)
          (callback : option (string -> T -> W -> W)) (w : W),
      exists c0,
        LRU.new (LRU.mkOptions 3 None callback) = inr c0 /\
        let c3 := fst (LRU.run c0 w [(t1, LRU.CSet "a" va);
                                      (t2, LRU.CSet "b" vb);
                                      (t3, LRU.CSet "c" vc)]) in
        let c5 := LRU.run c0 w [(t1, LRU.CSet "a" va);
                                 (t2, LRU.CSet "b" vb);
                                 (t3, LRU.CSet "c" vc);
                                 (t4, LRU.CGet "a");
                                 (t5, LRU.CSet "d" vd)] in
        fst (LRU.get c3 "a" t4) = Some va /\
        JsMap.keys (LRU.cache (fst c5)) = ["c"; "a"; "d"] /\
        fst (LRU.has (fst c5) "a" t6) = true /\
        fst (LRU.has (fst c5) "b" t6) = false /\
        fst (LRU.has (fst c5) "c" t6) = true /\
        snd c5 = match callback with
                 | Some f => f "b" vb w
                 | None => w
                 end).
Proof.
  split; [|split].
  - intros c key now e Hk Hexp. rewrite (LRU_get_hit c key now e Hk Hexp).
    simpl. repeat split.
  - intros c key v now w Hinv Hev.
    destruct (LRU_set_full c key v now w Hinv Hev) as (k0 & e0 & rest & Hm & Hset).
    exists k0, e0, rest. split; [exact Hm|]. now rewrite Hset.
  - intros va vb vc vd t1 t2 t3 t4 t5 t6 callback w.
    eexists. split; [reflexivity|].
    destruct callback as [f|]; cbn; repeat split.
Qed.

(** C5. [onEvict] is called for capacity evictions only. From a cache that
    satisfies its invariant, [get], [has], [delete], [clear], [getStats],
    [forEach] and [cleanExpired] leave the state of the caller as it is,
    also when they remove an expired entry, and so does a [set] on a key
    that is present (full cache or not) or that finds room; a [set] that
    adds a new key to a full cache calls [onEvict] once, on the oldest
    binding. Along a run, a callback that records its calls is called as
    many times as there are such [set]s. *)
Theorem C5_onEvict_only_capacity {T W : Type} (c : LRU.t T W) :
  LRU_inv c ->
  (forall (w : W) (now : Z) (op : LRU.call T),
      match op with
      | LRU.CSet key v =>
          if LRU_evicting c key then
            exists k0 e0 rest,
              LRU.cache c = (k0, e0) :: rest /\
              snd (LRU.step c w now op) =
                match LRU.onEvict c with
                | Some callback => callback k0 (LRU.value e0) w
                | None => w
                end
          else snd (LRU.step c w now op) = w
      | _ => snd (LRU.step c w now op) = w
      end) /\
  (forall key v now w,
      JsMap.has key (LRU.cache c) = true ->
      snd (LRU.set c key v now w) = w) /\
  (forall (c' : LRU.t T (list (string * T))) calls log,
      LRU_inv c' -> LRU.onEvict c' = Some LRU_record_eviction ->
      List.length (snd (LRU.run c' log calls)) =
      (List.length log + LRU_capacity_evictions c' log calls)%nat).
Proof.
  intros Hinv. split; [|split].
  - intros w now op. now apply LRU_step_caller_state.
  - intros key v now w Hhas. apply LRU_set_not_full.
    unfold LRU_evicting. now rewrite Hhas.
  - intros c' calls log Hinv' Hcb. now apply LRU_run_recorded.
Qed.

Lemma LRU_full_example_inv : LRU_inv LRU_full_example.
Proof.
  unfold LRU_inv, LRU_full_example, LRU.size, JsMap.size, JsMap.wf. simpl.
  repeat split; try lia.
  repeat constructor; simpl; intuition discriminate.
Qed.

(** C2 at a full cache of capacity 2: a [get] of the oldest key moves it
    to the end, and a [set] of a new key removes the oldest binding. *)
Lemma C2_lru_eviction_order_witness :
  JsMap.keys (LRU.cache (snd (LRU.get LRU_full_example "a" 10))) = ["b"; "a"] /\
  JsMap.keys (LRU.cache (fst (LRU.set LRU_full_example "z" 9 10 []))) =
    ["b"; "z"].
Proof.
  destruct (@C2_lru_eviction_order Z (list (string * Z))) as (Hget & Hset & _).
  destruct (Hget LRU_full_example "a" 10 (LRU.mkEntry 1 0) eq_refl eq_refl)
    as (_ & Hcache & _).
  destruct (Hset LRU_full_example "z" 9 10 [] LRU_full_example_inv eq_refl)
    as (k0 & e0 & rest & Hm & Hcache').
  split.
  - rewrite Hcache. reflexivity.
  - rewrite Hcache'. injection Hm as <- <- <-. reflexivity.
Defined.

(** C5 at a full cache of capacity 2 whose callback records its calls:
    of seven calls, among them an update of a present key, a [delete], a
    [get] that finds an expired entry and a [clear], one is recorded. *)
Lemma C5_onEvict_only_capacity_witness :
  snd (LRU.run LRU_full_example []
         [(10, LRU.CSet "a" 7); (11, LRU.CDelete "b"); (12, LRU.CSet "c" 3);
          (200, LRU.CGet "a"); (201, LRU.CSet "d" 4); (202, LRU.CSet "e" 5);
          (203, LRU.CClear)])
  = [("c", 3)] /\
  snd (LRU.step LRU_full_example [] 10 (LRU.CSet "a" 7)) = [] /\
  snd (LRU.step LRU_full_example [] 10 (LRU.CSet "z" 7)) = [("a", 1)].
Proof.
  destruct (C5_onEvict_only_capacity LRU_full_example LRU_full_example_inv)
    as (Hstep & Hupdate & Hrun).
  split; [reflexivity|]. split.
  - apply Hupdate. reflexivity.
  - destruct (Hstep [] 10 (LRU.CSet "z" 7)) as (k0 & e0 & rest & Hm & Hw).
    rewrite Hw. injection Hm as <- <- <-. reflexivity.
Defined.

(** ** The query result cache *)

Section QueryCacheFacts.
Context {V : Type}.
Implicit Types (q : QueryCache.t V) (key : string) (now : Z).

Lemma QC_new_ok (options : QueryCache.Options) :
  1 <= QueryCache.opt_maxSize options ->
  exists q, QueryCache.new options = inr q /\ QC_inv q /\ QC_store q = [] /\
            QueryCache.ttlMs q = QueryCache.opt_ttlMs options /\
            QueryCache.hits q = 0 /\ QueryCache.misses q = 0 /\
            QueryCache.expirations q = 0 /\ QueryCache.evictions q = 0.
Proof.
  intros H. unfold QueryCache.new, LRU.new. simpl.
  destruct (Z.ltb_spec (QueryCache.opt_maxSize options) 1); [lia|].
  eexists. split; [reflexivity|].
  unfold QC_inv, LRU_inv, QC_store, LRU.size, JsMap.size, JsMap.wf. simpl.
  repeat split; try lia. constructor.
Qed.

Lemma QC_inner_not_expired q e now :
  LRU.maxAge (QueryCache.cache q) = None ->
  LRU.isExpired (QueryCache.cache q) e now = false.
Proof. intros H. unfold LRU.isExpired. now rewrite H. Qed.

Lemma JsMap_delete_app_last {A : Type} key (e : A) (m : JsMap.t A) :
  JsMap.delete key (m ++ [(key, e)]) = JsMap.delete key m.
Proof.
  unfold JsMap.delete. rewrite filter_app. simpl.
  rewrite String.eqb_refl. simpl. apply app_nil_r.
Qed.

Lemma JsMap_delete_twice {A : Type} key (m : JsMap.t A) :
  JsMap.delete key (JsMap.delete key m) = JsMap.delete key m.
Proof. apply JsMap_delete_absent, JsMap_get_delete_eq. Qed.

(** [get] on a key without a binding. *)
Lemma QC_get_absent q key now :
  JsMap.get key (QC_store q) = None ->
  QueryCache.get q key now =
    (None,
     QueryCache.mk
       (LRU.mk (QC_store q) (LRU.maxSize (QueryCache.cache q))
               (LRU.maxAge (QueryCache.cache q))
               (LRU.onEvict (QueryCache.cache q))
               (LRU.hits (QueryCache.cache q))
               (LRU.misses (QueryCache.cache q) + 1))
       (QueryCache.ttlMs q) (QueryCache.refreshOnAccess q)
       (QueryCache.hits q) (QueryCache.misses q + 1)
       (QueryCache.expirations q) (QueryCache.evictions q)).
Proof.
  unfold QC_store, QueryCache.get, LRU.get. intros ->. reflexivity.
Qed.

(** [get] on a key whose entry is past its expiry. *)
Lemma QC_get_expired q key now e :
  LRU.maxAge (QueryCache.cache q) = None ->
  JsMap.get key (QC_store q) = Some e ->
  (QueryCache.ttlMs q >? 0) &&
    QueryCache.isPast now (QueryCache.expiresAt (LRU.value e)) = true ->
  QueryCache.get q key now =
    (None,
     QueryCache.mk
       (LRU.mk (JsMap.delete key (QC_store q))
               (LRU.maxSize (QueryCache.cache q)) None
               (LRU.onEvict (QueryCache.cache q))
               (LRU.hits (QueryCache.cache q) + 1)
               (LRU.misses (QueryCache.cache q)))
       (QueryCache.ttlMs q) (QueryCache.refreshOnAccess q)
       (QueryCache.hits q) (QueryCache.misses q + 1)
       (QueryCache.expirations q + 1) (QueryCache.evictions q)).
Proof.
  unfold QC_store. intros Hage Hk Hpast. unfold QueryCache.get.
  rewrite (LRU_get_hit _ key now e Hk (QC_inner_not_expired q e now Hage)).
  rewrite Hpast. unfold LRU.delete, LRU.with_cache. simpl.
  rewrite JsMap_delete_app_last, JsMap_delete_twice, Hage. reflexivity.
Qed.

(** [get] on a key whose entry is valid. *)
Lemma QC_get_valid q key now e :
  LRU.maxAge (QueryCache.cache q) = None ->
  JsMap.get key (QC_store q) = Some e ->
  (QueryCache.ttlMs q >? 0) &&
    QueryCache.isPast now (QueryCache.expiresAt (LRU.value e)) = false ->
  QueryCache.get q key now =
    (QueryCache.value (LRU.value e),
     let c := LRU.mk (JsMap.delete key (QC_store q) ++ [(key, e)])
                     (LRU.maxSize (QueryCache.cache q)) None
                     (LRU.onEvict (QueryCache.cache q))
                     (LRU.hits (QueryCache.cache q) + 1)
                     (LRU.misses (QueryCache.cache q)) in
     QueryCache.mk
       (if QueryCache.refreshOnAccess q && (QueryCache.ttlMs q >? 0)
        then QueryCache.writeExpiresAt c key
               (QueryCache.At (now + QueryCache.ttlMs q))
        else c)
       (QueryCache.ttlMs q) (QueryCache.refreshOnAccess q)
       (QueryCache.hits q + 1) (QueryCache.misses q)
       (QueryCache.expirations q) (QueryCache.evictions q)).
Proof.
  unfold QC_store. intros Hage Hk Hpast. unfold QueryCache.get.
  rewrite (LRU_get_hit _ key now e Hk (QC_inner_not_expired q e now Hage)).
  rewrite Hpast, Hage. reflexivity.
Qed.

End QueryCacheFacts.


Lemma JsMap_get_set_eq {A : Type} key (v : A) (m : JsMap.t A) :
  JsMap.get key (JsMap.set key v m) = Some v.
Proof.
  induction m as [|[k v'] m IH]; simpl.
  - now rewrite String.eqb_refl.
  - destruct (String.eqb k key) eqn:Hk; simpl; rewrite Hk; [reflexivity | exact IH].
Qed.

Section QueryCacheSet.
Context {V : Type}.
Implicit Types (q : QueryCache.t V) (key : string) (now : Z).

Lemma QC_set_fields q key v now :
  let q' := QueryCache.set q key v now in
  JsMap.get key (QC_store q') = Some (QC_new_entry q v now) /\
  QueryCache.ttlMs q' = QueryCache.ttlMs q /\
  QueryCache.refreshOnAccess q' = QueryCache.refreshOnAccess q /\
  QueryCache.hits q' = QueryCache.hits q /\
  QueryCache.misses q' = QueryCache.misses q /\
  QueryCache.expirations q' = QueryCache.expirations q /\
  QueryCache.evictions q' =
    snd (LRU.make_room (QueryCache.cache q) key (QueryCache.evictions q)).
Proof.
  unfold QueryCache.set, LRU.set, QC_store, QC_new_entry.
  destruct (LRU.make_room (QueryCache.cache q) key (QueryCache.evictions q))
    as [m ev]. simpl.
  split; [apply JsMap_get_set_eq | repeat split].
Qed.

Lemma QC_set_evictions q key v now :
  QC_inv q ->
  QueryCache.evictions (QueryCache.set q key v now) =
    if LRU_evicting (QueryCache.cache q) key
    then QueryCache.evictions q + 1
    else QueryCache.evictions q.
Proof.
  intros (Hinv & _ & Hcb).
  destruct (QC_set_fields q key v now) as (_ & _ & _ & _ & _ & _ & ->).
  pose (entry := QueryCache.mkEntry v QueryCache.Never).
  destruct (LRU_evicting (QueryCache.cache q) key) eqn:Hev.
  - destruct (LRU_set_full (QueryCache.cache q) key entry now
                (QueryCache.evictions q) Hinv Hev)
      as (k0 & e0 & rest & _ & Hset).
    apply (f_equal snd) in Hset. unfold LRU.set in Hset.
    destruct (LRU.make_room _ key _) as [m ev]. simpl in *.
    rewrite Hset, Hcb. reflexivity.
  - pose proof (LRU_set_not_full (QueryCache.cache q) key entry now
                  (QueryCache.evictions q) Hev) as Hset.
    unfold LRU.set in Hset.
    destruct (LRU.make_room _ key _) as [m ev]. exact Hset.
Qed.

Lemma QC_set_inv q key v now : QC_inv q -> QC_inv (QueryCache.set q key v now).
Proof.
  intros (Hinv & Hage & Hcb). unfold QC_inv, QueryCache.set.
  pose proof (LRU_set_inv (QueryCache.cache q) key
                (QueryCache.mkEntry v
                   (if QueryCache.ttlMs q >? 0
                    then QueryCache.At (now + QueryCache.ttlMs q)
                    else QueryCache.Never))
                now (QueryCache.evictions q) Hinv) as Hinv'.
  unfold LRU.set in *.
  destruct (LRU.make_room (QueryCache.cache q) key (QueryCache.evictions q))
    as [m ev]. simpl in *. repeat split; try apply Hinv'; assumption.
Qed.

End QueryCacheSet.

(** C3. Expiry in the query result cache. With [ttlMs > 0], a [get] at a
    time past the [expiresAt] of the entry returns [undefined], deletes the
    entry and nothing else, adds one to [expirations] and to [misses], and
    leaves [hits] and [evictions]; a [get] at a time not past it returns
    the stored value and counts a hit. [set] stamps the entry with
    [now + ttlMs]; it never touches [expirations], and it adds one to
    [evictions] exactly when it adds a new key to a full cache. With
    [ttlMs = 50]: after [set k v] at time [t], [get k] at [t] returns [v],
    and [get k] at [t + 100] returns [undefined] with [expirations] one
    higher. *)
Theorem C3_ttl_expiry {V : Type} :
  (forall (q : QueryCache.t V) key now e time,
      LRU.maxAge (QueryCache.cache q) = None ->
      QueryCache.ttlMs q > 0 ->
      JsMap.get key (QC_store q) = Some e ->
      QueryCache.expiresAt (LRU.value e) = QueryCache.At time ->
      (now > time ->
       let q' := snd (QueryCache.get q key now) in
       fst (QueryCache.get q key now) = None /\
       QC_store q' = JsMap.delete key (QC_store q) /\
       JsMap.get key (QC_store q') = None /\
       QueryCache.expirations q' = QueryCache.expirations q + 1 /\
       QueryCache.misses q' = QueryCache.misses q + 1 /\
       QueryCache.hits q' = QueryCache.hits q /\
       QueryCache.evictions q' = QueryCache.evictions q) /\
      (now <= time ->
       let q' := snd (QueryCache.get q key now) in
       fst (QueryCache.get q key now) = QueryCache.value (LRU.value e) /\
       QueryCache.hits q' = QueryCache.hits q + 1 /\
       QueryCache.misses q' = QueryCache.misses q /\
       QueryCache.expirations q' = QueryCache.expirations q /\
       QueryCache.evictions q' = QueryCache.evictions q)) /\
  (forall (q : QueryCache.t V) key v now,
      QC_inv q -> QueryCache.ttlMs q > 0 ->
      let q' := QueryCache.set q key v now in
      JsMap.get key (QC_store q') =
        Some (LRU.mkEntry
                (QueryCache.mkEntry v (QueryCache.At (now + QueryCache.ttlMs q)))
                now) /\
      QueryCache.expirations q' = QueryCache.expirations q /\
      QueryCache.evictions q' =
        if LRU_evicting (QueryCache.cache q) key
        then QueryCache.evictions q + 1
        else QueryCache.evictions q) /\
  (forall (v : V) (t : Z),
      exists q0,
        QueryCache.new (QueryCache.mkOptions 10 50 None) = inr q0 /\
        let q1 := QueryCache.set q0 "k" (Some v) t in
        let q2 := snd (QueryCache.get q1 "k" t) in
        let q3 := snd (QueryCache.get q2 "k" (t + 100)) in
        fst (QueryCache.get q1 "k" t) = Some v /\
        fst (QueryCache.get q2 "k" (t + 100)) = None /\
        QueryCache.expirations q3 = QueryCache.expirations q2 + 1 /\
        QueryCache.evictions q3 = 0 /\
        QC_store q3 = []).
Proof.
  split; [|split].
  - intros q key now e time Hage Httl Hk Hexp. split.
    + intros Hnow.
      assert (Hpast : (QueryCache.ttlMs q >? 0) &&
                      QueryCache.isPast now (QueryCache.expiresAt (LRU.value e)) = true).
      { rewrite Hexp. simpl. apply andb_true_iff. split; apply Z.gtb_lt; lia. }
      rewrite (QC_get_expired q key now e Hage Hk Hpast). unfold QC_store. simpl.
      repeat split. apply JsMap_get_delete_eq.
    + intros Hnow.
      assert (Hpast : (QueryCache.ttlMs q >? 0) &&
                      QueryCache.isPast now (QueryCache.expiresAt (LRU.value e)) = false).
      { rewrite Hexp. simpl. apply andb_false_iff. right.
        destruct (Z.gtb_spec now time); [lia | reflexivity]. }
      rewrite (QC_get_valid q key now e Hage Hk Hpast). simpl. repeat split.
  - intros q key v now Hinv Httl q'.
    destruct (QC_set_fields q key v now) as (Hget & _ & _ & _ & _ & Hexp & _).
    fold q' in Hget, Hexp. split; [|split].
    + rewrite Hget. unfold QC_new_entry.
      destruct (Z.gtb_spec (QueryCache.ttlMs q) 0); [reflexivity | lia].
    + exact Hexp.
    + now apply QC_set_evictions.
  - intros v t. eexists. split; [reflexivity|].
    assert (H1 : (t >? t + 50) = false)
      by (destruct (Z.gtb_spec t (t + 50)); [lia | reflexivity]).
    assert (H2 : (t + 100 >? t + 50) = true) by (apply Z.gtb_lt; lia).
    cbn -[Z.add Z.gtb]. change (50 >? 0) with true.
    cbn -[Z.add Z.gtb]. rewrite H1.
    cbn -[Z.add Z.gtb]. change (50 >? 0) with true.
    cbn -[Z.add Z.gtb]. rewrite H2.
    cbn -[Z.add Z.gtb]. repeat split.
Qed.

(** C3 at a cache whose key [k], stored at time 0 with [ttlMs = 50], is
    read at time 100. *)
Lemma C3_ttl_expiry_witness :
  fst (QueryCache.get QC_stale_example "k" 100) = None /\
  QueryCache.expirations (snd (QueryCache.get QC_stale_example "k" 100)) = 1 /\
  fst (QueryCache.get QC_stale_example "k" 50) = Some 7.
Proof.
  destruct (@C3_ttl_expiry Z) as (Hget & _ & _).
  destruct (Hget QC_stale_example "k" 100
              (LRU.mkEntry (QueryCache.mkEntry (Some 7) (QueryCache.At 50)) 0)
              50 eq_refl eq_refl eq_refl eq_refl) as [Hlate _].
  destruct (Hget QC_stale_example "k" 50
              (LRU.mkEntry (QueryCache.mkEntry (Some 7) (QueryCache.At 50)) 0)
              50 eq_refl eq_refl eq_refl eq_refl) as [_ Hearly].
  destruct (Hlate eq_refl) as (Hnone & _ & _ & Hexp & _).
  destruct (Hearly (Z.le_refl 50)) as (Hval & _).
  split; [exact Hnone|]. split; [exact Hexp | exact Hval].
Defined.

Section QueryCacheCompute.
Context {V : Type}.
Implicit Types (q : QueryCache.t V) (key : string) (now : Z).

Lemma QC_store_writeExpiresAt (c : LRU.t (QueryCache.CacheEntry V) Z) key k x :
  JsMap.get k (LRU.cache (QueryCache.writeExpiresAt c key x)) =
  match JsMap.get k (LRU.cache c) with
  | Some e =>
      Some (if String.eqb k key
            then LRU.mkEntry
                   (QueryCache.mkEntry (QueryCache.value (LRU.value e)) x)
                   (LRU.timestamp e)
            else e)
  | None => None
  end.
Proof.
  unfold QueryCache.writeExpiresAt. simpl.
  induction (LRU.cache c) as [|[k' e'] m IH]; simpl; [reflexivity|].
  destruct (String.eqb_spec k' key) as [->|Hne]; simpl.
  - destruct (String.eqb_spec key k) as [->|Hne'].
    + now rewrite String.eqb_refl.
    + exact IH.
  - destruct (String.eqb_spec k' k) as [->|Hne'].
    + destruct (String.eqb_spec k key); [congruence | reflexivity].
    + exact IH.
Qed.

Lemma QC_keys_writeExpiresAt (c : LRU.t (QueryCache.CacheEntry V) Z) key x :
  JsMap.keys (LRU.cache (QueryCache.writeExpiresAt c key x)) =
  JsMap.keys (LRU.cache c).
Proof.
  unfold QueryCache.writeExpiresAt, JsMap.keys. simpl. rewrite map_map.
  apply map_ext. intros [k e]. simpl. now destruct (String.eqb k key).
Qed.

Lemma JsMap_keys_promote {A : Type} key (e e' : A) (m : JsMap.t A) :
  JsMap.get key m = Some e ->
  incl (JsMap.keys (JsMap.delete key m ++ [(key, e')])) (JsMap.keys m).
Proof.
  intros Hk x. unfold JsMap.keys. rewrite map_app, in_app_iff. simpl.
  intros [Hx | [<- | []]].
  - fold (JsMap.keys (JsMap.delete key m)) in Hx.
    rewrite JsMap_keys_delete in Hx. apply filter_In in Hx. apply Hx.
  - fold (JsMap.keys m).
    destruct (in_dec string_dec key (JsMap.keys m)) as [Hin|Hout]; [exact Hin|].
    apply JsMap_get_In in Hout. congruence.
Qed.

Lemma JsMap_keys_delete_incl {A : Type} key (m : JsMap.t A) :
  incl (JsMap.keys (JsMap.delete key m)) (JsMap.keys m).
Proof.
  intros x Hx. rewrite JsMap_keys_delete in Hx. apply filter_In in Hx. apply Hx.
Qed.

(** [get] adds no key. *)
Lemma QC_get_keys q key now :
  incl (JsMap.keys (QC_store (snd (QueryCache.get q key now))))
       (JsMap.keys (QC_store q)).
Proof.
  unfold QC_store, QueryCache.get, LRU.get.
  destruct (JsMap.get key (LRU.cache (QueryCache.cache q))) as [e|] eqn:Hk.
  - destruct (LRU.isExpired (QueryCache.cache q) e now).
    + simpl. apply JsMap_keys_delete_incl.
    + rewrite (LRU_promote_shape key e e).
      destruct ((QueryCache.ttlMs q >? 0) &&
                QueryCache.isPast now (QueryCache.expiresAt (LRU.value e))).
      * simpl. rewrite JsMap_delete_app_last, JsMap_delete_twice.
        apply JsMap_keys_delete_incl.
      * destruct (QueryCache.refreshOnAccess q && (QueryCache.ttlMs q >? 0)).
        -- cbn [snd QueryCache.cache]. rewrite QC_keys_writeExpiresAt. simpl.
           now apply JsMap_keys_promote with (e := e).
        -- simpl. now apply JsMap_keys_promote with (e := e).
  - simpl. apply incl_refl.
Qed.

(** A [get] that returns [undefined] leaves the key without a value. *)
Lemma QC_get_none_no_value q key now :
  fst (QueryCache.get q key now) = None ->
  QC_no_value (snd (QueryCache.get q key now)) key.
Proof.
  unfold QC_no_value, QC_store, QueryCache.get, LRU.get.
  destruct (JsMap.get key (LRU.cache (QueryCache.cache q))) as [e|] eqn:Hk.
  - destruct (LRU.isExpired (QueryCache.cache q) e now).
    + simpl. now rewrite JsMap_get_delete_eq.
    + rewrite (LRU_promote_shape key e e).
      destruct ((QueryCache.ttlMs q >? 0) &&
                QueryCache.isPast now (QueryCache.expiresAt (LRU.value e))).
      * simpl. now rewrite JsMap_delete_app_last, JsMap_delete_twice,
          JsMap_get_delete_eq.
      * cbn [fst snd QueryCache.cache]. intros Hv.
        assert (Hlast : JsMap.get key
                  (JsMap.delete key (LRU.cache (QueryCache.cache q)) ++ [(key, e)])
                = Some e).
        { rewrite JsMap_get_app_last, JsMap_get_delete_eq.
          now rewrite String.eqb_refl. }
        destruct (QueryCache.refreshOnAccess q && (QueryCache.ttlMs q >? 0)).
        -- rewrite QC_store_writeExpiresAt. cbn [LRU.cache]. rewrite Hlast.
           rewrite String.eqb_refl. exact Hv.
        -- cbn [LRU.cache]. rewrite Hlast. exact Hv.
  - simpl. now rewrite Hk.
Qed.

(** On a key without a value, [get] returns [undefined]. *)
Lemma QC_no_value_get q key now :
  QC_no_value q key -> fst (QueryCache.get q key now) = None.
Proof.
  unfold QC_no_value, QC_store, QueryCache.get, LRU.get.
  destruct (JsMap.get key (LRU.cache (QueryCache.cache q))) as [e|].
  - intros Hv. destruct (LRU.isExpired (QueryCache.cache q) e now); [reflexivity|].
    destruct ((QueryCache.ttlMs q >? 0) &&
              QueryCache.isPast now (QueryCache.expiresAt (LRU.value e)));
      [reflexivity | exact Hv].
  - reflexivity.
Qed.

(** When the lookup of [getOrCompute] returns [undefined], [computeFn] is
    called, once, and its outcome decides the rest. *)
Lemma QC_getOrCompute_miss {E W : Type} q key
    (f : W -> (E + option V) * W) now now' (w : W) :
  fst (QueryCache.get q key now) = None ->
  QueryCache.getOrCompute q key f now now' w =
    match f w with
    | (inl err, w1) => (inl err, snd (QueryCache.get q key now), w1)
    | (inr v, w1) =>
        (inr v, QueryCache.set (snd (QueryCache.get q key now)) key v now', w1)
    end.
Proof.
  unfold QueryCache.getOrCompute.
  destruct (QueryCache.get q key now) as [cached q1]. simpl. intros ->.
  destruct (f w) as [[err|v] w1]; reflexivity.
Qed.

End QueryCacheCompute.

(** *** The invariant of the query cache is kept *)

Section QueryCacheInvariant.
Context {V : Type}.
Implicit Types (q : QueryCache.t V) (key : string) (now : Z).

Lemma QC_writeExpiresAt_inv (c : LRU.t (QueryCache.CacheEntry V) Z) key x :
  LRU_inv c -> LRU_inv (QueryCache.writeExpiresAt c key x).
Proof.
  intros (Hwf & Hcap & Hsize). unfold LRU_inv, JsMap.wf.
  rewrite QC_keys_writeExpiresAt.
  unfold QueryCache.writeExpiresAt, LRU.size, JsMap.size in *. simpl.
  rewrite length_map. repeat split; assumption.
Qed.

Lemma QC_get_inv q key now : QC_inv q -> QC_inv (snd (QueryCache.get q key now)).
Proof.
  intros (Hinv & Hage & Hcb). unfold QC_inv, QueryCache.get.
  pose proof (LRU_get_inv (QueryCache.cache q) key now Hinv) as Hinv'.
  pose proof (LRU_step_config (QueryCache.cache q) 0 now (LRU.CGet key))
    as (_ & Hage' & Hcb').
  simpl in Hage', Hcb'.
  destruct (LRU.get (QueryCache.cache q) key now) as [[entry|] c]; simpl in *.
  - destruct ((QueryCache.ttlMs q >? 0) &&
              QueryCache.isPast now (QueryCache.expiresAt entry)); simpl.
    + split; [now apply (LRU_delete_inv c key)|]. split; congruence.
    + destruct (QueryCache.refreshOnAccess q && (QueryCache.ttlMs q >? 0)).
      * split; [now apply QC_writeExpiresAt_inv|]. simpl. split; congruence.
      * split; [exact Hinv'|]. split; congruence.
  - split; [exact Hinv'|]. split; congruence.
Qed.

(** Every cache that the constructor returns, and every cache that [get],
    [set] and [getOrCompute] make of it, satisfies the invariant. *)
Lemma QC_getOrCompute_inv {E W : Type} q key
    (f : W -> (E + option V) * W) now now' (w : W) :
  QC_inv q ->
  QC_inv (snd (fst (QueryCache.getOrCompute q key f now now' w))).
Proof.
  intros Hinv. pose proof (QC_get_inv q key now Hinv) as Hget.
  unfold QueryCache.getOrCompute.
  destruct (QueryCache.get q key now) as [[v|] q1]; simpl in *; [exact Hget|].
  destruct (f w) as [[err|v] w1]; simpl; [exact Hget|].
  now apply QC_set_inv.
Qed.

End QueryCacheInvariant.

Section QueryCacheReads.
Context {V : Type}.
Implicit Types (q : QueryCache.t V) (key : string) (now : Z).

(** What [get] returns, read off the binding of the key. *)
Lemma QC_get_result q key now :
  LRU.maxAge (QueryCache.cache q) = None ->
  fst (QueryCache.get q key now) =
  match JsMap.get key (QC_store q) with
  | None => None
  | Some e =>
      if (QueryCache.ttlMs q >? 0) &&
         QueryCache.isPast now (QueryCache.expiresAt (LRU.value e))
      then None
      else QueryCache.value (LRU.value e)
  end.
Proof.
  intros Hage. destruct (JsMap.get key (QC_store q)) as [e|] eqn:Hk.
  - destruct ((QueryCache.ttlMs q >? 0) &&
              QueryCache.isPast now (QueryCache.expiresAt (LRU.value e)))
      eqn:Hpast.
    + now rewrite (QC_get_expired q key now e Hage Hk Hpast).
    + now rewrite (QC_get_valid q key now e Hage Hk Hpast).
  - now rewrite (QC_get_absent q key now Hk).
Qed.

(** [get] leaves the bindings of the other keys, and the configuration. *)
Lemma QC_get_frame q key now k :
  k <> key ->
  JsMap.get k (QC_store (snd (QueryCache.get q key now))) =
  JsMap.get k (QC_store q).
Proof.
  intros Hne. unfold QC_store, QueryCache.get, LRU.get.
  destruct (JsMap.get key (LRU.cache (QueryCache.cache q))) as [e|] eqn:Hk.
  - destruct (LRU.isExpired (QueryCache.cache q) e now).
    + simpl. now apply JsMap_get_delete_ne.
    + rewrite (LRU_promote_shape key e e).
      assert (Hpromoted :
        JsMap.get k (JsMap.delete key (LRU.cache (QueryCache.cache q)) ++ [(key, e)])
        = JsMap.get k (LRU.cache (QueryCache.cache q))).
      { rewrite JsMap_get_app_last, (JsMap_get_delete_ne key k _ Hne).
        destruct (JsMap.get k (LRU.cache (QueryCache.cache q))); [reflexivity|].
        destruct (String.eqb_spec key k); [congruence | reflexivity]. }
      destruct ((QueryCache.ttlMs q >? 0) &&
                QueryCache.isPast now (QueryCache.expiresAt (LRU.value e))).
      * simpl. rewrite JsMap_delete_app_last, JsMap_delete_twice.
        now apply JsMap_get_delete_ne.
      * destruct (QueryCache.refreshOnAccess q && (QueryCache.ttlMs q >? 0)).
        -- cbn [snd QueryCache.cache]. rewrite QC_store_writeExpiresAt.
           cbn [LRU.cache]. rewrite Hpromoted.
           destruct (JsMap.get k (LRU.cache (QueryCache.cache q))); [|reflexivity].
           destruct (String.eqb_spec k key); [contradiction | reflexivity].
        -- cbn [snd QueryCache.cache LRU.cache]. exact Hpromoted.
  - reflexivity.
Qed.

Lemma QC_get_config q key now :
  QueryCache.ttlMs (snd (QueryCache.get q key now)) = QueryCache.ttlMs q /\
  QueryCache.refreshOnAccess (snd (QueryCache.get q key now)) =
    QueryCache.refreshOnAccess q.
Proof.
  unfold QueryCache.get.
  destruct (LRU.get (QueryCache.cache q) key now) as [[entry|] c]; simpl.
  - destruct ((QueryCache.ttlMs q >? 0) &&
              QueryCache.isPast now (QueryCache.expiresAt entry)); simpl; tauto.
  - tauto.
Qed.

(** A [get] that returns [undefined] changes no read: every key reads,
    then or later, as it did. *)
Lemma QC_get_none_reads q key now k later :
  QC_inv q -> fst (QueryCache.get q key now) = None -> now <= later ->
  fst (QueryCache.get (snd (QueryCache.get q key now)) k later) =
  fst (QueryCache.get q k later).
Proof.
  intros Hinv Hnone Hlater.
  pose proof (QC_get_inv q key now Hinv) as (_ & Hage' & _).
  destruct Hinv as (_ & Hage & _).
  destruct (String.eqb_spec k key) as [->|Hne].
  - rewrite (QC_no_value_get _ key later (QC_get_none_no_value q key now Hnone)).
    rewrite (QC_get_result q key now Hage) in Hnone.
    rewrite (QC_get_result q key later Hage).
    destruct (JsMap.get key (QC_store q)) as [e|]; [|reflexivity].
    destruct (QueryCache.ttlMs q >? 0); simpl in *.
    + destruct (QueryCache.expiresAt (LRU.value e)) as [|time]; simpl in *.
      * now rewrite Hnone.
      * destruct (Z.gtb_spec now time).
        -- destruct (Z.gtb_spec later time); [reflexivity | lia].
        -- rewrite Hnone. now destruct (later >? time).
    + now rewrite Hnone.
  - rewrite (QC_get_result _ k later Hage'), (QC_get_result q k later Hage).
    rewrite (QC_get_frame q key now k Hne).
    destruct (QC_get_config q key now) as [-> _]. reflexivity.
Qed.

End QueryCacheReads.

(** C4 as stated fails: a [getOrCompute] whose [computeFn] throws
    does not leave the cache as it found it. On a fresh cache it has
    counted a miss; on a key whose entry has expired it has removed the
    entry; on a key that holds [undefined] it has counted a hit and moved
    the key to the most recently used end. *)
Lemma C4_getOrCompute_failure_counterexample :
  ~ (forall (q : QueryCache.t Z) (key : string)
            (f : unit -> (string + option Z) * unit) (now now' : Z) (w : unit)
            (err : string) (q' : QueryCache.t Z) (w' : unit),
        QueryCache.getOrCompute q key f now now' w = (inl err, q', w') ->
        q' = q) /\
  (let r := QueryCache.getOrCompute QC_fresh "k" QC_failing 0 0 tt in
   fst (fst r) = inl "boom" /\
   QueryCache.misses (snd (fst r)) = 1 /\
   QueryCache.misses (V := Z) QC_fresh = 0) /\
  (let r := QueryCache.getOrCompute QC_stale_example "k" QC_failing 100 100 tt in
   fst (fst r) = inl "boom" /\
   JsMap.keys (QC_store QC_stale_example) = ["k"] /\
   JsMap.keys (QC_store (snd (fst r))) = []) /\
  (let r := QueryCache.getOrCompute QC_two_keys_example "k" QC_failing 10 10 tt in
   fst (fst r) = inl "boom" /\
   JsMap.keys (QC_store QC_two_keys_example) = ["k"; "j"] /\
   JsMap.keys (QC_store (snd (fst r))) = ["j"; "k"] /\
   QueryCache.hits (snd (fst r)) = QueryCache.hits QC_two_keys_example + 1).
Proof.
  split; [|repeat split].
  intros H.
  specialize (H QC_fresh "k" QC_failing 0 0 tt "boom" _ tt eq_refl).
  apply (f_equal QueryCache.misses) in H. discriminate H.
Qed.

(** C4 (amended). When the lookup of [getOrCompute] finds no value and
    [computeFn] throws, the error reaches the caller as it was thrown and
    the cache is left as the lookup left it: no key is added, when the key
    had no entry the bindings are unchanged and one miss is counted, and
    in a cache that satisfies its invariant every key reads, then or
    later, as it did before the call.
    A later [getOrCompute] on the key calls its [computeFn] again. With a
    [computeFn] that throws on its first call and succeeds afterwards, the
    first [getOrCompute] fails, the second returns the value and stores it,
    and [computeFn] has been called twice. *)
Theorem C4_getOrCompute_failure {V E W : Type} :
  (forall (q : QueryCache.t V) key (f : W -> (E + option V) * W)
          now now' w err w1,
      fst (QueryCache.get q key now) = None ->
      f w = (inl err, w1) ->
      let q1 := snd (QueryCache.get q key now) in
      QueryCache.getOrCompute q key f now now' w = (inl err, q1, w1) /\
      incl (JsMap.keys (QC_store q1)) (JsMap.keys (QC_store q)) /\
      (JsMap.get key (QC_store q) = None ->
       QC_store q1 = QC_store q /\
       QueryCache.misses q1 = QueryCache.misses q + 1 /\
       QueryCache.hits q1 = QueryCache.hits q /\
       QueryCache.expirations q1 = QueryCache.expirations q /\
       QueryCache.evictions q1 = QueryCache.evictions q) /\
      (QC_inv q ->
       forall k later, now <= later ->
         fst (QueryCache.get q1 k later) = fst (QueryCache.get q k later)) /\
      (forall (g : W -> (E + option V) * W) now2 now2',
          QueryCache.getOrCompute q1 key g now2 now2' w1 =
            match g w1 with
            | (inl err', w2) =>
                (inl err', snd (QueryCache.get q1 key now2), w2)
            | (inr v, w2) =>
                (inr v,
                 QueryCache.set (snd (QueryCache.get q1 key now2)) key v now2',
                 w2)
            end)) /\
  (forall (err : E) (v : V) (t1 t1' t2 t2' : Z),
      let call1 := QueryCache.getOrCompute QC_fresh "k" (QC_flaky err v)
                     t1 t1' 0%nat in
      let call2 := QueryCache.getOrCompute (snd (fst call1)) "k"
                     (QC_flaky err v) t2 t2' (snd call1) in
      QueryCache.new (QueryCache.mkOptions 10 50 None) = inr (QC_fresh (V := V)) /\
      fst (fst call1) = inl err /\
      QC_store (snd (fst call1)) = [] /\
      fst (fst call2) = inr (Some v) /\
      snd call2 = 2%nat /\
      JsMap.has "k" (QC_store (snd (fst call2))) = true).
Proof.
  split.
  - intros q key f now now' w err w1 Hnone Hf q1.
    split; [|split; [|split; [|split]]].
    + rewrite (QC_getOrCompute_miss q key f now now' w Hnone), Hf. reflexivity.
    + apply QC_get_keys.
    + intros Habsent. unfold q1. rewrite (QC_get_absent q key now Habsent).
      unfold QC_store. simpl. repeat split.
    + intros Hinv k later Hlater. now apply QC_get_none_reads.
    + intros g now2 now2'. apply QC_getOrCompute_miss.
      apply QC_no_value_get. now apply QC_get_none_no_value.
  - intros err v t1 t1' t2 t2'. cbn. repeat split.
Qed.

(** C4 (amended) at a fresh cache and a [computeFn] that throws. *)
Lemma C4_getOrCompute_failure_witness :
  let f : unit -> (string + option Z) * unit := fun w => (inl "boom", w) in
  QueryCache.getOrCompute QC_fresh "k" f 0 1 tt =
    (inl "boom", snd (QueryCache.get QC_fresh "k" 0), tt) /\
  QueryCache.misses (snd (QueryCache.get (V := Z) QC_fresh "k" 0)) = 1.
Proof.
  cbv zeta.
  destruct (@C4_getOrCompute_failure Z string unit) as [Hgen _].
  destruct (Hgen QC_fresh "k" (fun w => (inl "boom", w)) 0 1 tt "boom" tt
                 eq_refl eq_refl) as (Hres & _ & Habs & _ & _).
  split; [exact Hres|].
  destruct (Habs eq_refl) as (_ & Hm & _). exact Hm.
Defined.

Lemma QC_holds_undefined_no_value {V : Type} (q : QueryCache.t V) key :
  QC_holds_undefined q key -> QC_no_value q key.
Proof. intros (e & He & Hv). unfold QC_no_value. now rewrite He. Qed.

Lemma QC_getOrCompute_undefined {V E W : Type} (q : QueryCache.t V) key
    (f : W -> (E + option V) * W) now now' (w w1 : W) :
  QC_holds_undefined q key -> f w = (inr None, w1) ->
  QC_holds_undefined
    (snd (fst (QueryCache.getOrCompute q key f now now' w))) key /\
  snd (QueryCache.getOrCompute q key f now now' w) = w1.
Proof.
  intros Hu Hf.
  rewrite (QC_getOrCompute_miss q key f now now' w
             (QC_no_value_get q key now (QC_holds_undefined_no_value q key Hu))).
  rewrite Hf. simpl. split; [|reflexivity].
  destruct (QC_set_fields (snd (QueryCache.get q key now)) key None now')
    as (Hget & _).
  eexists. split; [exact Hget | reflexivity].
Qed.

(** C10. The query result cache does not memoize [undefined]. For a key
    whose entry holds [undefined]: a [get] that finds the entry valid
    counts a hit, keeps the entry, and returns [undefined], which is what a
    [get] returns for a key without an entry; [getOrCompute] calls
    [computeFn] whatever the clock, and when [computeFn] returns
    [undefined] the key holds [undefined] again, so that every one of a
    series of calls calls [computeFn]. *)
Theorem C10_undefined_not_memoized {V E W : Type} :
  (forall (q : QueryCache.t V) key now e,
      LRU.maxAge (QueryCache.cache q) = None ->
      JsMap.get key (QC_store q) = Some e ->
      QueryCache.value (LRU.value e) = None ->
      (QueryCache.ttlMs q >? 0) &&
        QueryCache.isPast now (QueryCache.expiresAt (LRU.value e)) = false ->
      let q' := snd (QueryCache.get q key now) in
      fst (QueryCache.get q key now) = None /\
      QueryCache.hits q' = QueryCache.hits q + 1 /\
      QueryCache.misses q' = QueryCache.misses q /\
      QC_holds_undefined q' key /\
      (forall (q0 : QueryCache.t V) now0,
          JsMap.get key (QC_store q0) = None ->
          fst (QueryCache.get q0 key now0) = fst (QueryCache.get q key now))) /\
  (forall (q : QueryCache.t V) key (f : W -> (E + option V) * W) now now' w,
      QC_holds_undefined q key ->
      QueryCache.getOrCompute q key f now now' w =
        match f w with
        | (inl err, w1) => (inl err, snd (QueryCache.get q key now), w1)
        | (inr v, w1) =>
            (inr v,
             QueryCache.set (snd (QueryCache.get q key now)) key v now', w1)
        end) /\
  (forall (q : QueryCache.t V) key (f : W -> (E + option V) * W)
          (times : list (Z * Z)) w,
      QC_holds_undefined q key ->
      (forall w0, fst (f w0) = inr None) ->
      QC_holds_undefined (fst (QC_getOrCompute_each q key f times w)) key /\
      snd (QC_getOrCompute_each q key f times w) =
        fold_left (fun w0 _ => snd (f w0)) times w).
Proof.
  split; [|split].
  - intros q key now e Hage Hk Hv Hvalid q'.
    pose proof (QC_get_none_no_value q key now) as Hno.
    unfold q'. rewrite (QC_get_valid q key now e Hage Hk Hvalid) in *.
    cbn [fst snd] in *. repeat split.
    + exact Hv.
    + specialize (Hno Hv). unfold QC_holds_undefined, QC_no_value in *.
      match goal with
      | |- exists _, JsMap.get key ?m = _ /\ _ =>
          assert (Hsome : exists e', JsMap.get key m = Some e')
      end.
      { unfold QC_store. cbn [QueryCache.cache].
        destruct (QueryCache.refreshOnAccess q && (QueryCache.ttlMs q >? 0)).
        - rewrite QC_store_writeExpiresAt. cbn [LRU.cache].
          rewrite JsMap_get_app_last, JsMap_get_delete_eq, String.eqb_refl.
          eauto.
        - cbn [LRU.cache].
          rewrite JsMap_get_app_last, JsMap_get_delete_eq, String.eqb_refl.
          eauto. }
      destruct Hsome as [e' He']. rewrite He' in Hno. eauto.
    + intros q0 now0 Habsent. rewrite (QC_get_absent q0 key now0 Habsent).
      simpl. now rewrite Hv.
  - intros q key f now now' w Hu. apply QC_getOrCompute_miss.
    apply QC_no_value_get. now apply QC_holds_undefined_no_value.
  - intros q key f times. revert q.
    induction times as [|[now now'] times IH]; intros q w Hu Hf; simpl.
    + split; [exact Hu | reflexivity].
    + assert (Hfw : f w = (inr None, snd (f w))).
      { specialize (Hf w). destruct (f w) as [o w1]. simpl in *. now subst. }
      destruct (QC_getOrCompute_undefined q key f now now' w (snd (f w)) Hu Hfw)
        as [Hu' Hw'].
      rewrite Hw'. now apply IH.
Qed.

(** C10 at a cache whose key holds [undefined]: three calls of
    [getOrCompute] call [computeFn] three times. *)
Lemma C10_undefined_not_memoized_witness :
  let f : nat -> (string + option Z) * nat := fun n => (inr None, S n) in
  fst (QueryCache.get QC_undefined_example "k" 10) = None /\
  QueryCache.hits (snd (QueryCache.get QC_undefined_example "k" 10)) = 1 /\
  snd (QC_getOrCompute_each QC_undefined_example "k" f
         [(1, 2); (3, 4); (5, 6)] 0%nat) = 3%nat.
Proof.
  cbv zeta.
  destruct (@C10_undefined_not_memoized Z string nat) as (Hget & _ & Hall).
  assert (Hk : JsMap.get "k" (QC_store QC_undefined_example) =
               Some (LRU.mkEntry (QueryCache.mkEntry None (QueryCache.At 50)) 0))
    by reflexivity.
  destruct (Hget QC_undefined_example "k" 10 _ eq_refl Hk eq_refl eq_refl)
    as (Hnone & Hhits & _).
  split; [exact Hnone|]. split; [exact Hhits|].
  assert (Hu : QC_holds_undefined QC_undefined_example "k")
    by (eexists; split; [exact Hk | reflexivity]).
  destruct (Hall QC_undefined_example "k" (fun n => (inr None, S n))
                 [(1, 2); (3, 4); (5, 6)] 0%nat Hu (fun _ => eq_refl))
    as [_ Hw].
  rewrite Hw. reflexivity.
Defined.

Section PrefixInvalidation.
Context {V : Type}.
Implicit Types (q : QueryCache.t V) (key prefix : string).

Lemma JsMap_get_filter_key {A : Type} (p : string -> bool) key (m : JsMap.t A) :
  JsMap.get key (filter (fun kv => p (fst kv)) m) =
  if p key then JsMap.get key m else None.
Proof.
  induction m as [|[k e] m IH]; simpl.
  - now destruct (p key).
  - destruct (String.eqb_spec k key) as [->|Hne].
    + destruct (p key) eqn:Hp; simpl.
      * now rewrite String.eqb_refl.
      * rewrite IH. reflexivity.
    + destruct (p k); simpl; [|exact IH].
      destruct (String.eqb_spec k key); [contradiction | exact IH].
Qed.

(** The keys that the visitor collects. *)
Lemma QC_collect_keys prefix (c : LRU.t (QueryCache.CacheEntry V) Z) acc :
  LRU.forEach c (QueryCache.collectKey prefix) acc =
  acc ++ filter (String.prefix prefix) (JsMap.keys (LRU.cache c)).
Proof.
  unfold LRU.forEach. revert acc.
  induction (LRU.cache c) as [|[k e] m IH]; intros acc; simpl.
  - now rewrite app_nil_r.
  - rewrite IH. unfold QueryCache.collectKey. simpl.
    destruct (String.prefix prefix k); [|reflexivity].
    now rewrite <- app_assoc.
Qed.

Lemma filter_twice {A : Type} (f g : A -> bool) (l : list A) :
  filter f (filter g l) = filter (fun x => g x && f x) l.
Proof.
  induction l as [|x l IH]; simpl; [reflexivity|].
  destruct (g x); simpl; [destruct (f x)|]; now rewrite IH.
Qed.

(** The loop that deletes the collected keys. *)
Lemma QC_delete_keys (ks : list string) (c : LRU.t (QueryCache.CacheEntry V) Z) :
  fold_left (fun c key => snd (LRU.delete c key)) ks c =
  LRU.with_cache c
    (filter (fun kv => negb (existsb (String.eqb (fst kv)) ks)) (LRU.cache c)).
Proof.
  revert c. induction ks as [|k ks IH]; intros c; simpl.
  - destruct c as [m ? ? ? ? ?]. unfold LRU.with_cache. simpl. f_equal.
    induction m as [|kv m IHm]; simpl; [reflexivity | now rewrite <- IHm].
  - rewrite IH. unfold LRU.with_cache. simpl. f_equal.
    unfold JsMap.delete. rewrite filter_twice. apply filter_ext.
    intros [k' e]. simpl. rewrite negb_orb, (String.eqb_sym k' k). reflexivity.
Qed.

Lemma QC_invalidate_store q prefix :
  QC_store (QueryCache.invalidateByPrefix q prefix) =
  filter (fun kv => negb (String.prefix prefix (fst kv))) (QC_store q).
Proof.
  unfold QueryCache.invalidateByPrefix, QC_store. simpl.
  rewrite QC_collect_keys, QC_delete_keys. simpl.
  apply filter_ext_in. intros [k e] Hin. simpl. f_equal.
  destruct (String.prefix prefix k) eqn:Hp.
  - apply existsb_exists. exists k. split; [|apply String.eqb_refl].
    apply filter_In. split; [|exact Hp].
    unfold JsMap.keys. apply in_map_iff. now exists (k, e).
  - destruct (existsb (String.eqb k) _) eqn:Hex; [|reflexivity].
    apply existsb_exists in Hex. destruct Hex as (k' & Hk' & Heq).
    apply String.eqb_eq in Heq. subst k'.
    apply filter_In in Hk'. destruct Hk' as [_ Hp']. congruence.
Qed.

Lemma QC_invalidate_inv q prefix :
  QC_inv q -> QC_inv (QueryCache.invalidateByPrefix q prefix).
Proof.
  intros ((Hwf & Hcap & Hsize) & Hage & Hcb).
  unfold QC_inv, LRU_inv, LRU.size.
  pose proof (QC_invalidate_store q prefix) as Hstore. unfold QC_store in Hstore.
  rewrite Hstore.
  unfold QueryCache.invalidateByPrefix.
  cbn [QueryCache.cache]. rewrite QC_delete_keys. simpl.
  repeat split; try assumption.
  - unfold JsMap.wf, JsMap.keys in *.
    clear -Hwf. induction (LRU.cache (QueryCache.cache q)) as [|[k e] m IH];
      simpl in *; [constructor|].
    inversion Hwf as [|? ? Hnotin Hwf']; subst.
    destruct (String.prefix prefix k); simpl; [now apply IH|].
    constructor; [|now apply IH].
    intros Hin. apply Hnotin. apply in_map_iff in Hin.
    destruct Hin as (kv & <- & Hkv). apply filter_In in Hkv.
    apply in_map, Hkv.
  - unfold LRU.size, JsMap.size in *.
    pose proof (filter_length_le
                  (fun kv : string * LRU.CacheEntry (QueryCache.CacheEntry V) =>
                     negb (String.prefix prefix (fst kv)))
                  (LRU.cache (QueryCache.cache q))). lia.
Qed.

End PrefixInvalidation.

(** C6. [invalidateByPrefix] removes the entries whose key starts with the
    prefix, and only them: what is left are the other bindings, in their
    order and with their entries unchanged, so a key with the prefix has no
    entry and any other key has the entry it had; the counters and the
    configuration are untouched. The function returns the cache in this
    state: nothing is left to do after the call. With the keys [p:/x:a],
    [p:/x:b], [p:/y:a], the prefix [p:/x] removes the first two and leaves
    the third with its value. *)
Theorem C6_prefix_invalidation {V : Type} :
  (forall (q : QueryCache.t V) prefix,
      let q' := QueryCache.invalidateByPrefix q prefix in
      QC_store q' =
        filter (fun kv => negb (String.prefix prefix (fst kv))) (QC_store q) /\
      (forall key, String.prefix prefix key = true ->
                   JsMap.get key (QC_store q') = None) /\
      (forall key, String.prefix prefix key = false ->
                   JsMap.get key (QC_store q') = JsMap.get key (QC_store q)) /\
      QueryCache.hits q' = QueryCache.hits q /\
      QueryCache.misses q' = QueryCache.misses q /\
      QueryCache.expirations q' = QueryCache.expirations q /\
      QueryCache.evictions q' = QueryCache.evictions q /\
      QueryCache.ttlMs q' = QueryCache.ttlMs q /\
      LRU.maxSize (QueryCache.cache q') = LRU.maxSize (QueryCache.cache q)) /\
  (forall (v1 v2 v3 : V) (t1 t2 t3 t4 : Z),
      let q3 := QueryCache.set
                  (QueryCache.set (QueryCache.set QC_fresh "p:/x:a" (Some v1) t1)
                                  "p:/x:b" (Some v2) t2)
                  "p:/y:a" (Some v3) t3 in
      let q' := QueryCache.invalidateByPrefix q3 "p:/x" in
      JsMap.keys (QC_store q3) = ["p:/x:a"; "p:/x:b"; "p:/y:a"] /\
      JsMap.keys (QC_store q') = ["p:/y:a"] /\
      JsMap.has "p:/x:a" (QC_store q') = false /\
      JsMap.has "p:/x:b" (QC_store q') = false /\
      JsMap.get "p:/y:a" (QC_store q') = JsMap.get "p:/y:a" (QC_store q3) /\
      option_map (fun e => QueryCache.value (LRU.value e))
                 (JsMap.get "p:/y:a" (QC_store q')) = Some (Some v3)).
Proof.
  split.
  - intros q prefix q'. unfold q'. rewrite QC_invalidate_store.
    split; [reflexivity|]. split; [|split].
    + intros key Hp.
      rewrite (JsMap_get_filter_key (fun k => negb (String.prefix prefix k))).
      now rewrite Hp.
    + intros key Hp.
      rewrite (JsMap_get_filter_key (fun k => negb (String.prefix prefix k))).
      now rewrite Hp.
    + unfold QueryCache.invalidateByPrefix.
      rewrite QC_delete_keys. simpl. repeat split.
  - intros v1 v2 v3 t1 t2 t3 t4. cbn. repeat split.
Qed.

(** C6 at a cache with the keys [patterns:/p], [concepts:/p] and
    [patterns:/q], and the prefix [patterns:]. *)
Lemma C6_prefix_invalidation_witness :
  let q := QueryCache.set
             (QueryCache.set (QueryCache.set QC_fresh "patterns:/p" (Some 1) 0)
                             "concepts:/p" (Some 2) 1)
             "patterns:/q" (Some 3) 2 in
  let q' := QueryCache.invalidateByPrefix q "patterns:" in
  JsMap.get "patterns:/q" (QC_store q') = None /\
  JsMap.get "concepts:/p" (QC_store q') = JsMap.get "concepts:/p" (QC_store q) /\
  JsMap.keys (QC_store q') = ["concepts:/p"].
Proof.
  cbv zeta. destruct (@C6_prefix_invalidation Z) as [Hgen _].
  destruct (Hgen (QueryCache.set
             (QueryCache.set (QueryCache.set QC_fresh "patterns:/p" (Some 1) 0)
                             "concepts:/p" (Some 2) 1)
             "patterns:/q" (Some 3) 2) "patterns:")
    as (Hstore & Hgone & Hkept & _).
  split; [exact (Hgone "patterns:/q" eq_refl)|].
  split; [exact (Hkept "concepts:/p" eq_refl)|].
  rewrite Hstore. reflexivity.
Defined.

(** ** The statement cache *)

Lemma LRU_get_keys {T W : Type} (c : LRU.t T W) key now :
  incl (JsMap.keys (LRU.cache (snd (LRU.get c key now))))
       (JsMap.keys (LRU.cache c)).
Proof.
  unfold LRU.get. destruct (JsMap.get key (LRU.cache c)) as [e|] eqn:Hk.
  - destruct (LRU.isExpired c e now); simpl.
    + apply JsMap_keys_delete_incl.
    + rewrite (LRU_promote_shape key e e). now apply JsMap_keys_promote with (e := e).
  - simpl. apply incl_refl.
Qed.

(** C7 as stated fails: a [prepare] whose preparation throws has
    been counted as a miss. *)
Lemma C7_failed_prepare_counterexample :
  ~ (forall (sc : StatementCache.t string unit string) (sql : string)
            (now : Z) (d : unit) (err : string)
            (sc' : StatementCache.t string unit string) (d' : unit),
        StatementCache.prepare sc sql now d = (inl err, sc', d') ->
        StatementCache.hits sc' = StatementCache.hits sc /\
        StatementCache.misses sc' = StatementCache.misses sc).
Proof.
  intros H.
  destruct (H (SC_fresh SC_reject 10) "INVALID SQL" 0 tt "SQL syntax error"
              _ tt eq_refl) as [_ Hm].
  discriminate Hm.
Qed.

(** C7 (amended). When [prepare] fails, the error is the one thrown by the
    preparation of the normalized text by the database, no key is added to
    the cache (the bindings are unchanged when the key had none), [hits] is
    unchanged and [misses] is one higher: the failed call is counted as a
    miss. *)
Theorem C7_failed_prepare {Stmt D E : Type}
    (sc : StatementCache.t Stmt D E) (sql : string) (now : Z) (d : D)
    (err : E) (sc' : StatementCache.t Stmt D E) (d' : D) :
  StatementCache.prepare sc sql now d = (inl err, sc', d') ->
  StatementCache.db_prepare sc (StatementCache.normalizeSQL sql) d
    = (inl err, d') /\
  incl (JsMap.keys (SC_store sc')) (JsMap.keys (SC_store sc)) /\
  (JsMap.get (StatementCache.normalizeSQL sql) (SC_store sc) = None ->
   SC_store sc' = SC_store sc) /\
  StatementCache.hits sc' = StatementCache.hits sc /\
  StatementCache.misses sc' = StatementCache.misses sc + 1.
Proof.
  unfold StatementCache.prepare, SC_store.
  pose proof (LRU_get_keys (StatementCache.cache sc)
                (StatementCache.normalizeSQL sql) now) as Hkeys.
  assert (Habs : JsMap.get (StatementCache.normalizeSQL sql)
                   (LRU.cache (StatementCache.cache sc)) = None ->
                 LRU.cache (snd (LRU.get (StatementCache.cache sc)
                   (StatementCache.normalizeSQL sql) now)) =
                 LRU.cache (StatementCache.cache sc)).
  { intros Hk. unfold LRU.get. now rewrite Hk. }
  destruct (LRU.get (StatementCache.cache sc)
              (StatementCache.normalizeSQL sql) now) as [[stmt|] c];
    [discriminate|].
  cbn [StatementCache.db_prepare StatementCache.cache StatementCache.hits
       StatementCache.misses] in *.
  destruct (StatementCache.db_prepare sc (StatementCache.normalizeSQL sql) d)
    as [[e|stmt] d1]; [|discriminate].
  intros [= <- <- <-]. simpl in *. repeat split; assumption.
Qed.

(** C7 (amended) at a fresh cache on a database that rejects the text. *)
Lemma C7_failed_prepare_witness :
  let sc := SC_fresh SC_reject 10 in
  let r := StatementCache.prepare sc "INVALID SQL" 0 tt in
  fst (fst r) = inl "SQL syntax error" /\
  SC_store (snd (fst r)) = [] /\
  StatementCache.hits (snd (fst r)) = 0 /\
  StatementCache.misses (snd (fst r)) = 1.
Proof.
  cbv zeta.
  destruct (C7_failed_prepare (SC_fresh SC_reject 10) "INVALID SQL" 0 tt
              "SQL syntax error"
              (snd (fst (StatementCache.prepare (SC_fresh SC_reject 10)
                           "INVALID SQL" 0 tt)))
              tt eq_refl) as (_ & _ & Hstore & Hhits & Hmisses).
  split; [reflexivity|]. split; [exact (Hstore eq_refl)|].
  split; [exact Hhits | exact Hmisses].
Defined.

(** *** Strings cut at delimiters *)

Section StringFacts.

Lemma str_app_nil_r (s : string) : (s ++ "")%string = s.
Proof. induction s as [|c s IH]; simpl; [reflexivity | now rewrite IH]. Qed.

Lemma str_app_assoc (a b c : string) :
  ((a ++ b) ++ c)%string = (a ++ (b ++ c))%string.
Proof. induction a as [|x a IH]; simpl; [reflexivity | now rewrite IH]. Qed.

Lemma str_app_inv_head (a b c : string) :
  (a ++ b)%string = (a ++ c)%string -> b = c.
Proof. induction a as [|x a IH]; simpl; [tauto | intros [= H]; auto]. Qed.

(** Two words over [p], each followed by a rest that a word cannot run
    into, are cut at the same place. *)
Lemma delimited_inj (p : ascii -> bool) (w1 w2 r1 r2 : string) :
  allChars p w1 = true -> allChars p w2 = true ->
  stopsAt p r1 = true -> stopsAt p r2 = true ->
  (w1 ++ r1)%string = (w2 ++ r2)%string -> w1 = w2 /\ r1 = r2.
Proof.
  revert w2. induction w1 as [|c w1 IH]; intros [|c2 w2]; simpl;
    intros H1 H2 S1 S2 Heq.
  - tauto.
  - subst r1. simpl in S1. apply andb_true_iff in H2.
    destruct H2 as [Hc _]. rewrite Hc in S1. discriminate.
  - subst r2. simpl in S2. apply andb_true_iff in H1.
    destruct H1 as [Hc _]. rewrite Hc in S2. discriminate.
  - injection Heq as -> Heq.
    apply andb_true_iff in H1. apply andb_true_iff in H2.
    destruct (IH w2 (proj2 H1) (proj2 H2) S1 S2 Heq) as [-> ->]. tauto.
Qed.

End StringFacts.

(** *** The normalization of statements *)

Lemma SC_words_are_words (s : string) : Forall SC_word (SC_words s).
Proof.
  induction s as [|c s IH]; simpl; [constructor|].
  destruct (StatementCache.isSpace c) eqn:Hc; [exact IH|].
  assert (Hone : SC_word (String c "")).
  { split; [discriminate|]. simpl. unfold SC_notSpace. now rewrite Hc. }
  destruct (SC_words s) as [|w ws]; [now constructor|].
  inversion IH as [|? ? Hw Hws]; subst.
  destruct (SC_startsWithSpace s).
  - constructor; [exact Hone | exact IH].
  - constructor; [|exact Hws]. split; [discriminate|].
    simpl. unfold SC_notSpace at 1. rewrite Hc. exact (proj2 Hw).
Qed.

Lemma SC_concat_cons (w : string) (ws : list string) :
  String.concat " " (w :: ws) =
  (w ++ match ws with
        | [] => ""
        | _ => " " ++ String.concat " " ws
        end)%string.
Proof.
  destruct ws as [|w' ws]; simpl; [now rewrite str_app_nil_r | reflexivity].
Qed.

(** Words joined by single spaces are read back from the text. *)
Lemma SC_unwords_inj (ws1 ws2 : list string) :
  Forall SC_word ws1 -> Forall SC_word ws2 ->
  String.concat " " ws1 = String.concat " " ws2 -> ws1 = ws2.
Proof.
  revert ws2. induction ws1 as [|w1 ws1 IH]; intros [|w2 ws2] H1 H2 Heq.
  - reflexivity.
  - rewrite SC_concat_cons in Heq. inversion H2 as [|? ? [Hne _] _]; subst.
    destruct w2; [congruence | discriminate].
  - rewrite SC_concat_cons in Heq. inversion H1 as [|? ? [Hne _] _]; subst.
    destruct w1; [congruence | discriminate].
  - inversion H1 as [|? ? [_ Hw1] Hws1]; subst.
    inversion H2 as [|? ? [_ Hw2] Hws2]; subst.
    rewrite !SC_concat_cons in Heq.
    apply (delimited_inj SC_notSpace) in Heq; try assumption.
    + destruct Heq as [-> Hrest]. f_equal.
      destruct ws1 as [|a ws1], ws2 as [|b ws2]; try discriminate;
        [reflexivity|].
      injection Hrest as Hrest. now apply IH.
    + now destruct ws1.
    + now destruct ws2.
Qed.

Lemma SC_trimEnd_cons (c : ascii) (s : string) :
  StatementCache.isSpace c = false ->
  StatementCache.trimEnd (String c s) = String c (StatementCache.trimEnd s).
Proof.
  intros Hc. simpl. rewrite Hc. now destruct (StatementCache.trimEnd s).
Qed.

(** [trimEnd] after [replace], in terms of the words. *)
Lemma SC_trimEnd_collapse (s : string) (inRun : bool) :
  StatementCache.trimEnd (StatementCache.collapse inRun s) =
  match SC_words s with
  | [] => ""
  | ws => ((if SC_startsWithSpace s && negb inRun then " " else "") ++
           String.concat " " ws)%string
  end.
Proof.
  revert inRun. induction s as [|c s IH]; intros inRun; [reflexivity|].
  pose proof (SC_words_are_words s) as Hgood.
  destruct (StatementCache.isSpace c) eqn:Hc.
  - cbn [StatementCache.collapse SC_words SC_startsWithSpace]. rewrite Hc.
    destruct inRun.
    + rewrite (IH true), andb_false_r. simpl.
      destruct (SC_words s); reflexivity.
    + cbn [StatementCache.trimEnd]. rewrite (IH true), andb_false_r.
      destruct (SC_words s) as [|w ws]; [reflexivity|].
      inversion Hgood as [|? ? [Hne _] _]; subst.
      rewrite SC_concat_cons. destruct w as [|a w]; [congruence|]. reflexivity.
  - cbn [StatementCache.collapse SC_words SC_startsWithSpace]. rewrite Hc.
    rewrite (SC_trimEnd_cons c _ Hc), (IH false), andb_true_r.
    destruct (SC_words s) as [|w ws]; [reflexivity|].
    destruct (SC_startsWithSpace s); simpl.
    + reflexivity.
    + destruct ws; reflexivity.
Qed.

Lemma SC_trimStart_collapse (s : string) (inRun : bool) :
  StatementCache.trimStart (StatementCache.collapse inRun s) =
  StatementCache.collapse false (StatementCache.trimStart s).
Proof.
  revert inRun. induction s as [|c s IH]; intros inRun; [reflexivity|].
  simpl. destruct (StatementCache.isSpace c) eqn:Hc.
  - destruct inRun; [apply IH|]. simpl. apply IH.
  - simpl. now rewrite Hc.
Qed.

Lemma SC_words_trimStart (s : string) :
  SC_words (StatementCache.trimStart s) = SC_words s.
Proof.
  induction s as [|c s IH]; [reflexivity|]. simpl.
  destruct (StatementCache.isSpace c) eqn:Hc; [exact IH|].
  simpl. now rewrite Hc.
Qed.

Lemma SC_trimStart_no_space (s : string) :
  SC_startsWithSpace (StatementCache.trimStart s) = false.
Proof.
  induction s as [|c s IH]; [reflexivity|]. simpl.
  destruct (StatementCache.isSpace c) eqn:Hc; [exact IH|]. simpl. exact Hc.
Qed.

(** [normalizeSQL] joins the words of the text with single spaces. *)
Lemma SC_normalizeSQL_words (s : string) :
  StatementCache.normalizeSQL s = String.concat " " (SC_words s).
Proof.
  unfold StatementCache.normalizeSQL, StatementCache.trim.
  rewrite SC_trimStart_collapse, SC_trimEnd_collapse, SC_trimStart_no_space,
    SC_words_trimStart.
  now destruct (SC_words s).
Qed.

(** Two texts have the same key exactly when they have the same words. *)
Lemma SC_normalizeSQL_eq_iff (s1 s2 : string) :
  StatementCache.normalizeSQL s1 = StatementCache.normalizeSQL s2 <->
  SC_words s1 = SC_words s2.
Proof.
  rewrite !SC_normalizeSQL_words. split.
  - apply SC_unwords_inj; apply SC_words_are_words.
  - now intros ->.
Qed.

(** *** Statements that share an entry *)

Section PrepareFacts.
Context {Stmt D E : Type}.
Implicit Types (sc : StatementCache.t Stmt D E) (sql : string) (d : D).

Lemma JsMap_keys_set {A : Type} key (v : A) (m : JsMap.t A) :
  incl (JsMap.keys (JsMap.set key v m)) (key :: JsMap.keys m).
Proof.
  induction m as [|[k v'] m IH]; simpl.
  - apply incl_refl.
  - destruct (String.eqb_spec k key) as [->|Hne]; simpl.
    + apply incl_tl, incl_refl.
    + intros x [<-|Hx]; [right; now left|].
      destruct (IH x Hx) as [<-|Hin]; [now left | right; now right].
Qed.

Lemma LRU_set_keys {T W : Type} (c : LRU.t T W) key v now w :
  incl (JsMap.keys (LRU.cache (fst (LRU.set c key v now w))))
       (key :: JsMap.keys (LRU.cache c)).
Proof.
  unfold LRU.set.
  assert (Hroom : incl (JsMap.keys (fst (LRU.make_room c key w)))
                       (JsMap.keys (LRU.cache c))).
  { unfold LRU.make_room.
    destruct (JsMap.has key (LRU.cache c)); [apply JsMap_keys_delete_incl|].
    destruct (JsMap.size (LRU.cache c) >=? LRU.maxSize c); [|apply incl_refl].
    destruct (JsMap.first_key (LRU.cache c)) as [k0|]; [|apply incl_refl].
    cbv zeta.
    destruct (LRU.onEvict c), (JsMap.get k0 (LRU.cache c));
      apply JsMap_keys_delete_incl. }
  destruct (LRU.make_room c key w) as [m w']. simpl in *.
  intros x Hx. apply JsMap_keys_set in Hx.
  destruct Hx as [<-|Hx]; [now left | right; now apply Hroom].
Qed.

(** A [prepare] on a key that is bound is a hit: the handle of the entry
    is returned and the database is not asked. *)
Lemma SC_prepare_hit sc sql now d (e : LRU.CacheEntry Stmt) :
  LRU.maxAge (StatementCache.cache sc) = None ->
  JsMap.get (StatementCache.normalizeSQL sql) (SC_store sc) = Some e ->
  exists sc',
    StatementCache.prepare sc sql now d = (inr (LRU.value e), sc', d) /\
    StatementCache.hits sc' = StatementCache.hits sc + 1 /\
    StatementCache.misses sc' = StatementCache.misses sc.
Proof.
  unfold SC_store. intros Hage Hk. unfold StatementCache.prepare.
  assert (Hexp : LRU.isExpired (StatementCache.cache sc) e now = false)
    by (unfold LRU.isExpired; now rewrite Hage).
  rewrite (LRU_get_hit _ _ now e Hk Hexp).
  eexists. split; [reflexivity|]. simpl. split; reflexivity.
Qed.

(** After a [prepare] that succeeds, the key is bound to the handle. *)
Lemma SC_prepare_stored sc sql now d (stmt : Stmt) sc' d' :
  LRU.maxAge (StatementCache.cache sc) = None ->
  StatementCache.prepare sc sql now d = (inr stmt, sc', d') ->
  LRU.maxAge (StatementCache.cache sc') = None /\
  exists e, JsMap.get (StatementCache.normalizeSQL sql) (SC_store sc') = Some e /\
            LRU.value e = stmt.
Proof.
  unfold SC_store. intros Hage. unfold StatementCache.prepare, LRU.get.
  destruct (JsMap.get (StatementCache.normalizeSQL sql)
              (LRU.cache (StatementCache.cache sc))) as [e|] eqn:Hk.
  - unfold LRU.isExpired. rewrite Hage. intros [= <- <- <-]. simpl.
    split; [reflexivity|]. exists e. split; [apply JsMap_get_set_eq | reflexivity].
  - cbn [StatementCache.db_prepare StatementCache.cache StatementCache.hits
         StatementCache.misses].
    destruct (StatementCache.db_prepare sc (StatementCache.normalizeSQL sql) d)
      as [[err|s] d1]; [discriminate|].
    intros [= <- <- <-]. unfold LRU.set.
    destruct (LRU.make_room _ _ _) as [m w']. simpl.
    split; [exact Hage|]. eexists. split; [apply JsMap_get_set_eq | reflexivity].
Qed.

(** A [prepare] binds no key but its own. *)
Lemma SC_prepare_other_key sc sql now d r sc' d' key :
  StatementCache.prepare sc sql now d = (r, sc', d') ->
  key <> StatementCache.normalizeSQL sql ->
  JsMap.get key (SC_store sc) = None ->
  JsMap.get key (SC_store sc') = None /\
  StatementCache.db_prepare sc' = StatementCache.db_prepare sc.
Proof.
  unfold SC_store. intros Hprep Hne Hk.
  apply JsMap_get_In in Hk. rewrite JsMap_get_In.
  pose proof (LRU_get_keys (StatementCache.cache sc)
                (StatementCache.normalizeSQL sql) now) as Hget.
  unfold StatementCache.prepare in Hprep.
  destruct (LRU.get (StatementCache.cache sc)
              (StatementCache.normalizeSQL sql) now) as [[stmt|] c].
  - injection Hprep as <- <- <-. simpl in *. split; [|reflexivity].
    intros Hin. apply Hk, Hget, Hin.
  - cbn [StatementCache.db_prepare StatementCache.cache StatementCache.hits
         StatementCache.misses] in Hprep.
    destruct (StatementCache.db_prepare sc (StatementCache.normalizeSQL sql) d)
      as [[err|s] d1]; injection Hprep as <- <- <-; simpl in *.
    + split; [|reflexivity]. intros Hin. apply Hk, Hget, Hin.
    + split; [|reflexivity]. intros Hin. apply LRU_set_keys in Hin.
      destruct Hin as [Heq|Hin]; [congruence|]. apply Hk, Hget, Hin.
Qed.

(** A [prepare] on a key that is not bound asks the database. *)
Lemma SC_prepare_miss sc sql now d :
  JsMap.get (StatementCache.normalizeSQL sql) (SC_store sc) = None ->
  exists sc',
    StatementCache.prepare sc sql now d =
      (fst (StatementCache.db_prepare sc (StatementCache.normalizeSQL sql) d),
       sc',
       snd (StatementCache.db_prepare sc (StatementCache.normalizeSQL sql) d)) /\
    StatementCache.misses sc' = StatementCache.misses sc + 1.
Proof.
  unfold SC_store. intros Hk. unfold StatementCache.prepare, LRU.get.
  rewrite Hk.
  cbn [StatementCache.db_prepare StatementCache.cache StatementCache.hits
       StatementCache.misses].
  destruct (StatementCache.db_prepare sc (StatementCache.normalizeSQL sql) d)
    as [[err|s] d1]; eexists; (split; [reflexivity|]); reflexivity.
Qed.

End PrepareFacts.

(** C8. The claim asks that functionally different statements never
    share a key. The code breaks it: [normalizeSQL] collapses the
    whitespace inside a quoted literal as it does anywhere else, so
    [SELECT 'a  b'] and [SELECT 'a b'], which select different strings,
    have the same normalized text. On a fresh cache the database is handed
    the text of the second statement when the first is prepared, the
    second is then served the handle prepared for the first, and the
    database is asked once. *)
Theorem C8_literal_whitespace_collides :
  let s1 := "SELECT 'a  b'" in
  let s2 := "SELECT 'a b'" in
  let first := StatementCache.prepare (SC_fresh SC_echo 10) s1 0 0%nat in
  let second := StatementCache.prepare (snd (fst first)) s2 1 (snd first) in
  SC_stringLiterals s1 = ["a  b"] /\
  SC_stringLiterals s2 = ["a b"] /\
  StatementCache.normalizeSQL s1 = StatementCache.normalizeSQL s2 /\
  fst (fst first) = inr s2 /\
  fst (fst second) = inr s2 /\
  snd second = 1%nat /\
  StatementCache.hits (snd (fst second)) = 1 /\
  JsMap.keys (SC_store (snd (fst second))) = [s2] /\
  ~ (forall a b : string,
        SC_stringLiterals a <> SC_stringLiterals b ->
        StatementCache.normalizeSQL a <> StatementCache.normalizeSQL b).
Proof.
  cbv zeta. repeat split.
  intros H. apply (H "SELECT 'a  b'" "SELECT 'a b'"); [discriminate | reflexivity].
Qed.

(** ** The cache key builder *)

(** *** The order of strings *)

Section StringOrder.

Lemma str_leb_trans (a b c : string) :
  String.leb a b = true -> String.leb b c = true -> String.leb a c = true.
Proof.
  unfold String.leb. revert b c.
  induction a as [|x a IH]; intros [|y b] [|z c]; simpl; try congruence.
  unfold Ascii.compare.
  destruct (N.compare_spec (N_of_ascii x) (N_of_ascii y)) as [Hxy|Hxy|Hxy];
    destruct (N.compare_spec (N_of_ascii y) (N_of_ascii z)) as [Hyz|Hyz|Hyz];
    try congruence; intros H1 H2;
    destruct (N.compare_spec (N_of_ascii x) (N_of_ascii z)) as [Hxz|Hxz|Hxz];
    try reflexivity; try lia.
  now apply (IH b c).
Qed.

Lemma insertSorted_perm (k : string) (l : list string) :
  Permutation (KeyBuilder.insertSorted k l) (k :: l).
Proof.
  induction l as [|h l IH]; simpl; [apply Permutation_refl|].
  destruct (String.leb k h); [apply Permutation_refl|].
  eapply Permutation_trans; [apply perm_skip, IH | apply perm_swap].
Qed.

Lemma sort_perm (l : list string) : Permutation (KeyBuilder.sort l) l.
Proof.
  induction l as [|k l IH]; simpl; [constructor|].
  eapply Permutation_trans; [apply insertSorted_perm | now apply perm_skip].
Qed.

Lemma insertSorted_sorted (k : string) (l : list string) :
  StronglySorted str_le l -> StronglySorted str_le (KeyBuilder.insertSorted k l).
Proof.
  induction l as [|h l IH]; intros Hs; simpl.
  - repeat constructor.
  - inversion Hs as [|? ? Hl Hh]; subst.
    destruct (String.leb k h) eqn:Hkh.
    + constructor; [exact Hs|]. constructor; [exact Hkh|].
      eapply Forall_impl; [|exact Hh]. intros x Hx.
      exact (str_leb_trans k h x Hkh Hx).
    + constructor; [now apply IH|].
      assert (Hhk : str_le h k).
      { destruct (String.leb_total k h) as [H|H]; [congruence | exact H]. }
      eapply Permutation_Forall;
        [apply Permutation_sym, insertSorted_perm|].
      now constructor.
Qed.

Lemma sort_sorted (l : list string) : StronglySorted str_le (KeyBuilder.sort l).
Proof.
  induction l as [|k l IH]; simpl; [constructor | now apply insertSorted_sorted].
Qed.

(** A list of strings has one sorted arrangement. *)
Lemma sorted_perm_eq (l1 l2 : list string) :
  StronglySorted str_le l1 -> StronglySorted str_le l2 ->
  Permutation l1 l2 -> l1 = l2.
Proof.
  revert l2. induction l1 as [|a l1 IH]; intros l2 H1 H2 Hp.
  - apply Permutation_nil in Hp. now subst.
  - destruct l2 as [|b l2].
    + apply Permutation_sym, Permutation_nil in Hp. discriminate.
    + inversion H1 as [|? ? Hs1 Ha]; subst.
      inversion H2 as [|? ? Hs2 Hb]; subst.
      assert (Hab : a = b).
      { assert (Hin1 : In a (b :: l2))
          by (eapply Permutation_in; [exact Hp | now left]).
        assert (Hin2 : In b (a :: l1))
          by (eapply Permutation_in; [apply Permutation_sym, Hp | now left]).
        destruct Hin1 as [->|Hin1]; [reflexivity|].
        destruct Hin2 as [->|Hin2]; [reflexivity|].
        rewrite Forall_forall in Ha, Hb.
        apply String.leb_antisym; [apply Ha, Hin2 | apply Hb, Hin1]. }
      subst b. f_equal. apply IH; try assumption.
      now apply Permutation_cons_inv with (a := a).
Qed.

Lemma sort_perm_eq (l1 l2 : list string) :
  Permutation l1 l2 -> KeyBuilder.sort l1 = KeyBuilder.sort l2.
Proof.
  intros Hp. apply sorted_perm_eq; try apply sort_sorted.
  eapply Permutation_trans; [apply sort_perm|].
  eapply Permutation_trans; [exact Hp | apply Permutation_sym, sort_perm].
Qed.

End StringOrder.

(** *** Parameters in any order *)

Section ParamOrder.

Lemma JsMap_get_perm {A : Type} (p1 p2 : JsMap.t A) key :
  JsMap.wf p1 -> Permutation p1 p2 -> JsMap.get key p1 = JsMap.get key p2.
Proof.
  intros Hwf Hp. revert Hwf.
  induction Hp as [|[k v] p1 p2 Hp IH|[k1 v1] [k2 v2] p|p1 p2 p3 Hp1 IH1 Hp2 IH2];
    intros Hwf.
  - reflexivity.
  - simpl. destruct (String.eqb k key); [reflexivity|].
    apply IH. now inversion Hwf.
  - simpl.
    destruct (String.eqb_spec k1 key) as [->|H1];
      destruct (String.eqb_spec k2 key) as [->|H2]; try reflexivity.
    exfalso. unfold JsMap.wf in Hwf. simpl in Hwf.
    inversion Hwf as [|? ? Hnotin _]; subst. apply Hnotin. now left.
  - rewrite IH1 by exact Hwf. apply IH2.
    unfold JsMap.wf, JsMap.keys in *.
    eapply Permutation_NoDup; [apply Permutation_map, Hp1 | exact Hwf].
Qed.

Lemma sortedParams_perm (p1 p2 : JSON.object) :
  JsMap.wf p1 -> Permutation p1 p2 ->
  KeyBuilder.sortedParams p1 = KeyBuilder.sortedParams p2.
Proof.
  intros Hwf Hp. unfold KeyBuilder.sortedParams.
  rewrite (sort_perm_eq (JsMap.keys p1) (JsMap.keys p2))
    by (apply Permutation_map, Hp).
  generalize (KeyBuilder.sort (JsMap.keys p2)) as ks.
  generalize (@nil (string * JSON.value)) as o.
  intros o ks. revert o. induction ks as [|k ks IH]; intros o; simpl.
  - reflexivity.
  - assert (Hg : JSON.get p1 k = JSON.get p2 k)
      by (unfold JSON.get; now rewrite (JsMap_get_perm p1 p2 k Hwf Hp)).
    rewrite Hg. apply IH.
Qed.

End ParamOrder.

(** *** [JSON.stringify] read back *)

Section JsonInjective.

Lemma JSON_unescape_escapeChar (c : ascii) (rest : string) :
  JSON_unescapeHead (JSON.escapeChar c ++ rest) = Some (c, rest).
Proof.
  destruct c as [[] [] [] [] [] [] [] []]; reflexivity.
Qed.

Lemma JSON_escape_inj (s1 s2 r1 r2 : string) :
  (JSON.escape s1 ++ String JSON.dquote r1)%string =
  (JSON.escape s2 ++ String JSON.dquote r2)%string ->
  s1 = s2 /\ r1 = r2.
Proof.
  revert s2. induction s1 as [|c1 s1 IH]; intros [|c2 s2]; simpl; intros Heq.
  - injection Heq as ->. tauto.
  - apply (f_equal JSON_unescapeHead) in Heq.
    rewrite str_app_assoc, JSON_unescape_escapeChar in Heq. discriminate.
  - apply (f_equal JSON_unescapeHead) in Heq.
    rewrite str_app_assoc, JSON_unescape_escapeChar in Heq. discriminate.
  - apply (f_equal JSON_unescapeHead) in Heq.
    rewrite !str_app_assoc, !JSON_unescape_escapeChar in Heq.
    injection Heq as -> Heq. destruct (IH s2 Heq) as [-> ->]. tauto.
Qed.

(** A quoted string ends where its closing quote is. *)
Lemma JSON_quote_inj (s1 s2 r1 r2 : string) :
  (JSON.quote s1 ++ r1)%string = (JSON.quote s2 ++ r2)%string ->
  s1 = s2 /\ r1 = r2.
Proof.
  unfold JSON.quote. simpl. rewrite !str_app_assoc. simpl.
  intros [= Heq]. now apply JSON_escape_inj.
Qed.

Lemma JSON_uint_chars (d : Decimal.uint) :
  allChars JSON_isNumChar (NilEmpty.string_of_uint d) = true.
Proof. induction d; simpl; auto. Qed.

Lemma JSON_number_chars (z : Z) :
  allChars JSON_isNumChar (JSON.numberToString z) = true.
Proof.
  unfold JSON.numberToString.
  destruct (Z.to_int z); simpl; apply JSON_uint_chars.
Qed.

Lemma JSON_number_head (z : Z) :
  exists c rest, JSON.numberToString z = String c rest /\
                 JSON_isNumChar c = true.
Proof.
  pose proof (JSON_number_chars z) as Hall.
  unfold JSON.numberToString in *. destruct z as [|p|p]; simpl in *.
  - now exists "0"%char, "".
  - pose proof (DecimalPos.Unsigned.to_uint_nonnil p) as Hnil.
    destruct (Pos.to_uint p) eqn:Hp; [congruence| ..]; simpl in *;
      eexists; eexists; (split; [reflexivity|]); reflexivity.
  - now exists "-"%char, (NilEmpty.string_of_uint (Pos.to_uint p)).
Qed.

Lemma JSON_number_inj (z1 z2 : Z) :
  JSON.numberToString z1 = JSON.numberToString z2 -> z1 = z2.
Proof.
  unfold JSON.numberToString. intros Heq.
  apply (f_equal NilEmpty.int_of_string) in Heq.
  rewrite !NilEmpty.isi in Heq. injection Heq as Heq.
  now apply DecimalZ.to_int_inj.
Qed.


(** *** Finite numbers read back *)

Lemma allChars_app (p : ascii -> bool) (a b : string) :
  allChars p (a ++ b) = allChars p a && allChars p b.
Proof.
  induction a as [|c a IH]; [reflexivity|].
  cbn [String.append allChars]. now rewrite IH, andb_assoc.
Qed.

Lemma hasChar_app (c : ascii) (a b : string) :
  hasChar c (a ++ b) = hasChar c a || hasChar c b.
Proof.
  induction a as [|x a IH]; [reflexivity|].
  cbn [String.append hasChar]. now rewrite IH, orb_assoc.
Qed.

Lemma allChars_hasChar (p : ascii -> bool) (c : ascii) (s : string) :
  allChars p s = true -> p c = false -> hasChar c s = false.
Proof.
  intros Hall Hc. induction s as [|a s IH]; [reflexivity|].
  cbn [allChars hasChar] in *. apply andb_true_iff in Hall.
  destruct Hall as [Ha Hs]. rewrite (IH Hs), orb_false_r.
  destruct (Ascii.eqb_spec a c) as [->|]; [congruence | reflexivity].
Qed.

Lemma allChars_weaken (p q : ascii -> bool) (s : string) :
  (forall c, p c = true -> q c = true) ->
  allChars p s = true -> allChars q s = true.
Proof.
  intros Hpq. induction s as [|a s IH]; [reflexivity|].
  cbn [allChars]. intros H. apply andb_true_iff in H. destruct H as [Ha Hs].
  now rewrite (Hpq a Ha), (IH Hs).
Qed.

Lemma JSON_digit_numChar (c : ascii) :
  JSON_isDigit c = true -> JSON_isNumChar c = true.
Proof. unfold JSON_isNumChar. now intros ->. Qed.

Lemma JSON_zero_digit (c : ascii) :
  JSON_isZero c = true -> JSON_isDigit c = true.
Proof. unfold JSON_isZero. intros H. apply Ascii.eqb_eq in H. now subst c. Qed.

Lemma JSON_zeros_zero (count : nat) :
  allChars JSON_isZero (JSON.zeros count) = true.
Proof. induction count as [|count IH]; [reflexivity | exact IH]. Qed.

Lemma JSON_zeros_length (count : nat) :
  String.length (JSON.zeros count) = count.
Proof. induction count as [|count IH]; [reflexivity | simpl; now rewrite IH]. Qed.

Lemma JSON_take_drop (count : nat) (s : string) :
  (JSON.take count s ++ JSON.drop count s)%string = s.
Proof.
  revert s. induction count as [|count IH]; intros [|c s]; try reflexivity.
  cbn [JSON.take JSON.drop String.append]. now rewrite IH.
Qed.

Lemma JSON_take_chars (p : ascii -> bool) (count : nat) (s : string) :
  allChars p s = true -> allChars p (JSON.take count s) = true.
Proof.
  revert s. induction count as [|count IH]; intros [|c s]; try reflexivity.
  cbn [JSON.take allChars]. intros H. apply andb_true_iff in H.
  destruct H as [Hc Hs]. now rewrite Hc, (IH s Hs).
Qed.

Lemma JSON_drop_chars (p : ascii -> bool) (count : nat) (s : string) :
  allChars p s = true -> allChars p (JSON.drop count s) = true.
Proof.
  revert s. induction count as [|count IH]; intros [|c s]; try tauto.
  cbn [JSON.drop allChars]. intros H. apply andb_true_iff in H.
  apply IH, H.
Qed.

Lemma JSON_take_length (count : nat) (s : string) :
  (count <= String.length s)%nat -> String.length (JSON.take count s) = count.
Proof.
  revert s. induction count as [|count IH]; intros [|c s]; simpl;
    try reflexivity; intros H; [lia|].
  rewrite IH; [reflexivity | lia].
Qed.

Lemma JSON_uint_digits (d : Decimal.uint) :
  allChars JSON_isDigit (NilEmpty.string_of_uint d) = true.
Proof. induction d; simpl; auto. Qed.

Lemma JSON_natural_digits (z : Z) :
  0 <= z -> allChars JSON_isDigit (JSON.numberToString z) = true.
Proof.
  unfold JSON.numberToString. destruct z as [|p|p]; intros Hz;
    [reflexivity | apply JSON_uint_digits | lia].
Qed.

Lemma JSON_endsNonZero_not_zeros (s : string) :
  JSON_endsNonZero s = true -> allChars JSON_isZero s = false.
Proof.
  induction s as [|c s IH]; [discriminate|].
  cbn [JSON_endsNonZero allChars]. destruct s as [|c' s].
  - unfold JSON_isZero. intros H. apply negb_true_iff in H. now rewrite H.
  - intros H. rewrite (IH H). apply andb_false_r.
Qed.

(** Digits that do not end with a zero, followed by zeros, are read back. *)
Lemma JSON_zeros_inj (s1 s2 : string) (m1 m2 : nat) :
  JSON_endsNonZero s1 = true -> JSON_endsNonZero s2 = true ->
  (s1 ++ JSON.zeros m1)%string = (s2 ++ JSON.zeros m2)%string ->
  s1 = s2 /\ m1 = m2.
Proof.
  assert (Hclash : forall s m m',
            JSON_endsNonZero s = true ->
            JSON.zeros m = (s ++ JSON.zeros m')%string -> False).
  { intros s m m' Hs Heq. apply JSON_endsNonZero_not_zeros in Hs.
    pose proof (JSON_zeros_zero m) as Hz. rewrite Heq, allChars_app in Hz.
    apply andb_true_iff in Hz. destruct Hz as [Hz _]. congruence. }
  revert s2. induction s1 as [|c1 t1 IH]; intros [|c2 t2] H1 H2 Heq;
    try discriminate.
  cbn [String.append] in Heq. injection Heq as -> Heq.
  destruct t1 as [|a1 t1], t2 as [|a2 t2].
  - cbn [String.append] in Heq. split; [reflexivity|].
    apply (f_equal String.length) in Heq. now rewrite !JSON_zeros_length in Heq.
  - exfalso. apply (Hclash (String a2 t2) m1 m2); assumption.
  - exfalso. apply (Hclash (String a1 t1) m2 m1); [assumption | now symmetry].
  - destruct (IH (String a2 t2) H1 H2 Heq) as [-> ->]. now split.
Qed.

Section Digits.
Variables (s : string) (n : Z).
Hypothesis digits_ok : JSON_digits s = true.

Lemma JSON_digits_parts :
  allChars JSON_isDigit s = true /\ JSON_startsNonZero s = true /\
  JSON_endsNonZero s = true.
Proof.
  unfold JSON_digits in digits_ok. apply andb_true_iff in digits_ok.
  destruct digits_ok as [H12 H3]. apply andb_true_iff in H12. tauto.
Qed.

Lemma JSON_digits_head :
  exists c rest, s = String c rest /\ JSON_isDigit c = true /\
                 Ascii.eqb c "0" = false.
Proof.
  destruct JSON_digits_parts as (Hall & Hstart & _).
  destruct s as [|c rest]; [discriminate|]. exists c, rest.
  cbn [allChars] in Hall. apply andb_true_iff in Hall.
  cbn [JSON_startsNonZero] in Hstart. apply negb_true_iff in Hstart. tauto.
Qed.

(** Which notation a text is in shows in the text. *)
Lemma JSON_digitsToString_shape :
  let k := Z.of_nat (String.length s) in
  let t := JSON.digitsToString s n in
  hasChar "e" t = negb ((-5 <=? n) && (n <=? 21)) /\
  hasChar "." t =
    (if (-5 <=? n) && (n <=? 21) then negb (n >=? k) else negb (k =? 1)) /\
  ((-5 <=? n) && (n <=? 21) = true -> (n >=? k) = false ->
   JSON_startsNonZero t = (n >? 0)).
Proof.
  destruct JSON_digits_parts as (Hall & Hstart & _).
  destruct JSON_digits_head as (c & rest & Hs & Hc & Hc0).
  assert (He : forall x, allChars JSON_isDigit x = true -> hasChar "e" x = false)
    by (intros x Hx; now apply (allChars_hasChar JSON_isDigit)).
  assert (Hp : forall x, allChars JSON_isDigit x = true -> hasChar "." x = false)
    by (intros x Hx; now apply (allChars_hasChar JSON_isDigit)).
  assert (Hz : forall m, allChars JSON_isDigit (JSON.zeros m) = true).
  { intros m. apply (allChars_weaken JSON_isZero); [apply JSON_zero_digit|].
    apply JSON_zeros_zero. }
  assert (Hexp_e : hasChar "e" (JSON.numberToString (Z.abs (n - 1))) = false).
  { apply (allChars_hasChar JSON_isDigit); [|reflexivity].
    apply JSON_natural_digits. lia. }
  assert (Hexp_p : hasChar "." (JSON.numberToString (Z.abs (n - 1))) = false).
  { apply (allChars_hasChar JSON_isDigit); [|reflexivity].
    apply JSON_natural_digits. lia. }
  cbv zeta. unfold JSON.digitsToString. cbv zeta.
  destruct ((-5 <=? n) && (n <=? 21)); cbn [negb].
  - destruct (n >=? Z.of_nat (String.length s)) eqn:Hnk; cbn [negb].
    + rewrite !hasChar_app, (He s Hall), (Hp s Hall), (He _ (Hz _)),
        (Hp _ (Hz _)).
      repeat split; discriminate.
    + destruct (n >? 0) eqn:Hn0.
      * rewrite !hasChar_app.
        rewrite (He _ (JSON_take_chars _ _ _ Hall)),
          (He _ (JSON_drop_chars _ _ _ Hall)),
          (Hp _ (JSON_take_chars _ _ _ Hall)).
        split; [reflexivity|]. split; [reflexivity|]. intros _ _.
        rewrite Hs. apply Z.gtb_lt in Hn0.
        destruct (Z.to_nat n) eqn:Hnat; [lia|].
        cbn [JSON.take String.append JSON_startsNonZero]. now rewrite Hc0.
      * rewrite !hasChar_app, (He s Hall), (He _ (Hz _)).
        repeat split; reflexivity.
  - destruct (Z.of_nat (String.length s) =? 1); cbn [negb].
    + rewrite !hasChar_app, (He s Hall), (Hp s Hall), Hexp_e, Hexp_p.
      split; [reflexivity|]. split; [|discriminate].
      now destruct (n <? 0).
    + rewrite !hasChar_app.
      rewrite (He _ (JSON_take_chars _ _ _ Hall)),
        (He _ (JSON_drop_chars _ _ _ Hall)), Hexp_e.
      split; [reflexivity|]. split; [|discriminate].
      rewrite (Hp _ (JSON_take_chars _ _ _ Hall)). reflexivity.
Qed.

(** A finite number starts with a digit. *)
Lemma JSON_digitsToString_head :
  exists c rest, JSON.digitsToString s n = String c rest /\
                 JSON_isDigit c = true.
Proof.
  destruct JSON_digits_head as (c & rest & Hs & Hc & _).
  unfold JSON.digitsToString. cbv zeta. rewrite Hs.
  assert (Hdone : forall c0 x y, x = String c0 y -> JSON_isDigit c0 = true ->
            exists c1 rest1, x = String c1 rest1 /\ JSON_isDigit c1 = true).
  { intros c0 x y Hx Hc0. now exists c0, y. }
  destruct ((-5 <=? n) && (n <=? 21)).
  - destruct (n >=? _); [eapply Hdone; [reflexivity | exact Hc]|].
    destruct (n >? 0) eqn:Hn0;
      [|eapply Hdone; [reflexivity | reflexivity]].
    apply Z.gtb_lt in Hn0. destruct (Z.to_nat n) eqn:Hnat; [lia|].
    eapply Hdone; [reflexivity | exact Hc].
  - destruct (_ =? 1); (eapply Hdone; [reflexivity | exact Hc]).
Qed.

Lemma JSON_digitsToString_chars :
  allChars JSON_isNumChar (JSON.digitsToString s n) = true.
Proof.
  destruct JSON_digits_parts as (Hall & _ & _).
  assert (Hnum : allChars JSON_isNumChar s = true)
    by (apply (allChars_weaken JSON_isDigit); [apply JSON_digit_numChar | exact Hall]).
  assert (Hz : forall m, allChars JSON_isNumChar (JSON.zeros m) = true).
  { intros m. apply (allChars_weaken JSON_isZero); [|apply JSON_zeros_zero].
    intros c Hc. now apply JSON_digit_numChar, JSON_zero_digit. }
  unfold JSON.digitsToString. cbv zeta.
  destruct ((-5 <=? n) && (n <=? 21)).
  - destruct (n >=? _); [now rewrite allChars_app, Hnum, Hz|].
    destruct (n >? 0).
    + rewrite !allChars_app, (JSON_take_chars _ _ _ Hnum),
        (JSON_drop_chars _ _ _ Hnum). reflexivity.
    + cbn [String.append allChars]. now rewrite allChars_app, Hz, Hnum.
  - destruct (_ =? 1).
    + rewrite !allChars_app, Hnum, JSON_number_chars. now destruct (n <? 0).
    + rewrite !allChars_app, (JSON_take_chars _ _ _ Hnum),
        (JSON_drop_chars _ _ _ Hnum), JSON_number_chars. now destruct (n <? 0).
Qed.

End Digits.


(** The notations of [Number::toString]: 1e21, 1.5, 0.000001, 1e-7,
    123456789012345680000 and 1.2345e25. *)
Example JSON_digitsToString_notations :
  JSON.digitsToString "1" 22 = "1e+21" /\
  JSON.digitsToString "15" 1 = "1.5" /\
  JSON.digitsToString "1" (-5) = "0.000001" /\
  JSON.digitsToString "1" (-6) = "1e-7" /\
  JSON.digitsToString "12345678901234568" 21 = "123456789012345680000" /\
  JSON.digitsToString "12345" 26 = "1.2345e+25".
Proof. repeat split. Qed.

(** The exponent is read back from its text. *)
Lemma JSON_exponent_inj (n1 n2 : Z) :
  (-5 <=? n1) && (n1 <=? 21) = false -> (-5 <=? n2) && (n2 <=? 21) = false ->
  String.append (if n1 <? 0 then "-" else "+")
                (JSON.numberToString (Z.abs (n1 - 1))) =
  String.append (if n2 <? 0 then "-" else "+")
                (JSON.numberToString (Z.abs (n2 - 1))) ->
  n1 = n2.
Proof.
  intros H1 H2 Heq.
  apply andb_false_iff in H1. apply andb_false_iff in H2.
  rewrite !Z.leb_gt in H1, H2.
  destruct (Z.ltb_spec n1 0), (Z.ltb_spec n2 0); cbn [String.append] in Heq;
    try discriminate; injection Heq as Heq; apply JSON_number_inj in Heq; lia.
Qed.

(** The digits and the exponent of a positive finite number are read
    back from its text. *)
Lemma JSON_digitsToString_inj (s1 s2 : string) (n1 n2 : Z) :
  JSON_digits s1 = true -> JSON_digits s2 = true ->
  JSON.digitsToString s1 n1 = JSON.digitsToString s2 n2 ->
  s1 = s2 /\ n1 = n2.
Proof.
  intros D1 D2 Heq.
  destruct (JSON_digitsToString_shape s1 n1 D1) as (He1 & Hp1 & Hz1).
  destruct (JSON_digitsToString_shape s2 n2 D2) as (He2 & Hp2 & Hz2).
  cbv zeta in *. rewrite Heq in He1, Hp1, Hz1.
  rewrite He2 in He1. rewrite Hp2 in Hp1. clear He2 Hp2.
  destruct (JSON_digits_parts s1 D1) as (A1 & S1 & E1).
  destruct (JSON_digits_parts s2 D2) as (A2 & S2 & E2).
  unfold JSON.digitsToString in Heq. cbv zeta in Heq.
  destruct ((-5 <=? n1) && (n1 <=? 21)) eqn:R1;
    destruct ((-5 <=? n2) && (n2 <=? 21)) eqn:R2; try discriminate He1.
  - (* the decimal notations *)
    destruct (n1 >=? Z.of_nat (String.length s1)) eqn:K1;
      destruct (n2 >=? Z.of_nat (String.length s2)) eqn:K2;
      try discriminate Hp1.
    + apply JSON_zeros_inj in Heq; try assumption.
      destruct Heq as [-> Hm]. split; [reflexivity|].
      apply Z.geb_le in K1, K2. lia.
    + specialize (Hz1 eq_refl eq_refl). specialize (Hz2 eq_refl eq_refl).
      rewrite Hz2 in Hz1.
      destruct (n1 >? 0) eqn:P1; destruct (n2 >? 0) eqn:P2;
        try discriminate Hz1.
      * apply (delimited_inj JSON_isDigit) in Heq;
          try (apply JSON_take_chars; assumption); try reflexivity.
        destruct Heq as [Htake Hdrop]. injection Hdrop as Hdrop.
        assert (Hs : s1 = s2).
        { rewrite <- (JSON_take_drop (Z.to_nat n1) s1),
                  <- (JSON_take_drop (Z.to_nat n2) s2).
          f_equal; assumption. }
        split; [exact Hs|]. subst s2.
        apply (f_equal String.length) in Htake.
        apply Z.gtb_lt in P1, P2.
        assert (K1' : n1 < Z.of_nat (String.length s1))
          by (destruct (Z.geb_spec n1 (Z.of_nat (String.length s1)));
              [discriminate | lia]).
        assert (K2' : n2 < Z.of_nat (String.length s1))
          by (destruct (Z.geb_spec n2 (Z.of_nat (String.length s1)));
              [discriminate | lia]).
        rewrite !JSON_take_length in Htake by lia. lia.
      * cbn [String.append] in Heq. injection Heq as Heq.
        assert (Hstop : forall x, JSON_startsNonZero x = true ->
                  stopsAt JSON_isZero x = true).
        { intros [|c x]; [discriminate|]. intros H. exact H. }
        apply (delimited_inj JSON_isZero) in Heq;
          try apply JSON_zeros_zero; try (apply Hstop; assumption).
        destruct Heq as [Hm ->]. split; [reflexivity|].
        apply (f_equal String.length) in Hm.
        rewrite !JSON_zeros_length in Hm.
        destruct (Z.gtb_spec n1 0); [discriminate|].
        destruct (Z.gtb_spec n2 0); [discriminate|]. lia.
  - (* the exponent notations *)
    assert (Hstop : forall x, stopsAt JSON_isDigit (String "e" x) = true)
      by reflexivity.
    destruct (Z.of_nat (String.length s1) =? 1) eqn:K1;
      destruct (Z.of_nat (String.length s2) =? 1) eqn:K2;
      try discriminate Hp1.
    + apply (delimited_inj JSON_isDigit) in Heq; try assumption;
        try reflexivity.
      destruct Heq as [-> Hexp]. split; [reflexivity|].
      apply (str_app_inv_head "e") in Hexp.
      now apply (JSON_exponent_inj n1 n2).
    + apply (delimited_inj JSON_isDigit) in Heq;
        try (apply JSON_take_chars; assumption); try reflexivity.
      destruct Heq as [Htake Hrest].
      apply (str_app_inv_head ".") in Hrest.
      apply (delimited_inj JSON_isDigit) in Hrest;
        try (apply JSON_drop_chars; assumption); try reflexivity.
      destruct Hrest as [Hdrop Hexp].
      assert (Hs : s1 = s2).
      { rewrite <- (JSON_take_drop 1 s1), <- (JSON_take_drop 1 s2).
        f_equal; assumption. }
      split; [exact Hs|].
      apply (str_app_inv_head "e") in Hexp.
      now apply (JSON_exponent_inj n1 n2).
Qed.

(** A finite number is read back from its text. *)
Lemma JSON_finite_inj (neg1 neg2 : bool) (s1 s2 : string) (n1 n2 : Z) :
  JSON_digits s1 = true -> JSON_digits s2 = true ->
  ((if neg1 then "-" else "") ++ JSON.digitsToString s1 n1)%string =
  ((if neg2 then "-" else "") ++ JSON.digitsToString s2 n2)%string ->
  neg1 = neg2 /\ s1 = s2 /\ n1 = n2.
Proof.
  intros D1 D2 Heq.
  destruct (JSON_digitsToString_head s1 n1 D1) as (c1 & t1 & Ht1 & Hc1).
  destruct (JSON_digitsToString_head s2 n2 D2) as (c2 & t2 & Ht2 & Hc2).
  destruct neg1, neg2; cbn [String.append] in Heq.
  - injection Heq as Heq. now apply JSON_digitsToString_inj in Heq.
  - rewrite Ht2 in Heq. injection Heq as <- _. discriminate Hc2.
  - rewrite Ht1 in Heq. injection Heq as -> _. discriminate Hc1.
  - now apply JSON_digitsToString_inj in Heq.
Qed.

(** The text of an integer of the safe range is not the text of another
    finite number. *)
Lemma JSON_int_not_finite (z : Z) (negative : bool) (s : string) (n : Z) :
  (Z.abs z <=? JSON_maxSafeInteger) = true ->
  JSON_digits s = true -> JSON_safeDigits s n = false ->
  JSON.numberToString z <>
  ((if negative then "-" else "") ++ JSON.digitsToString s n)%string.
Proof.
  intros Hsafe D Hunsafe Heq. apply Z.leb_le in Hsafe.
  destruct (JSON_digitsToString_shape s n D) as (He & Hp & _).
  destruct (JSON_digitsToString_head s n D) as (c & t & Ht & Hc).
  destruct (JSON_digits_head s D) as (c0 & rest & Hs & _ & Hc0).
  cbv zeta in *.
  assert (Hplain : hasChar "e" (JSON.digitsToString s n) = false /\
                   hasChar "." (JSON.digitsToString s n) = false).
  { assert (Hchars : hasChar "e" (JSON.numberToString z) = false /\
                     hasChar "." (JSON.numberToString z) = false).
    { unfold JSON.numberToString. destruct (Z.to_int z) as [d|d]; simpl;
        split; apply (allChars_hasChar JSON_isDigit);
        try apply JSON_uint_digits; reflexivity. }
    rewrite Heq, !hasChar_app in Hchars. destruct Hchars as [H1 H2].
    apply orb_false_iff in H1. apply orb_false_iff in H2. tauto. }
  destruct Hplain as [He' Hp']. rewrite He' in He. rewrite Hp' in Hp.
  destruct ((-5 <=? n) && (n <=? 21)); [|discriminate He].
  destruct (n >=? Z.of_nat (String.length s)) eqn:K; [|discriminate Hp].
  assert (Htext : JSON.digitsToString s n =
                  (s ++ JSON.zeros (Z.to_nat (n - Z.of_nat (String.length s))))%string).
  { unfold JSON.digitsToString. cbv zeta.
    destruct ((-5 <=? n) && (n <=? 21)) eqn:R.
    - now rewrite K.
    - exfalso. clear - R He' D.
      destruct (JSON_digitsToString_shape s n D) as (He & _).
      cbv zeta in He. rewrite R, He' in He. discriminate. }
  assert (Hvalue : forall p,
            NilEmpty.string_of_uint (Pos.to_uint p) = JSON.digitsToString s n ->
            Z.pos p <= JSON_maxSafeInteger -> False).
  { intros p Hp0 Hle. rewrite Htext in Hp0.
    unfold JSON_safeDigits in Hunsafe. cbv zeta in Hunsafe.
    apply Z.geb_le in K. apply Z.leb_le in K. rewrite K in Hunsafe.
    rewrite <- Hp0, NilEmpty.usu in Hunsafe. cbn [andb] in Hunsafe.
    assert (Hof : Z.of_uint (Pos.to_uint p) = Z.pos p).
    { unfold Z.of_uint. now rewrite DecimalPos.Unsigned.of_to. }
    rewrite Hof in Hunsafe. apply Z.leb_gt in Hunsafe. lia. }
  unfold JSON.numberToString in Heq.
  destruct z as [|p|p]; cbn in Heq.
  - destruct negative; cbn [String.append] in Heq; [discriminate|].
    rewrite Htext, Hs in Heq. cbn [String.append] in Heq.
    injection Heq as <- _. discriminate Hc0.
  - destruct negative; cbn [String.append] in Heq.
    + pose proof (JSON_uint_digits (Pos.to_uint p)) as Hd.
      rewrite Heq in Hd. discriminate Hd.
    + apply (Hvalue p Heq). lia.
  - destruct negative; cbn [String.append] in Heq.
    + injection Heq as Heq. apply (Hvalue p Heq). lia.
    + rewrite Ht in Heq. injection Heq as <- _. discriminate Hc.
Qed.

Lemma JSON_finite_chars (negative : bool) (s : string) (n : Z) :
  JSON_digits s = true ->
  allChars JSON_isNumChar
    ((if negative then "-" else "") ++ JSON.digitsToString s n) = true.
Proof.
  intros D. rewrite allChars_app, (JSON_digitsToString_chars s n D).
  now destruct negative.
Qed.

(** A finite number cannot be taken for the start of another kind of
    value. *)
Lemma JSON_finite_not (negative : bool) (s : string) (n : Z)
    (r1 r2 : string) (c : ascii) :
  JSON_digits s = true -> JSON_isNumChar c = false ->
  (((if negative then "-" else "") ++ JSON.digitsToString s n) ++ r1)%string
  <> String c r2.
Proof.
  intros D Hc Heq.
  destruct (JSON_digitsToString_head s n D) as (c' & rest & Ht & Hc').
  rewrite Ht in Heq. apply JSON_digit_numChar in Hc'.
  destruct negative; cbn [String.append] in Heq; injection Heq as <- _;
    [discriminate Hc | congruence].
Qed.

End JsonInjective.

Section JsonObjects.

Lemma JSON_concat_tail (m : string) (rest : list string) :
  (String.concat "," (m :: rest) ++ "}")%string = (m ++ JSON_tail rest)%string.
Proof.
  destruct rest as [|m' rest]; simpl; [reflexivity|].
  now rewrite str_app_assoc.
Qed.

Lemma JSON_tail_stops (rest : list string) :
  stopsAt JSON_isNumChar (JSON_tail rest) = true.
Proof. now destruct rest. Qed.

Lemma JSON_tail_inj (l1 l2 : list string) :
  JSON_tail l1 = JSON_tail l2 ->
  (String.concat "," l1 ++ "}")%string = (String.concat "," l2 ++ "}")%string.
Proof.
  destruct l1 as [|a l1], l2 as [|b l2]; simpl; try discriminate;
    [reflexivity|].
  intros [= H]. exact H.
Qed.

(** A number cannot be taken for the start of another kind of value. *)
Lemma JSON_number_not (z : Z) (r1 r2 : string) (c : ascii) :
  JSON_isNumChar c = false ->
  (JSON.numberToString z ++ r1)%string <> String c r2.
Proof.
  intros Hc Heq. destruct (JSON_number_head z) as (c' & rest & Hz & Hc').
  rewrite Hz in Heq. simpl in Heq. injection Heq as -> _. congruence.
Qed.

Lemma JSON_value_inj (v1 v2 : JSON.value) (a b r1 r2 : string) :
  JSON_representable v1 = true -> JSON_representable v2 = true ->
  JSON.serializeProperty v1 = Some a -> JSON.serializeProperty v2 = Some b ->
  stopsAt JSON_isNumChar r1 = true -> stopsAt JSON_isNumChar r2 = true ->
  (a ++ r1)%string = (b ++ r2)%string -> v1 = v2 /\ r1 = r2.
Proof.
  intros R1 R2 S1 S2 T1 T2 Heq.
  destruct v1 as [| |b1| |z1|g1 d1 n1|s1]; try discriminate R1;
    destruct v2 as [| |b2| |z2|g2 d2 n2|s2]; try discriminate R2;
    try destruct b1; try destruct b2;
    cbn [JSON.serializeProperty] in S1, S2;
    injection S1 as <-; injection S2 as <-;
    cbn [JSON_representable] in R1, R2;
    try (apply andb_true_iff in R1; destruct R1 as [D1 U1];
         apply negb_true_iff in U1);
    try (apply andb_true_iff in R2; destruct R2 as [D2 U2];
         apply negb_true_iff in U2);
    try (exfalso; eapply JSON_number_not; [|exact Heq]; reflexivity);
    try (exfalso; eapply JSON_number_not; [|symmetry; exact Heq]; reflexivity);
    try (exfalso; eapply (JSON_finite_not g1 d1 n1); [exact D1| |exact Heq];
         reflexivity);
    try (exfalso; eapply (JSON_finite_not g2 d2 n2);
         [exact D2| |symmetry; exact Heq]; reflexivity);
    try (simpl in Heq; discriminate Heq);
    try (simpl in Heq; injection Heq as ->; tauto).
  - apply (delimited_inj JSON_isNumChar) in Heq;
      try apply JSON_number_chars; try assumption.
    destruct Heq as [Hz ->]. apply JSON_number_inj in Hz. now subst.
  - exfalso.
    apply (delimited_inj JSON_isNumChar) in Heq;
      try apply JSON_number_chars; try (now apply JSON_finite_chars);
      try assumption.
    destruct Heq as [Hz _]. exact (JSON_int_not_finite z1 g2 d2 n2 R1 D2 U2 Hz).
  - exfalso.
    apply (delimited_inj JSON_isNumChar) in Heq;
      try apply JSON_number_chars; try (now apply JSON_finite_chars);
      try assumption.
    destruct Heq as [Hz _]. symmetry in Hz.
    exact (JSON_int_not_finite z2 g1 d1 n1 R2 D1 U1 Hz).
  - apply (delimited_inj JSON_isNumChar) in Heq;
      try (now apply JSON_finite_chars); try assumption.
    destruct Heq as [Hz ->]. apply JSON_finite_inj in Hz; try assumption.
    destruct Hz as (-> & -> & ->). tauto.
  - apply JSON_quote_inj in Heq. destruct Heq as [-> ->]. tauto.
Qed.

Lemma JSON_plain_serializes (v : JSON.value) :
  JSON_representable v = true -> exists sv, JSON.serializeProperty v = Some sv.
Proof.
  destruct v as [| |[]| | | |]; simpl; try discriminate; eauto.
Qed.

(** The members of an object are read back from its text. *)
Lemma JSON_members_inj (o1 o2 : JSON.object) :
  JSON_plain o1 -> JSON_plain o2 ->
  (String.concat "," (JSON.members o1) ++ "}")%string =
  (String.concat "," (JSON.members o2) ++ "}")%string ->
  o1 = o2.
Proof.
  revert o2. induction o1 as [|[k1 v1] o1 IH]; intros [|[k2 v2] o2] P1 P2 Heq.
  - reflexivity.
  - inversion P2 as [|? ? [_ R2] _]; subst. simpl in R2.
    destruct (JSON_plain_serializes v2 R2) as [sv2 S2].
    cbn [JSON.members] in Heq. rewrite S2, JSON_concat_tail in Heq.
    unfold JSON.quote in Heq. simpl in Heq. discriminate.
  - inversion P1 as [|? ? [_ R1] _]; subst. simpl in R1.
    destruct (JSON_plain_serializes v1 R1) as [sv1 S1].
    cbn [JSON.members] in Heq. rewrite S1, JSON_concat_tail in Heq.
    unfold JSON.quote in Heq. simpl in Heq. discriminate.
  - inversion P1 as [|? ? [_ R1] P1']; subst.
    inversion P2 as [|? ? [_ R2] P2']; subst. simpl in R1, R2.
    destruct (JSON_plain_serializes v1 R1) as [sv1 S1].
    destruct (JSON_plain_serializes v2 R2) as [sv2 S2].
    cbn [JSON.members] in Heq.
    rewrite S1, S2, !JSON_concat_tail, !str_app_assoc in Heq.
    apply JSON_quote_inj in Heq. destruct Heq as [-> Heq].
    simpl in Heq. injection Heq as Heq.
    apply (JSON_value_inj v1 v2) in Heq;
      try assumption; try apply JSON_tail_stops.
    destruct Heq as [-> Htail]. f_equal.
    apply IH; try assumption. now apply JSON_tail_inj.
Qed.

Lemma JSON_stringify_inj (o1 o2 : JSON.object) :
  JSON_plain o1 -> JSON_plain o2 ->
  JSON.stringify o1 = JSON.stringify o2 -> o1 = o2.
Proof.
  unfold JSON.stringify. simpl. intros P1 P2 [= Heq].
  now apply JSON_members_inj.
Qed.

Lemma JSON_insertIndex_perm (i : N) key v (o : JSON.object) :
  Permutation (JSON.insertIndex i key v o) ((key, v) :: o).
Proof.
  induction o as [|[k v'] o IH]; simpl; [apply Permutation_refl|].
  destruct (JSON.arrayIndex k) as [j|]; [|apply Permutation_refl].
  destruct (j <? i)%N; [|apply Permutation_refl].
  eapply Permutation_trans; [apply perm_skip, IH | apply perm_swap].
Qed.

(** An assignment to a new key adds the property. *)
Lemma JSON_assign_fresh (o : JSON.object) key v :
  key <> "__proto__" -> JsMap.get key o = None ->
  Permutation (JSON.assign o key v) ((key, v) :: o).
Proof.
  intros Hproto Hk. unfold JSON.assign.
  destruct (String.eqb_spec key "__proto__"); [contradiction|].
  apply JsMap_has_false in Hk. rewrite Hk.
  destruct (JSON.arrayIndex key) as [i|].
  - apply JSON_insertIndex_perm.
  - apply Permutation_sym, Permutation_cons_append.
Qed.

Lemma JSON_assign_all (f : string -> JSON.value) (ks : list string)
    (o : JSON.object) :
  NoDup ks ->
  (forall k, In k ks -> k <> "__proto__" /\ JsMap.get k o = None) ->
  Permutation (fold_left (fun o k => JSON.assign o k (f k)) ks o)
              (List.map (fun k => (k, f k)) ks ++ o).
Proof.
  revert o. induction ks as [|k ks IH]; intros o Hnd Hfresh; simpl.
  - apply Permutation_refl.
  - inversion Hnd as [|? ? Hnotin Hnd']; subst.
    destruct (Hfresh k (or_introl eq_refl)) as [Hproto Hk].
    pose proof (JSON_assign_fresh o k (f k) Hproto Hk) as Hperm.
    eapply Permutation_trans.
    + apply IH; [exact Hnd'|]. intros k' Hin.
      destruct (Hfresh k' (or_intror Hin)) as [Hproto' Hk'].
      split; [exact Hproto'|]. apply JsMap_get_In. intros Hin'.
      apply (Permutation_in _ (Permutation_map fst Hperm)) in Hin'.
      destruct Hin' as [Heq|Hin'].
      * simpl in Heq. subst k'. contradiction.
      * apply JsMap_get_In in Hk'. contradiction.
    + eapply Permutation_trans;
        [apply Permutation_app_head, Hperm | apply Permutation_sym, Permutation_middle].
Qed.

Lemma JSON_rebuild (p : JSON.object) :
  JsMap.wf p -> List.map (fun k => (k, JSON.get p k)) (JsMap.keys p) = p.
Proof.
  induction p as [|[k v] p IH]; intros Hwf; [reflexivity|].
  unfold JsMap.wf in Hwf. simpl in Hwf.
  inversion Hwf as [|? ? Hnotin Hwf']; subst. simpl. f_equal.
  - unfold JSON.get. simpl. now rewrite String.eqb_refl.
  - rewrite <- (IH Hwf') at 2. apply map_ext_in. intros k' Hin.
    unfold JSON.get. simpl.
    destruct (String.eqb_spec k k') as [->|]; [contradiction | reflexivity].
Qed.

(** [sortedParams] holds the parameters of the record, all of them and
    nothing else. *)
Lemma sortedParams_all (p : JSON.object) :
  JsMap.wf p -> JSON_plain p -> Permutation (KeyBuilder.sortedParams p) p.
Proof.
  intros Hwf Hplain. unfold KeyBuilder.sortedParams.
  eapply Permutation_trans.
  - apply JSON_assign_all.
    + eapply Permutation_NoDup; [apply Permutation_sym, sort_perm | exact Hwf].
    + intros k Hin. split; [|reflexivity].
      apply (Permutation_in _ (sort_perm (JsMap.keys p))) in Hin.
      unfold JsMap.keys in Hin. apply in_map_iff in Hin.
      destruct Hin as ([k' v] & <- & Hin). unfold JSON_plain in Hplain.
      rewrite Forall_forall in Hplain. apply (Hplain _ Hin).
  - rewrite app_nil_r. rewrite <- (JSON_rebuild p Hwf) at 2.
    apply Permutation_map, sort_perm.
Qed.

End JsonObjects.

Lemma generateCacheKey_inj (queryName : string) (p1 p2 : JSON.object) :
  JsMap.wf p1 -> JsMap.wf p2 -> JSON_plain p1 -> JSON_plain p2 ->
  KeyBuilder.generateCacheKey queryName p1 =
  KeyBuilder.generateCacheKey queryName p2 ->
  Permutation p1 p2.
Proof.
  intros W1 W2 P1 P2 Heq. unfold KeyBuilder.generateCacheKey in Heq.
  apply str_app_inv_head in Heq.
  apply (str_app_inv_head ":") in Heq.
  pose proof (sortedParams_all p1 W1 P1) as Hs1.
  pose proof (sortedParams_all p2 W2 P2) as Hs2.
  apply JSON_stringify_inj in Heq.
  - rewrite Heq in Hs1.
    eapply Permutation_trans; [apply Permutation_sym, Hs1 | exact Hs2].
  - unfold JSON_plain.
    eapply Permutation_Forall; [apply Permutation_sym, Hs1 | exact P1].
  - unfold JSON_plain.
    eapply Permutation_Forall; [apply Permutation_sym, Hs2 | exact P2].
Qed.

(** C9 as stated fails: parameter records with different values can
    have the same key. [JSON.stringify] writes a non-finite number as
    [null], and the assignment that fills [sortedParams] drops a parameter
    named [__proto__]. *)
Lemma C9_key_builder_counterexample :
  let p1 : JSON.object := [("a", JSON.Null)] in
  let p2 : JSON.object := [("a", JSON.NaN)] in
  let p3 : JSON.object := [("__proto__", JSON.Int 1)] in
  let p4 : JSON.object := [("__proto__", JSON.Int 2)] in
  JSON.get p1 "a" <> JSON.get p2 "a" /\
  KeyBuilder.generateCacheKey "op" p1 = KeyBuilder.generateCacheKey "op" p2 /\
  JSON.get p3 "__proto__" <> JSON.get p4 "__proto__" /\
  KeyBuilder.generateCacheKey "op" p3 = KeyBuilder.generateCacheKey "op" p4 /\
  ~ (forall (queryName : string) (q1 q2 : JSON.object),
        JsMap.wf q1 -> JsMap.wf q2 ->
        (exists k, JSON.get q1 k <> JSON.get q2 k) ->
        KeyBuilder.generateCacheKey queryName q1 <>
        KeyBuilder.generateCacheKey queryName q2).
Proof.
  cbv zeta. split; [discriminate|]. split; [reflexivity|].
  split; [discriminate|]. split; [reflexivity|].
  intros H.
  apply (H "op" [("a", JSON.Null)] [("a", JSON.NaN)]).
  - repeat constructor. simpl. tauto.
  - repeat constructor. simpl. tauto.
  - exists "a". discriminate.
  - reflexivity.
Qed.

(** C9 (amended). The key does not depend on the order in which the
    parameters are supplied: two records with the same parameters in
    different orders have the same key, as [{a:1,b:2}] and [{b:2,a:1}] do.
    Among the records whose values [JSON.stringify] can represent (null,
    booleans, finite numbers, strings: not [undefined], not a number that
    is not finite) and that have no parameter named [__proto__], the key
    determines the
    parameters: equal keys under one operation name come from the same
    parameters, so two records in which some parameter has different values
    have different keys. *)
Theorem C9_key_builder :
  (forall (queryName : string) (p1 p2 : JSON.object),
      JsMap.wf p1 -> Permutation p1 p2 ->
      KeyBuilder.generateCacheKey queryName p1 =
      KeyBuilder.generateCacheKey queryName p2) /\
  KeyBuilder.generateCacheKey "op" [("a", JSON.Int 1); ("b", JSON.Int 2)] =
  KeyBuilder.generateCacheKey "op" [("b", JSON.Int 2); ("a", JSON.Int 1)] /\
  (forall (queryName : string) (p1 p2 : JSON.object),
      JsMap.wf p1 -> JsMap.wf p2 -> JSON_plain p1 -> JSON_plain p2 ->
      (KeyBuilder.generateCacheKey queryName p1 =
       KeyBuilder.generateCacheKey queryName p2 -> Permutation p1 p2) /\
      ((exists k, JSON.get p1 k <> JSON.get p2 k) ->
       KeyBuilder.generateCacheKey queryName p1 <>
       KeyBuilder.generateCacheKey queryName p2)).
Proof.
  split; [|split].
  - intros queryName p1 p2 Hwf Hp. unfold KeyBuilder.generateCacheKey.
    now rewrite (sortedParams_perm p1 p2 Hwf Hp).
  - reflexivity.
  - intros queryName p1 p2 W1 W2 P1 P2. split.
    + now apply generateCacheKey_inj.
    + intros [k Hk] Heq. apply Hk. unfold JSON.get.
      rewrite (JsMap_get_perm p1 p2 k W1); [reflexivity|].
      now apply (generateCacheKey_inj queryName).
Qed.

(** C9 (amended) at three parameter records: two orders of the same
    parameters, among them a number with a fraction, and a different value
    of that parameter. *)
Lemma C9_key_builder_witness :
  let p1 : JSON.object :=
    [("limit", JSON.Int 10); ("score", JSON.Num false "5" 0);
     ("7", JSON.Bool true)] in
  let p2 : JSON.object :=
    [("score", JSON.Num false "5" 0); ("7", JSON.Bool true);
     ("limit", JSON.Int 10)] in
  let p3 : JSON.object :=
    [("limit", JSON.Int 10); ("score", JSON.Num false "25" 0);
     ("7", JSON.Bool true)] in
  KeyBuilder.generateCacheKey "search" p1 =
  KeyBuilder.generateCacheKey "search" p2 /\
  KeyBuilder.generateCacheKey "search" p1 <>
  KeyBuilder.generateCacheKey "search" p3.
Proof.
  cbv zeta. destruct C9_key_builder as (Horder & _ & Hinj).
  assert (Hwf : forall v : JSON.value,
             JsMap.wf [("limit", JSON.Int 10); ("score", v);
                       ("7", JSON.Bool true)]).
  { intros v. unfold JsMap.wf. simpl.
    repeat constructor; simpl; intuition discriminate. }
  assert (Hplain : forall s : string,
             JSON_representable (JSON.Num false s 0) = true ->
             JSON_plain [("limit", JSON.Int 10); ("score", JSON.Num false s 0);
                         ("7", JSON.Bool true)]).
  { intros s Hs. unfold JSON_plain.
    repeat constructor; try discriminate; exact Hs. }
  split.
  - apply Horder; [apply Hwf|].
    apply (Permutation_cons_append
             [("score", JSON.Num false "5" 0); ("7", JSON.Bool true)]
             ("limit", JSON.Int 10)).
  - apply (Hinj "search" _ _ (Hwf _) (Hwf _) (Hplain "5" eq_refl)
             (Hplain "25" eq_refl)).
    exists "score". discriminate.
Defined.

(** * Further properties *)

(** ** The bounded ordered cache: the other methods *)

Section LRUMore.
Context {T W : Type}.
Implicit Types (c : LRU.t T W) (w : W) (key k : string) (v : T) (now : Z).

Lemma LRU_isExpired_aged c (e : LRU.CacheEntry T) now :
  LRU.isExpired c e now = LRU_aged (LRU.maxAge c) (LRU.timestamp e) now.
Proof.
  unfold LRU.isExpired, LRU_aged. destruct (LRU.maxAge c) as [age|]; [|reflexivity].
  now destruct (age =? 0).
Qed.

(** What [get] returns, read off the binding of the key. *)
Lemma LRU_get_result c key now :
  fst (LRU.get c key now) =
  match JsMap.get key (LRU.cache c) with
  | None => None
  | Some e => if LRU.isExpired c e now then None else Some (LRU.value e)
  end.
Proof.
  unfold LRU.get. destruct (JsMap.get key (LRU.cache c)) as [e|]; [|reflexivity].
  now destruct (LRU.isExpired c e now).
Qed.

Lemma LRU_get_maxAge c key now :
  LRU.maxAge (snd (LRU.get c key now)) = LRU.maxAge c.
Proof.
  unfold LRU.get. destruct (JsMap.get key (LRU.cache c)) as [e|]; [|reflexivity].
  now destruct (LRU.isExpired c e now).
Qed.

(** The bindings after [get]: the binding of the key goes when it has
    expired, and no other binding changes. *)
Lemma LRU_get_store c key now k :
  JsMap.get k (LRU.cache (snd (LRU.get c key now))) =
  if String.eqb k key then
    match JsMap.get key (LRU.cache c) with
    | None => None
    | Some e => if LRU.isExpired c e now then None else Some e
    end
  else JsMap.get k (LRU.cache c).
Proof.
  unfold LRU.get.
  destruct (JsMap.get key (LRU.cache c)) as [e|] eqn:Hk.
  - destruct (LRU.isExpired c e now); cbn [snd LRU.cache].
    + destruct (String.eqb_spec k key) as [->|Hne].
      * apply JsMap_get_delete_eq.
      * now apply JsMap_get_delete_ne.
    + rewrite (LRU_promote_shape key e e), JsMap_get_app_last.
      destruct (String.eqb_spec k key) as [->|Hne].
      * now rewrite JsMap_get_delete_eq, String.eqb_refl.
      * rewrite (JsMap_get_delete_ne key k _ Hne).
        destruct (JsMap.get k (LRU.cache c)); [reflexivity|].
        destruct (String.eqb_spec key k); [congruence | reflexivity].
  - cbn [snd LRU.cache]. destruct (String.eqb_spec k key) as [->|]; congruence.
Qed.

Lemma LRU_aged_later (maxAge : option Z) (timestamp now later : Z) :
  now <= later -> LRU_aged maxAge timestamp now = true ->
  LRU_aged maxAge timestamp later = true.
Proof.
  unfold LRU_aged. destruct maxAge as [age|]; [|discriminate].
  intros Hle H. apply andb_true_iff in H. destruct H as [H0 Hgt].
  rewrite H0. simpl. apply Z.gtb_lt in Hgt. apply Z.gtb_lt. lia.
Qed.

Lemma LRU_make_room_absent c key w :
  JsMap.get key (fst (LRU.make_room c key w)) = None.
Proof.
  unfold LRU.make_room.
  destruct (JsMap.has key (LRU.cache c)) eqn:Hhas; [apply JsMap_get_delete_eq|].
  apply JsMap_has_false in Hhas.
  destruct (JsMap.size (LRU.cache c) >=? LRU.maxSize c); [|exact Hhas].
  destruct (JsMap.first_key (LRU.cache c)) as [k0|] eqn:Hfirst; [|exact Hhas].
  assert (Hgoal : JsMap.get key (JsMap.delete k0 (LRU.cache c)) = None).
  { destruct (String.eqb_spec key k0) as [->|Hne];
      [apply JsMap_get_delete_eq | now rewrite JsMap_get_delete_ne]. }
  cbv zeta. destruct (LRU.onEvict c), (JsMap.get k0 (LRU.cache c)); exact Hgoal.
Qed.

(** The bindings after [set]. *)
Lemma LRU_set_store c key v now w :
  LRU.cache (fst (LRU.set c key v now w)) =
  fst (LRU.make_room c key w) ++ [(key, LRU.mkEntry v now)].
Proof.
  unfold LRU.set. pose proof (LRU_make_room_absent c key w) as Habs.
  destruct (LRU.make_room c key w) as [m w']. simpl in *.
  now apply JsMap_set_absent.
Qed.

End LRUMore.

(** X1. [set] then [get]. After [set(key, v)] at time [now] the key is bound
    to [v] with timestamp [now], whatever the cache held; a [get] at time
    [later] returns [v] unless the entry has aged ([maxAge] is neither
    absent nor 0 and [later - now > maxAge]), in which case it returns
    [undefined] and the binding is removed. *)
Theorem X1_lru_set_then_get {T W : Type} (c : LRU.t T W) (key : string)
    (v : T) (now : Z) (w : W) (later : Z) :
  let c' := fst (LRU.set c key v now w) in
  JsMap.get key (LRU.cache c') = Some (LRU.mkEntry v now) /\
  fst (LRU.get c' key later) =
    (if LRU_aged (LRU.maxAge c) now later then None else Some v) /\
  (LRU_aged (LRU.maxAge c) now later = true ->
   JsMap.get key (LRU.cache (snd (LRU.get c' key later))) = None).
Proof.
  intros c'.
  assert (Hk : JsMap.get key (LRU.cache c') = Some (LRU.mkEntry v now)).
  { unfold c'. rewrite LRU_set_store, JsMap_get_app_last,
      LRU_make_room_absent. now rewrite String.eqb_refl. }
  assert (Hage : LRU.maxAge c' = LRU.maxAge c).
  { unfold c', LRU.set. now destruct (LRU.make_room c key w). }
  split; [exact Hk|]. split.
  - rewrite LRU_get_result, Hk, LRU_isExpired_aged, Hage. simpl.
    now destruct (LRU_aged (LRU.maxAge c) now later).
  - intros Haged. rewrite LRU_get_store, String.eqb_refl, Hk,
      LRU_isExpired_aged, Hage. simpl. now rewrite Haged.
Qed.

(** X2. The frame of [set]. In a cache that satisfies its invariant,
    [set(key, ...)] changes the binding of no other key, but for the oldest
    key when [key] is new and the cache is full: this one loses its
    binding. *)
Theorem X2_lru_set_frame {T W : Type} (c : LRU.t T W) (key : string)
    (v : T) (now : Z) (w : W) :
  LRU_inv c ->
  forall k, k <> key ->
    JsMap.get k (LRU.cache (fst (LRU.set c key v now w))) =
    if LRU_evicting c key &&
       match JsMap.first_key (LRU.cache c) with
       | Some oldest => String.eqb oldest k
       | None => false
       end
    then None
    else JsMap.get k (LRU.cache c).
Proof.
  intros Hinv k Hne.
  assert (Hlast : forall m : JsMap.t (LRU.CacheEntry T),
             JsMap.get k (m ++ [(key, LRU.mkEntry v now)]) = JsMap.get k m).
  { intros m. rewrite JsMap_get_app_last. destruct (JsMap.get k m); [reflexivity|].
    destruct (String.eqb_spec key k); [congruence | reflexivity]. }
  destruct (LRU_evicting c key) eqn:Hev.
  - destruct (LRU_set_full c key v now w Hinv Hev) as (k0 & e0 & rest & Hm & Hset).
    rewrite Hset, Hm. cbn [fst LRU.with_cache LRU.cache JsMap.first_key andb].
    rewrite Hlast. destruct Hinv as (Hwf & _). rewrite Hm in Hwf.
    simpl. destruct (String.eqb_spec k0 k) as [->|Hne0]; [|reflexivity].
    apply JsMap_get_In. unfold JsMap.wf in Hwf. simpl in Hwf. now inversion Hwf.
  - cbn [andb]. rewrite LRU_set_store, Hlast.
    unfold LRU_evicting in Hev. unfold LRU.make_room.
    destruct (JsMap.has key (LRU.cache c)); simpl in *.
    + now apply JsMap_get_delete_ne.
    + rewrite Hev. reflexivity.
Qed.

(** X2 at a full cache of capacity 2. *)
Lemma X2_lru_set_frame_witness :
  JsMap.get "b" (LRU.cache (fst (LRU.set LRU_full_example "z" 9 10 []))) =
    JsMap.get "b" (LRU.cache LRU_full_example) /\
  JsMap.get "a" (LRU.cache (fst (LRU.set LRU_full_example "z" 9 10 []))) = None.
Proof.
  pose proof (X2_lru_set_frame LRU_full_example "z" 9 10 []
                LRU_full_example_inv) as H.
  split.
  - rewrite (H "b"); [reflexivity | discriminate].
  - rewrite (H "a"); [reflexivity | discriminate].
Defined.

Section LRUReads.
Context {T W : Type}.
Implicit Types (c : LRU.t T W) (w : W) (key k : string) (v : T) (now : Z).

Lemma LRU_has_store c key now k :
  JsMap.get k (LRU.cache (snd (LRU.has c key now))) =
  if String.eqb k key then
    match JsMap.get key (LRU.cache c) with
    | None => None
    | Some e => if LRU.isExpired c e now then None else Some e
    end
  else JsMap.get k (LRU.cache c).
Proof.
  unfold LRU.has.
  destruct (JsMap.get key (LRU.cache c)) as [e|] eqn:Hk.
  - destruct (LRU.isExpired c e now); cbn [snd LRU.cache LRU.with_cache].
    + destruct (String.eqb_spec k key) as [->|Hne].
      * apply JsMap_get_delete_eq.
      * now apply JsMap_get_delete_ne.
    + destruct (String.eqb_spec k key) as [->|]; congruence.
  - cbn [snd]. destruct (String.eqb_spec k key) as [->|]; congruence.
Qed.

Lemma LRU_has_maxAge c key now :
  LRU.maxAge (snd (LRU.has c key now)) = LRU.maxAge c.
Proof.
  unfold LRU.has. destruct (JsMap.get key (LRU.cache c)) as [e|]; [|reflexivity].
  now destruct (LRU.isExpired c e now).
Qed.

(** A cache that differs from [c] by the removal of a binding aged at
    [now] answers every later [get] as [c] does. *)
Lemma LRU_later_get c c' key now k later :
  now <= later ->
  LRU.maxAge c' = LRU.maxAge c ->
  JsMap.get k (LRU.cache c') =
    (if String.eqb k key then
       match JsMap.get key (LRU.cache c) with
       | None => None
       | Some e => if LRU.isExpired c e now then None else Some e
       end
     else JsMap.get k (LRU.cache c)) ->
  fst (LRU.get c' k later) = fst (LRU.get c k later).
Proof.
  intros Hle Hage Hstore. rewrite !LRU_get_result, Hstore.
  destruct (String.eqb_spec k key) as [->|Hne].
  - destruct (JsMap.get key (LRU.cache c)) as [e|]; [|reflexivity].
    rewrite !LRU_isExpired_aged.
    destruct (LRU_aged (LRU.maxAge c) (LRU.timestamp e) now) eqn:Haged.
    + now rewrite (LRU_aged_later _ _ _ _ Hle Haged).
    + now rewrite LRU_isExpired_aged, Hage.
  - destruct (JsMap.get k (LRU.cache c)) as [e|]; [|reflexivity].
    now rewrite !LRU_isExpired_aged, Hage.
Qed.

End LRUReads.

(** X3. [has] against [get]. [has(key)] answers [true] exactly when
    [get(key)] at the same time returns a value; it never touches the
    hit and miss counters; when it answers [true] it changes nothing
    (the key keeps its place in the eviction order), and when it answers
    [false] the only change is that the key is no longer bound. *)
Theorem X3_lru_has_agrees_with_get {T W : Type} (c : LRU.t T W)
    (key : string) (now : Z) :
  let r := LRU.has c key now in
  (fst r = true <-> exists v, fst (LRU.get c key now) = Some v) /\
  LRU.hits (snd r) = LRU.hits c /\
  LRU.misses (snd r) = LRU.misses c /\
  (fst r = true -> snd r = c) /\
  (fst r = false ->
   LRU.cache (snd r) = JsMap.delete key (LRU.cache c) /\
   LRU.cache (snd r) = LRU.cache (snd (LRU.get c key now))).
Proof.
  unfold LRU.has, LRU.get.
  destruct (JsMap.get key (LRU.cache c)) as [e|] eqn:Hk.
  - destruct (LRU.isExpired c e now); cbn [fst snd].
    + repeat split; try reflexivity; try discriminate.
      intros [v Hv]. discriminate.
    + repeat split; try reflexivity; try discriminate. now exists (LRU.value e).
  - cbn [fst snd]. repeat split; try reflexivity; try discriminate.
    + intros [v Hv]. discriminate.
    + symmetry. now apply JsMap_delete_absent.
Qed.

(** X4. [delete]. [delete(key)] returns whether the key was bound, whatever
    its age: for a bound key that has expired it returns [true] where
    [has] answers [false]. Afterwards [has] and [get] find nothing under
    the key, every other key is bound as before, and the counters are
    unchanged. *)
Theorem X4_lru_delete {T W : Type} (c : LRU.t T W) (key : string) :
  let r := LRU.delete c key in
  (fst r = true <-> In key (JsMap.keys (LRU.cache c))) /\
  (forall now, fst (LRU.has (snd r) key now) = false /\
               fst (LRU.get (snd r) key now) = None) /\
  (forall k, k <> key ->
     JsMap.get k (LRU.cache (snd r)) = JsMap.get k (LRU.cache c)) /\
  LRU.hits (snd r) = LRU.hits c /\ LRU.misses (snd r) = LRU.misses c /\
  (forall e now, JsMap.get key (LRU.cache c) = Some e ->
     LRU.isExpired c e now = true ->
     fst (LRU.has c key now) = false /\ fst r = true).
Proof.
  unfold LRU.delete. cbn [fst snd LRU.with_cache LRU.cache LRU.hits LRU.misses].
  split; [|split; [|split; [|split; [|split]]]]; try reflexivity.
  - unfold JsMap.has. destruct (JsMap.get key (LRU.cache c)) as [e|] eqn:Hk.
    + split; [intros _|reflexivity].
      destruct (in_dec string_dec key (JsMap.keys (LRU.cache c))) as [Hin|Hout];
        [exact Hin|]. apply JsMap_get_In in Hout. congruence.
    + split; [discriminate|]. intros Hin. exfalso. revert Hin Hk.
      induction (LRU.cache c) as [|[k0 e0] m IH]; simpl; [tauto|].
      intros [->|Hin]; [now rewrite String.eqb_refl|].
      destruct (String.eqb k0 key); [discriminate | now apply IH].
  - intros now. unfold LRU.has, LRU.get. cbn [LRU.cache LRU.with_cache].
    now rewrite JsMap_get_delete_eq.
  - intros k Hne. now apply JsMap_get_delete_ne.
  - intros e now Hk Hexp. unfold LRU.has, JsMap.has. now rewrite Hk, Hexp.
Qed.

(** X7. The age of an entry is counted from its last [set]: a [get] or a
    [has] that finds the entry does not renew it. Hence a read at time
    [now] never changes what a [get], of the same key or another, returns
    at a later time. *)
Theorem X7_lru_reads_do_not_renew {T W : Type} (c : LRU.t T W)
    (key : string) (now : Z) (k : string) (later : Z) :
  now <= later ->
  fst (LRU.get (snd (LRU.get c key now)) k later) = fst (LRU.get c k later) /\
  fst (LRU.get (snd (LRU.has c key now)) k later) = fst (LRU.get c k later).
Proof.
  intros Hle. split.
  - apply (LRU_later_get c _ key now k later Hle).
    + apply LRU_get_maxAge.
    + apply LRU_get_store.
  - apply (LRU_later_get c _ key now k later Hle).
    + apply LRU_has_maxAge.
    + apply LRU_has_store.
Qed.

(** X7 on a cache with [maxAge] 100: the entry set at time 0 and read at
    time 60 is gone at time 101. *)
Lemma X7_lru_reads_do_not_renew_witness :
  60 <= 101 /\
  fst (LRU.get (snd (LRU.get LRU_full_example "a" 60)) "a" 101) = None.
Proof.
  split; [lia|].
  rewrite (proj1 (X7_lru_reads_do_not_renew LRU_full_example "a" 60 "a" 101
                    ltac:(lia))).
  reflexivity.
Defined.

Section LRUCounters.
Context {T W : Type}.
Implicit Types (c : LRU.t T W) (w : W) (key k : string) (v : T) (now : Z).

(** One call moves the counters as [LRU_lookups] counts. *)
Lemma LRU_step_counters c w now (op : LRU.call T) :
  0 <= LRU.hits c -> 0 <= LRU.misses c ->
  let c' := fst (LRU.step c w now op) in
  0 <= LRU.hits c' /\ 0 <= LRU.misses c' /\
  LRU.hits c' + LRU.misses c' =
    match op with
    | LRU.CGet _ => LRU.hits c + LRU.misses c + 1
    | LRU.CClear => 0
    | _ => LRU.hits c + LRU.misses c
    end.
Proof.
  intros Hh Hm. destruct op as [key|key v|key|key| | | |]; cbn [LRU.step fst snd].
  - unfold LRU.get. destruct (JsMap.get key (LRU.cache c)) as [e|];
      [destruct (LRU.isExpired c e now)|]; simpl; lia.
  - unfold LRU.set. destruct (LRU.make_room c key w). simpl. lia.
  - unfold LRU.has. destruct (JsMap.get key (LRU.cache c)) as [e|];
      [destruct (LRU.isExpired c e now)|]; simpl; lia.
  - simpl. lia.
  - simpl. lia.
  - lia.
  - lia.
  - unfold LRU.cleanExpired. destruct (LRU.maxAge c) as [age|]; [|simpl; lia].
    destruct (age =? 0); [simpl; lia|].
    destruct (LRU.cleanLoop age now (LRU.cache c)). simpl. lia.
Qed.

Lemma LRU_run_counters (calls : list (Z * LRU.call T)) c w :
  0 <= LRU.hits c -> 0 <= LRU.misses c ->
  let c' := fst (LRU.run c w calls) in
  0 <= LRU.hits c' /\ 0 <= LRU.misses c' /\
  LRU.hits c' + LRU.misses c' =
    LRU_lookups (LRU.hits c + LRU.misses c) calls.
Proof.
  revert c w. induction calls as [|[now op] calls IH]; intros c w Hh Hm.
  - simpl. lia.
  - cbn [LRU.run LRU_lookups].
    pose proof (LRU_step_counters c w now op Hh Hm) as Hstep.
    destruct (LRU.step c w now op) as [c1 w1]. cbn [fst] in Hstep.
    destruct Hstep as (Hh1 & Hm1 & Hsum).
    specialize (IH c1 w1 Hh1 Hm1). cbv zeta in IH.
    rewrite Hsum in IH. destruct op; exact IH.
Qed.

(** The hit rate is a proportion. *)
Lemma LRU_hitRate_range (h m : Z) :
  0 <= h -> 0 <= m ->
  (0 <= LRU.hitRate h m)%Q /\ (LRU.hitRate h m <= 1)%Q /\
  ((LRU.hitRate h m == 0)%Q <-> h = 0).
Proof.
  intros Hh Hm. unfold LRU.hitRate. cbv zeta.
  destruct (h + m >? 0) eqn:Hpos.
  - apply Z.gtb_lt in Hpos.
    unfold Qle, Qeq. cbn [Qnum Qden]. rewrite Z2Pos.id by lia.
    repeat split; lia.
  - assert (h = 0) by (destruct (Z.gtb_spec (h + m) 0); [discriminate | lia]).
    unfold Qle, Qeq. simpl. repeat split; lia.
Qed.

End LRUCounters.

(** X5. The statistics of the cache. From the constructed cache on, after
    any sequence of calls, [getStats] reports counters that are not
    negative and add up to the number of [get] calls since the last
    [clear] ([has], [set], [delete] and [cleanExpired] are not counted),
    and a hit rate between 0 and 1 that is 0 exactly when there was no
    hit. *)
Theorem X5_lru_statistics {T W : Type} (options : LRU.Options T W)
    (c0 : LRU.t T W) :
  LRU.new options = inr c0 ->
  forall (w : W) (calls : list (Z * LRU.call T)),
    let s := LRU.getStats (fst (LRU.run c0 w calls)) in
    0 <= LRU.st_hits s /\ 0 <= LRU.st_misses s /\
    LRU.st_hits s + LRU.st_misses s = LRU_lookups 0 calls /\
    (0 <= LRU.st_hitRate s)%Q /\ (LRU.st_hitRate s <= 1)%Q /\
    ((LRU.st_hitRate s == 0)%Q <-> LRU.st_hits s = 0).
Proof.
  intros Hnew w calls. unfold LRU.new in Hnew.
  destruct (LRU.opt_maxSize options <? 1); [discriminate|].
  injection Hnew as <-.
  match goal with |- context [LRU.run ?c _ _] =>
    pose proof (LRU_run_counters calls c w) as Hrun end.
  cbn [LRU.hits LRU.misses] in Hrun. specialize (Hrun ltac:(lia) ltac:(lia)).
  cbv zeta in Hrun. destruct Hrun as (Hh & Hm & Hsum).
  cbv zeta. unfold LRU.getStats. cbn [LRU.st_hits LRU.st_misses LRU.st_hitRate].
  split; [exact Hh|]. split; [exact Hm|]. split; [exact Hsum|].
  apply LRU_hitRate_range; assumption.
Qed.

(** X5 on a run of three lookups, one of them a hit, with a [has] between
    them. *)
Lemma X5_lru_statistics_witness :
  let s := LRU.getStats
      (fst (LRU.run (LRU.mk JsMap.empty 2 None None 0 0) tt
              [(0, LRU.CGet "a"); (1, LRU.CSet "a" 7); (2, LRU.CHas "a");
               (3, LRU.CGet "a"); (4, LRU.CGet "b")])) in
  LRU.st_hits s + LRU.st_misses s = 3 /\ (LRU.st_hitRate s <= 1)%Q.
Proof.
  pose proof (X5_lru_statistics (LRU.mkOptions 2 None None)
                (LRU.mk JsMap.empty 2 None None 0 0) eq_refl tt
                [(0, LRU.CGet "a"); (1, LRU.CSet "a" 7); (2, LRU.CHas "a");
                 (3, LRU.CGet "a"); (4, LRU.CGet "b")]) as H.
  cbv zeta in *. destruct H as (_ & _ & Hsum & _ & Hle & _).
  split; [exact Hsum | exact Hle].
Defined.

Section LRUClean.
Context {T W : Type}.
Implicit Types (c : LRU.t T W) (w : W) (key k : string) (v : T) (now : Z).

Lemma JsMap_wf_same_binding {V : Type} (m : JsMap.t V) (k : string) (a b : V) :
  JsMap.wf m -> In (k, a) m -> In (k, b) m -> a = b.
Proof.
  unfold JsMap.wf, JsMap.keys. induction m as [|[k0 v0] m IH]; simpl; [tauto|].
  intros Hnd Ha Hb. inversion Hnd as [|? ? Hout Hnd']; subst.
  destruct Ha as [Ha|Ha], Hb as [Hb|Hb].
  - congruence.
  - injection Ha as -> ->. exfalso. apply Hout.
    change k with (fst (k, b)). now apply in_map.
  - injection Hb as -> ->. exfalso. apply Hout.
    change k with (fst (k, a)). now apply in_map.
  - now apply IH.
Qed.

Lemma JsMap_wf_filter {V : Type} (f : string * V -> bool) (m : JsMap.t V) :
  JsMap.wf m -> JsMap.wf (filter f m).
Proof.
  unfold JsMap.wf, JsMap.keys. induction m as [|kv m IH]; simpl; [tauto|].
  intros Hnd. inversion Hnd as [|? ? Hout Hnd']; subst.
  destruct (f kv); [|now apply IH]. simpl. constructor; [|now apply IH].
  intros Hin. apply Hout. apply in_map_iff in Hin.
  destruct Hin as (x & Hx & Hin). apply filter_In in Hin.
  apply in_map_iff. exists x. tauto.
Qed.

Lemma filter_all {A : Type} (f : A -> bool) (l : list A) :
  (forall x, In x l -> f x = true) -> filter f l = l.
Proof.
  induction l as [|x l IH]; simpl; [reflexivity|]. intros H.
  rewrite (H x) by now left. f_equal. apply IH. intros y Hy. apply H. now right.
Qed.

(** The loop of [cleanExpired], from any point of the iteration. *)
Lemma LRU_cleanLoop_gen age now (l cur : JsMap.t (LRU.CacheEntry T)) (n : Z) :
  fold_left
    (fun (st : Z * JsMap.t (LRU.CacheEntry T)) kv =>
       if now - LRU.timestamp (snd kv) >? age
       then (fst st + 1, JsMap.delete (fst kv) (snd st))
       else st) l (n, cur) =
  (n + Z.of_nat (List.length
                   (filter (fun kv => now - LRU.timestamp (snd kv) >? age) l)),
   filter (fun kv =>
             negb (existsb (fun kv' => (now - LRU.timestamp (snd kv') >? age)
                                       && String.eqb (fst kv') (fst kv)) l))
          cur).
Proof.
  revert cur n. induction l as [|a l IH]; intros cur n.
  - simpl. f_equal; [lia|]. symmetry. now apply filter_all.
  - cbn [fold_left filter existsb].
    destruct (now - LRU.timestamp (snd a) >? age) eqn:Ha.
    + cbn [fst snd]. rewrite IH. f_equal.
      * cbn [List.length]. lia.
      * unfold JsMap.delete. rewrite filter_twice. apply filter_ext.
        intros kv. cbn [andb]. rewrite (String.eqb_sym (fst a) (fst kv)).
        now destruct (String.eqb (fst kv) (fst a)).
    + rewrite IH. f_equal.
Qed.

(** What [cleanExpired] leaves and what it returns. *)
Lemma LRU_cleanExpired_spec c now :
  JsMap.wf (LRU.cache c) ->
  let r := LRU.cleanExpired c now in
  LRU.cache (snd r) =
    filter (fun kv => negb (LRU_aged (LRU.maxAge c)
                              (LRU.timestamp (snd kv)) now))
           (LRU.cache c) /\
  fst r = LRU.size c - LRU.size (snd r) /\
  LRU.maxAge (snd r) = LRU.maxAge c.
Proof.
  intros Hwf. unfold LRU.cleanExpired, LRU_aged, LRU.size, JsMap.size.
  destruct (LRU.maxAge c) as [age|] eqn:Hage.
  2:{ cbn [fst snd]. rewrite filter_all by reflexivity. rewrite Hage.
      repeat split; lia. }
  destruct (age =? 0) eqn:H0.
  { cbn [fst snd negb andb]. rewrite filter_all by reflexivity. rewrite Hage.
    repeat split; lia. }
  unfold LRU.cleanLoop. rewrite LRU_cleanLoop_gen.
  cbn [fst snd LRU.with_cache LRU.cache LRU.maxAge negb andb].
  assert (Hfilter :
    filter (fun kv =>
              negb (existsb (fun kv' => (now - LRU.timestamp (snd kv') >? age)
                                        && String.eqb (fst kv') (fst kv))
                            (LRU.cache c)))
           (LRU.cache c) =
    filter (fun kv => negb (now - LRU.timestamp (snd kv) >? age))
           (LRU.cache c)).
  { apply filter_ext_in. intros [k e] Hin. f_equal. cbn [fst snd].
    destruct (now - LRU.timestamp e >? age) eqn:He.
    - apply existsb_exists. exists (k, e). cbn [fst snd].
      now rewrite He, String.eqb_refl.
    - destruct (existsb _ (LRU.cache c)) eqn:Hex; [|reflexivity].
      apply existsb_exists in Hex. destruct Hex as ([k' e'] & Hin' & Hb).
      cbn [fst snd] in Hb. apply andb_true_iff in Hb. destruct Hb as [He' Hk].
      apply String.eqb_eq in Hk. subst k'.
      rewrite (JsMap_wf_same_binding _ k e e' Hwf Hin Hin') in He. congruence. }
  rewrite Hfilter. split; [reflexivity|]. split; [|exact Hage].
  pose proof (filter_length
                (fun kv : string * LRU.CacheEntry T =>
                   now - LRU.timestamp (snd kv) >? age) (LRU.cache c)) as Hlen.
  lia.
Qed.

End LRUClean.

(** X6. [cleanExpired]. On a cache whose keys are bound once,
    [cleanExpired] keeps exactly the entries that have not aged, in their
    order, and returns the number of entries it removed; with no [maxAge],
    or a [maxAge] of 0, nothing is aged. Afterwards [has] answers [true]
    for every key that is still bound, and a second [cleanExpired] at the
    same time removes nothing and returns 0. *)
Theorem X6_lru_cleanExpired {T W : Type} (c : LRU.t T W) (now : Z) :
  JsMap.wf (LRU.cache c) ->
  let r := LRU.cleanExpired c now in
  LRU.cache (snd r) =
    filter (fun kv => negb (LRU_aged (LRU.maxAge c)
                              (LRU.timestamp (snd kv)) now))
           (LRU.cache c) /\
  fst r = LRU.size c - LRU.size (snd r) /\
  (forall k, In k (JsMap.keys (LRU.cache (snd r))) ->
             fst (LRU.has (snd r) k now) = true) /\
  fst (LRU.cleanExpired (snd r) now) = 0 /\
  LRU.cache (snd (LRU.cleanExpired (snd r) now)) = LRU.cache (snd r).
Proof.
  intros Hwf r.
  destruct (LRU_cleanExpired_spec c now Hwf) as (Hstore & Hcount & Hage).
  fold r in Hstore, Hcount, Hage.
  assert (Hwf' : JsMap.wf (LRU.cache (snd r))).
  { rewrite Hstore. now apply JsMap_wf_filter. }
  destruct (LRU_cleanExpired_spec (snd r) now Hwf') as (Hstore2 & Hcount2 & _).
  assert (Hsame : LRU.cache (snd (LRU.cleanExpired (snd r) now)) =
                  LRU.cache (snd r)).
  { rewrite Hstore2. apply filter_all. intros kv Hin.
    rewrite Hstore in Hin. apply filter_In in Hin. now rewrite Hage. }
  split; [exact Hstore|]. split; [exact Hcount|]. split; [|split].
  - intros k Hin. unfold LRU.has.
    destruct (JsMap.get k (LRU.cache (snd r))) as [e|] eqn:Hk.
    + assert (Hine : In (k, e) (LRU.cache (snd r))).
      { clear - Hk. induction (LRU.cache (snd r)) as [|[k0 e0] m IH];
          simpl in *; [discriminate|].
        destruct (String.eqb_spec k0 k) as [->|];
          [injection Hk as ->; now left | right; now apply IH]. }
      rewrite Hstore in Hine. apply filter_In in Hine.
      destruct Hine as [_ Hlive]. cbn [snd] in Hlive.
      rewrite LRU_isExpired_aged, Hage.
      now destruct (LRU_aged (LRU.maxAge c) (LRU.timestamp e) now).
    + exfalso. destruct (in_dec string_dec k (JsMap.keys (LRU.cache (snd r))))
        as [Hin'|Hout]; [|contradiction].
      clear - Hk Hin'. induction (LRU.cache (snd r)) as [|[k0 e0] m IH];
        simpl in *; [tauto|].
      destruct (String.eqb_spec k0 k) as [->|Hne]; [discriminate|].
      destruct Hin' as [?|Hin']; [contradiction | now apply IH].
  - rewrite Hcount2. unfold LRU.size. rewrite Hsame. lia.
  - exact Hsame.
Qed.

(** X6 on the cache of two entries set at times 0 and 5, with [maxAge]
    100, cleaned at time 103: the older entry goes. *)
Lemma X6_lru_cleanExpired_witness :
  JsMap.wf (LRU.cache LRU_full_example) /\
  fst (LRU.cleanExpired LRU_full_example 103) = 1 /\
  JsMap.keys (LRU.cache (snd (LRU.cleanExpired LRU_full_example 103))) = ["b"].
Proof.
  pose proof (proj1 LRU_full_example_inv) as Hwf.
  pose proof (X6_lru_cleanExpired LRU_full_example 103 Hwf) as H.
  cbv zeta in H. destruct H as (Hstore & Hcount & _).
  split; [exact Hwf|]. split.
  - rewrite Hcount. reflexivity.
  - rewrite Hstore. reflexivity.
Defined.

(** ** The query result cache: the other behaviour *)

Section QCMore.
Context {V : Type}.
Implicit Types (q : QueryCache.t V) (key k : string) (now : Z).

(** [set] then [get] of the same key. *)
Lemma QC_set_get q key (v : option V) now later :
  QC_inv q ->
  fst (QueryCache.get (QueryCache.set q key v now) key later) =
  if QC_lapsed (QueryCache.ttlMs q) now later then None else v.
Proof.
  intros Hinv.
  pose proof (QC_set_inv q key v now Hinv) as (_ & Hage & _).
  destruct (QC_set_fields q key v now) as (Hk & Httl & _).
  rewrite (QC_get_result _ key later Hage), Hk, Httl.
  unfold QC_new_entry, QC_lapsed. cbn [LRU.value QueryCache.expiresAt QueryCache.value].
  destruct (QueryCache.ttlMs q >? 0); reflexivity.
Qed.

Lemma QC_get_maxSize q key now :
  LRU.maxSize (QueryCache.cache (snd (QueryCache.get q key now))) =
  LRU.maxSize (QueryCache.cache q).
Proof.
  unfold QueryCache.get, LRU.get.
  destruct (JsMap.get key (LRU.cache (QueryCache.cache q))) as [e|];
    [|reflexivity].
  destruct (LRU.isExpired (QueryCache.cache q) e now); [reflexivity|].
  destruct ((QueryCache.ttlMs q >? 0) &&
            QueryCache.isPast now (QueryCache.expiresAt (LRU.value e)));
    [reflexivity|].
  cbn [snd QueryCache.cache].
  now destruct (QueryCache.refreshOnAccess q && (QueryCache.ttlMs q >? 0)).
Qed.

Lemma QC_set_maxSize q key (v : option V) now :
  LRU.maxSize (QueryCache.cache (QueryCache.set q key v now)) =
  LRU.maxSize (QueryCache.cache q).
Proof.
  unfold QueryCache.set, LRU.set. cbv zeta.
  now destruct (LRU.make_room (QueryCache.cache q) key (QueryCache.evictions q)).
Qed.

(** The counters after [get]: one lookup more, and an expiration is a
    miss. *)
Lemma QC_get_counters q key now :
  let q' := snd (QueryCache.get q key now) in
  QueryCache.hits q' + QueryCache.misses q' =
    QueryCache.hits q + QueryCache.misses q + 1 /\
  QueryCache.hits q <= QueryCache.hits q' /\
  QueryCache.expirations q <= QueryCache.expirations q' /\
  QueryCache.expirations q' - QueryCache.expirations q <=
    QueryCache.misses q' - QueryCache.misses q /\
  QueryCache.evictions q' = QueryCache.evictions q.
Proof.
  unfold QueryCache.get.
  destruct (LRU.get (QueryCache.cache q) key now) as [[entry|] c];
    [|simpl; lia].
  destruct ((QueryCache.ttlMs q >? 0) &&
            QueryCache.isPast now (QueryCache.expiresAt entry)); simpl; lia.
Qed.

End QCMore.

(** X8. The validity window of an entry. In a query cache that satisfies
    its invariant, a value stored by [set] at time [now] is returned by
    [get] at time [later] unless [ttlMs] is positive and
    [later > now + ttlMs]; with a [ttlMs] of 0 or less the entry never
    expires. When it has expired, [get] returns [undefined], removes the
    entry and counts one expiration. *)
Theorem X8_qc_set_then_get {V : Type} (q : QueryCache.t V) (key : string)
    (v : V) (now later : Z) :
  QC_inv q ->
  let q1 := QueryCache.set q key (Some v) now in
  let r := QueryCache.get q1 key later in
  fst r = (if QC_lapsed (QueryCache.ttlMs q) now later then None else Some v) /\
  (QueryCache.ttlMs q <= 0 -> fst r = Some v) /\
  (QC_lapsed (QueryCache.ttlMs q) now later = true ->
   JsMap.get key (QC_store (snd r)) = None /\
   QueryCache.expirations (snd r) = QueryCache.expirations q + 1).
Proof.
  intros Hinv q1 r.
  assert (Hres : fst r = if QC_lapsed (QueryCache.ttlMs q) now later
                         then None else Some v)
    by apply (QC_set_get q key (Some v) now later Hinv).
  split; [exact Hres|]. split.
  - intros Hle. rewrite Hres. unfold QC_lapsed.
    destruct (Z.gtb_spec (QueryCache.ttlMs q) 0); [lia | reflexivity].
  - intros Hlapsed.
    pose proof (QC_set_inv q key (Some v) now Hinv) as (_ & Hage & _).
    destruct (QC_set_fields q key (Some v) now)
      as (Hk & Httl & _ & _ & _ & Hexp & _).
    fold q1 in Hage, Hk, Httl, Hexp.
    assert (Hpast : (QueryCache.ttlMs q1 >? 0) &&
              QueryCache.isPast later
                (QueryCache.expiresAt (LRU.value (QC_new_entry q (Some v) now)))
              = true).
    { rewrite Httl. unfold QC_lapsed in Hlapsed. unfold QC_new_entry.
      cbn [LRU.value QueryCache.expiresAt].
      destruct (QueryCache.ttlMs q >? 0); [exact Hlapsed | discriminate]. }
    unfold r. rewrite (QC_get_expired q1 key later _ Hage Hk Hpast).
    cbn [snd QC_store QueryCache.cache LRU.cache QueryCache.expirations].
    split; [apply JsMap_get_delete_eq | now rewrite Hexp].
Qed.

(** X8 on the cache with [ttlMs] 50: a value set at time 0 is read at time
    50 and gone at time 51. *)
Lemma X8_qc_set_then_get_witness :
  fst (QueryCache.get (QueryCache.set QC_fresh "k" (Some 7) 0) "k" 50) = Some 7 /\
  fst (QueryCache.get (QueryCache.set QC_fresh "k" (Some 7) 0) "k" 51) = None.
Proof.
  assert (Hinv : QC_inv (QC_fresh (V := Z))).
  { destruct (QC_new_ok (V := Z) (QueryCache.mkOptions 10 50 None) ltac:(simpl; lia))
      as (q & Hq & Hinv & _). injection Hq as <-. exact Hinv. }
  split.
  - exact (proj1 (X8_qc_set_then_get QC_fresh "k" 7 0 50 Hinv)).
  - exact (proj1 (X8_qc_set_then_get QC_fresh "k" 7 0 51 Hinv)).
Defined.

Section QCRuns.
Context {V : Type}.
Implicit Types (q : QueryCache.t V) (key k : string) (now : Z).

(** A key moved to the end of the order is still bound as it was, and so
    is every other key. *)
Lemma JsMap_get_promote {A : Type} key k (e : A) (m : JsMap.t A) :
  JsMap.get key m = Some e ->
  JsMap.get k (JsMap.delete key m ++ [(key, e)]) = JsMap.get k m.
Proof.
  intros Hk. rewrite JsMap_get_app_last.
  destruct (String.eqb_spec key k) as [<-|Hne].
  - now rewrite JsMap_get_delete_eq.
  - rewrite JsMap_get_delete_ne by congruence.
    now destruct (JsMap.get k m).
Qed.

(** Without [refreshOnAccess] a lookup does not change a later one. *)
Lemma QC_get_reads q key now k later :
  QC_inv q -> QueryCache.refreshOnAccess q = false -> now <= later ->
  fst (QueryCache.get (snd (QueryCache.get q key now)) k later) =
  fst (QueryCache.get q k later).
Proof.
  intros Hinv Hrefresh Hle.
  destruct (fst (QueryCache.get q key now)) as [v|] eqn:Hres;
    [|now apply QC_get_none_reads].
  pose proof (QC_get_inv q key now Hinv) as (_ & Hage' & _).
  pose proof Hinv as (_ & Hage & _).
  rewrite (QC_get_result q key now Hage) in Hres.
  destruct (JsMap.get key (QC_store q)) as [e|] eqn:Hk; [|discriminate].
  destruct ((QueryCache.ttlMs q >? 0) &&
            QueryCache.isPast now (QueryCache.expiresAt (LRU.value e)))
    eqn:Hpast; [discriminate|].
  rewrite (QC_get_result _ k later Hage'), (QC_get_result q k later Hage).
  rewrite (proj1 (QC_get_config q key now)).
  rewrite (QC_get_valid q key now e Hage Hk Hpast), Hrefresh.
  cbn [snd andb QC_store QueryCache.cache LRU.cache].
  now rewrite (JsMap_get_promote key k e _ Hk).
Qed.

(** With [refreshOnAccess] a hit opens a new validity window. *)
Lemma QC_get_refreshed q key now later (v : V) :
  QC_inv q -> QueryCache.refreshOnAccess q = true ->
  fst (QueryCache.get q key now) = Some v ->
  QC_lapsed (QueryCache.ttlMs q) now later = false ->
  fst (QueryCache.get (snd (QueryCache.get q key now)) key later) = Some v.
Proof.
  intros Hinv Hrefresh Hres Hlive.
  pose proof (QC_get_inv q key now Hinv) as (_ & Hage' & _).
  pose proof Hinv as (_ & Hage & _).
  rewrite (QC_get_result q key now Hage) in Hres.
  destruct (JsMap.get key (QC_store q)) as [e|] eqn:Hk; [|discriminate].
  destruct ((QueryCache.ttlMs q >? 0) &&
            QueryCache.isPast now (QueryCache.expiresAt (LRU.value e)))
    eqn:Hpast; [discriminate|].
  rewrite (QC_get_result _ key later Hage').
  rewrite (proj1 (QC_get_config q key now)).
  rewrite (QC_get_valid q key now e Hage Hk Hpast), Hrefresh.
  set (st := QC_store q) in *. unfold QC_store. cbn [snd andb QueryCache.cache].
  unfold QC_lapsed in Hlive.
  destruct (QueryCache.ttlMs q >? 0) eqn:Httl.
  - rewrite QC_store_writeExpiresAt. cbn [LRU.cache].
    rewrite (JsMap_get_promote key key e _ Hk), Hk, String.eqb_refl.
    cbn [LRU.value QueryCache.expiresAt QueryCache.value QueryCache.isPast andb].
    cbn [andb] in Hlive. now rewrite Hlive.
  - cbn [LRU.cache]. rewrite (JsMap_get_promote key key e _ Hk), Hk.
    exact Hres.
Qed.

Lemma QC_clear_inv q : QC_inv q -> QC_inv (QueryCache.clear q).
Proof.
  intros (Hlru & Hage & Hcb). split; [|split].
  - now apply LRU_clear_inv.
  - exact Hage.
  - exact Hcb.
Qed.

Lemma QC_get_accounts q key now capacity lookups :
  QC_accounts q capacity lookups ->
  QC_accounts (snd (QueryCache.get q key now)) capacity (lookups + 1).
Proof.
  intros (Hinv & Hcap & Hh & He & Hev & Hsum).
  pose proof (QC_get_counters q key now) as Hc. cbv zeta in Hc.
  split; [now apply QC_get_inv|]. split; [now rewrite QC_get_maxSize|]. lia.
Qed.

Lemma QC_set_accounts q key (v : option V) now capacity lookups :
  QC_accounts q capacity lookups ->
  QC_accounts (QueryCache.set q key v now) capacity lookups.
Proof.
  intros (Hinv & Hcap & Hh & He & Hev & Hsum).
  destruct (QC_set_fields q key v now) as (_ & _ & _ & Hh' & Hm' & He' & _).
  pose proof (QC_set_evictions q key v now Hinv) as Hev'.
  split; [now apply QC_set_inv|]. split; [now rewrite QC_set_maxSize|].
  rewrite Hh', Hm', He', Hev'.
  destruct (LRU_evicting (QueryCache.cache q) key); lia.
Qed.

Lemma QC_step_accounts {E : Type} q now (op : QC_call V E) capacity lookups :
  QC_accounts q capacity lookups ->
  QC_accounts (QC_step q now op) capacity
    (match op with
     | QGet _ | QCompute _ _ _ => lookups + 1
     | QClear => 0
     | _ => lookups
     end).
Proof.
  intros Hacc. destruct op as [key|key v|key outcome storedAt| |prefix|];
    cbn [QC_step].
  - now apply QC_get_accounts.
  - now apply QC_set_accounts.
  - pose proof (QC_get_accounts q key now _ _ Hacc) as Hget.
    unfold QueryCache.getOrCompute.
    destruct (QueryCache.get q key now) as [[v|] q1]; cbn [fst snd] in *;
      [exact Hget|].
    destruct outcome as [err|v]; cbn [fst snd]; [exact Hget|].
    now apply QC_set_accounts.
  - destruct Hacc as (Hinv & Hcap & _).
    split; [now apply QC_clear_inv|]. split; [exact Hcap|]. simpl. lia.
  - destruct Hacc as (Hinv & Hcap & Hrest).
    split; [now apply QC_invalidate_inv|]. split; [|exact Hrest].
    unfold QueryCache.invalidateByPrefix. cbn [QueryCache.cache].
    now rewrite QC_delete_keys.
  - exact Hacc.
Qed.

Lemma QC_run_accounts {E : Type} (calls : list (Z * QC_call V E)) q
    capacity lookups :
  QC_accounts q capacity lookups ->
  QC_accounts (QC_run q calls) capacity (QC_lookups lookups calls).
Proof.
  revert q lookups. induction calls as [|[now op] calls IH]; intros q lookups Hacc.
  - exact Hacc.
  - cbn [QC_run QC_lookups]. apply IH.
    pose proof (QC_step_accounts q now op _ _ Hacc) as Hstep.
    destruct op; exact Hstep.
Qed.

End QCRuns.

(** X10. [refreshOnAccess]. Without it the validity window of an entry is
    fixed when the entry is set: a lookup at time [now] does not change
    what any lookup returns at a later time. With it, a lookup that
    returns a value opens a new window: the value is returned again at
    every time up to [now + ttlMs] (at every time, when [ttlMs] is not
    positive). *)
Theorem X10_qc_refreshOnAccess {V : Type} (q : QueryCache.t V)
    (key : string) (now later : Z) :
  QC_inv q -> now <= later ->
  let q' := snd (QueryCache.get q key now) in
  (QueryCache.refreshOnAccess q = false ->
   forall k, fst (QueryCache.get q' k later) = fst (QueryCache.get q k later)) /\
  (QueryCache.refreshOnAccess q = true ->
   forall v, fst (QueryCache.get q key now) = Some v ->
     QC_lapsed (QueryCache.ttlMs q) now later = false ->
     fst (QueryCache.get q' key later) = Some v).
Proof.
  intros Hinv Hle q'. split.
  - intros Hrefresh k. now apply QC_get_reads.
  - intros Hrefresh v Hres Hlive. now apply QC_get_refreshed.
Qed.

(** X10 with [ttlMs] 50 and an entry set at time 0: read at time 40 and
    again at time 80, the entry is gone without [refreshOnAccess] and
    still there with it. *)
Lemma X10_qc_refreshOnAccess_witness :
  let fixed := QueryCache.set QC_fresh "k" (Some 7) 0 in
  let sliding :=
    QueryCache.set
      (QueryCache.mk (LRU.mk [] 10 None (Some QueryCache.countEviction) 0 0)
                     50 true 0 0 0 0) "k" (Some 7) 0 in
  fst (QueryCache.get (snd (QueryCache.get fixed "k" 40)) "k" 80) = None /\
  fst (QueryCache.get (snd (QueryCache.get sliding "k" 40)) "k" 80) = Some 7.
Proof.
  intros fixed sliding.
  assert (Hfixed : QC_inv fixed).
  { apply QC_set_inv.
    destruct (QC_new_ok (V := Z) (QueryCache.mkOptions 10 50 None)
                ltac:(simpl; lia)) as (q & Hq & Hinv & _).
    injection Hq as <-. exact Hinv. }
  assert (Hsliding : QC_inv sliding).
  { apply QC_set_inv.
    destruct (QC_new_ok (V := Z) (QueryCache.mkOptions 10 50 (Some true))
                ltac:(simpl; lia)) as (q & Hq & Hinv & _).
    injection Hq as <-. exact Hinv. }
  split.
  - rewrite (proj1 (X10_qc_refreshOnAccess fixed "k" 40 80 Hfixed ltac:(lia))
               eq_refl "k").
    reflexivity.
  - exact (proj2 (X10_qc_refreshOnAccess sliding "k" 40 80 Hsliding ltac:(lia))
             eq_refl 7 eq_refl eq_refl).
Defined.

(** X11. The statistics of the query cache. From the constructed cache on,
    after any sequence of calls, [getStats] reports a size within the
    capacity, counters that are not negative, hits and misses that add up
    to the number of lookups ([get] and [getOrCompute]) since the last
    [clear], no more expirations than misses, and a hit rate between 0
    and 1. *)
Theorem X11_qc_statistics {V E : Type} (options : QueryCache.Options)
    (q0 : QueryCache.t V) :
  QueryCache.new options = inr q0 ->
  forall calls : list (Z * QC_call V E),
    let s := QueryCache.getStats (QC_run q0 calls) in
    0 <= QueryCache.st_size s <= QueryCache.opt_maxSize options /\
    0 <= QueryCache.st_hits s /\
    QueryCache.st_hits s + QueryCache.st_misses s = QC_lookups 0 calls /\
    0 <= QueryCache.st_expirations s <= QueryCache.st_misses s /\
    0 <= QueryCache.st_evictions s /\
    (0 <= QueryCache.st_hitRate s)%Q /\ (QueryCache.st_hitRate s <= 1)%Q.
Proof.
  intros Hnew calls.
  assert (Hcap : 1 <= QueryCache.opt_maxSize options).
  { unfold QueryCache.new, LRU.new in Hnew. cbn [LRU.opt_maxSize] in Hnew.
    destruct (Z.ltb_spec (QueryCache.opt_maxSize options) 1);
      [discriminate | lia]. }
  destruct (QC_new_ok (V := V) options Hcap)
    as (q & Hq & Hinv & _ & _ & Hh & Hm & He & Hev).
  rewrite Hnew in Hq. injection Hq as <-.
  assert (Hmax : LRU.maxSize (QueryCache.cache q0) =
                 QueryCache.opt_maxSize options).
  { clear - Hnew. unfold QueryCache.new, LRU.new in Hnew.
    cbn [LRU.opt_maxSize] in Hnew.
    destruct (QueryCache.opt_maxSize options <? 1); [discriminate|].
    injection Hnew as <-. reflexivity. }
  assert (Hacc : QC_accounts q0 (QueryCache.opt_maxSize options) 0).
  { split; [exact Hinv|]. split; [exact Hmax|]. lia. }
  destruct (QC_run_accounts calls q0 _ _ Hacc)
    as (((_ & _ & Hsize) & _) & Hcap' & Hh' & He' & Hev' & Hsum).
  cbv zeta. unfold QueryCache.getStats, LRU.getStats.
  cbn [QueryCache.st_size QueryCache.st_hits QueryCache.st_misses
       QueryCache.st_expirations QueryCache.st_evictions
       QueryCache.st_hitRate LRU.st_size].
  unfold LRU.size in Hsize. rewrite Hcap' in Hsize.
  assert (Hm' : 0 <= QueryCache.misses (QC_run q0 calls)) by lia.
  destruct (LRU_hitRate_range _ _ Hh' Hm') as (Hr0 & Hr1 & _).
  repeat split; try lia; try assumption.
  unfold JsMap.size. lia.
Qed.

(** X11 on a run with three lookups, one of them after the entry has
    expired. *)
Lemma X11_qc_statistics_witness :
  let s := QueryCache.getStats
      (QC_run (E := string) QC_fresh
         [(0, QSet "k" (Some 7)); (10, QGet "k"); (60, QGet "k");
          (61, QCompute "k" (inr (Some 8)) 62)]) in
  QueryCache.st_hits s + QueryCache.st_misses s = 3 /\
  QueryCache.st_expirations s <= QueryCache.st_misses s.
Proof.
  pose proof (X11_qc_statistics (V := Z) (E := string)
                (QueryCache.mkOptions 10 50 None) QC_fresh eq_refl
                [(0, QSet "k" (Some 7)); (10, QGet "k"); (60, QGet "k");
                 (61, QCompute "k" (inr (Some 8)) 62)]) as H.
  cbv zeta in *. destruct H as (_ & _ & Hsum & [_ Hexp] & _).
  split; [exact Hsum | exact Hexp].
Defined.

Lemma str_prefix_app (p s : string) : String.prefix p (p ++ s) = true.
Proof.
  induction p as [|a p IH]; simpl; [now destruct s|].
  destruct (ascii_dec a a); [exact IH | congruence].
Qed.

(** X12. Invalidation by query name. Every key that [generateCacheKey]
    builds for a query name starts with the name and a colon, so
    [invalidateByPrefix(name + ':')] leaves no entry for any parameters of
    that query: a lookup of such a key finds nothing. Keys that do not
    start with the prefix are bound as before, and no counter changes
    (the removed entries are neither expirations nor evictions). *)
Theorem X12_qc_invalidate_query {V : Type} (q : QueryCache.t V)
    (queryName : string) :
  QC_inv q ->
  let q' := QueryCache.invalidateByPrefix q (queryName ++ ":") in
  (forall (params : JSON.object) (now : Z),
     fst (QueryCache.get q' (KeyBuilder.generateCacheKey queryName params) now)
     = None) /\
  (forall k, String.prefix (queryName ++ ":") k = false ->
     JsMap.get k (QC_store q') = JsMap.get k (QC_store q)) /\
  QueryCache.getStats q' =
    QueryCache.mkStats (QueryCache.hits q) (QueryCache.misses q)
      (LRU.size (QueryCache.cache q'))
      (LRU.hitRate (QueryCache.hits q) (QueryCache.misses q))
      (QueryCache.expirations q) (QueryCache.evictions q).
Proof.
  intros Hinv q'.
  pose proof (QC_invalidate_inv q (queryName ++ ":") Hinv) as (_ & Hage & _).
  fold q' in Hage.
  assert (Hstore : forall k,
    JsMap.get k (QC_store q') =
    if negb (String.prefix (queryName ++ ":") k)
    then JsMap.get k (QC_store q) else None).
  { intros k. unfold q'. rewrite QC_invalidate_store.
    apply (JsMap_get_filter_key
             (fun key => negb (String.prefix (queryName ++ ":") key))). }
  split; [|split].
  - intros params now. rewrite (QC_get_result q' _ now Hage), Hstore.
    unfold KeyBuilder.generateCacheKey.
    now rewrite <- (str_app_assoc queryName ":"), str_prefix_app.
  - intros k Hk. now rewrite Hstore, Hk.
  - reflexivity.
Qed.

(** X12 on a cache with entries of two queries. *)
Lemma X12_qc_invalidate_query_witness :
  let q := QueryCache.set
             (QueryCache.set QC_fresh
                (KeyBuilder.generateCacheKey "patterns" [("id", JSON.Int 1)])
                (Some 1) 0)
             (KeyBuilder.generateCacheKey "concepts" [("id", JSON.Int 1)])
             (Some 2) 0 in
  let q' := QueryCache.invalidateByPrefix q "patterns:" in
  fst (QueryCache.get q'
         (KeyBuilder.generateCacheKey "patterns" [("id", JSON.Int 1)]) 1) = None /\
  JsMap.keys (QC_store q') =
    [KeyBuilder.generateCacheKey "concepts" [("id", JSON.Int 1)]].
Proof.
  intros q q'.
  assert (Hinv : QC_inv q).
  { do 2 apply QC_set_inv.
    destruct (QC_new_ok (V := Z) (QueryCache.mkOptions 10 50 None)
                ltac:(simpl; lia)) as (q0 & Hq & Hinv & _).
    injection Hq as <-. exact Hinv. }
  split.
  - exact (proj1 (X12_qc_invalidate_query q "patterns" Hinv)
             [("id", JSON.Int 1)] 1).
  - reflexivity.
Defined.

(** ** The statement cache: the other behaviour *)

Lemma SC_words_word_app (w r : string) :
  w <> "" -> allChars SC_notSpace w = true ->
  r = "" \/ SC_startsWithSpace r = true ->
  SC_words (w ++ r) = w :: SC_words r.
Proof.
  induction w as [|c w IH]; [congruence|]. intros _ Hw Hr.
  cbn [allChars] in Hw. apply andb_true_iff in Hw. destruct Hw as [Hc Hw].
  unfold SC_notSpace in Hc. apply negb_true_iff in Hc.
  cbn [String.append SC_words]. rewrite Hc.
  destruct w as [|c' w].
  - cbn [String.append]. destruct Hr as [->|Hr]; [reflexivity|].
    rewrite Hr. now destruct (SC_words r).
  - rewrite IH by (try discriminate; assumption).
    cbn [allChars] in Hw. apply andb_true_iff in Hw. destruct Hw as [Hc' _].
    unfold SC_notSpace in Hc'. apply negb_true_iff in Hc'.
    cbn [String.append SC_startsWithSpace]. now rewrite Hc'.
Qed.

(** Words joined by single spaces are the words of the joined text. *)
Lemma SC_words_unwords (ws : list string) :
  Forall SC_word ws -> SC_words (String.concat " " ws) = ws.
Proof.
  induction ws as [|w ws IH]; intros Hws; [reflexivity|].
  inversion Hws as [|? ? [Hne Hw] Hws']; subst.
  rewrite SC_concat_cons, SC_words_word_app; try assumption.
  - f_equal. destruct ws as [|w' ws]; [reflexivity|].
    change (SC_words (String.concat " " (w' :: ws)) = w' :: ws).
    now apply IH.
  - destruct ws; [now left | now right].
Qed.

Lemma SC_words_nil (s : string) :
  SC_words s = [] <-> allChars StatementCache.isSpace s = true.
Proof.
  induction s as [|c s IH]; [now split|].
  cbn [SC_words allChars]. destruct (StatementCache.isSpace c); cbn [andb].
  - exact IH.
  - split; [|discriminate].
    destruct (SC_words s); [discriminate|].
    destruct (SC_startsWithSpace s); discriminate.
Qed.

(** X13. [normalizeSQL] gives a canonical text. Normalizing a normalized
    text changes nothing; the normalized text has the same
    whitespace-separated tokens as the original; and it is empty exactly
    when the original holds nothing but whitespace. *)
Theorem X13_normalizeSQL_canonical (sql : string) :
  StatementCache.normalizeSQL (StatementCache.normalizeSQL sql) =
    StatementCache.normalizeSQL sql /\
  SC_words (StatementCache.normalizeSQL sql) = SC_words sql /\
  (StatementCache.normalizeSQL sql = "" <->
   allChars StatementCache.isSpace sql = true).
Proof.
  assert (Hwords : SC_words (StatementCache.normalizeSQL sql) = SC_words sql).
  { rewrite SC_normalizeSQL_words. apply SC_words_unwords, SC_words_are_words. }
  split; [|split].
  - apply SC_normalizeSQL_eq_iff. exact Hwords.
  - exact Hwords.
  - rewrite <- SC_words_nil, SC_normalizeSQL_words. split.
    + intros Hempty. pose proof (SC_words_are_words sql) as Hgood.
      destruct (SC_words sql) as [|w ws]; [reflexivity|].
      inversion Hgood as [|? ? [Hne _] _]; subst.
      rewrite SC_concat_cons in Hempty. destruct w; [congruence | discriminate].
    + now intros ->.
Qed.

Section SCRuns.
Context {Stmt D E : Type}.
Variable prepareFn : string -> D -> (E + Stmt) * D.
Hypothesis prepareFn_succeeds :
  forall sql d, exists stmt, fst (prepareFn sql d) = inr stmt.

Lemma JsMap_length_promote {A : Type} key (e e' : A) (m : JsMap.t A) :
  JsMap.wf m -> JsMap.get key m = Some e ->
  List.length (JsMap.delete key m ++ [(key, e')]) = List.length m.
Proof.
  unfold JsMap.wf, JsMap.keys. rewrite length_app. cbn [List.length].
  induction m as [|[k0 v0] m IH]; [discriminate|].
  intros Hwf Hk. inversion Hwf as [|? ? Hout Hwf']; subst.
  cbn [JsMap.get] in Hk. unfold JsMap.delete. cbn [filter fst].
  destruct (String.eqb_spec k0 key) as [->|Hne]; cbn [negb].
  - fold (JsMap.delete key m).
    rewrite JsMap_delete_absent by now apply JsMap_get_In.
    cbn [List.length]. lia.
  - fold (JsMap.delete key m). cbn [List.length].
    specialize (IH Hwf' Hk). lia.
Qed.

(** One [prepare] within the capacity: the key joins the bound keys, and
    the database is called exactly when the key was not bound. *)
Lemma SC_prepare_within sc sql now (d : D) (n capacity : Z)
    (universe : list string) :
  SC_inv prepareFn capacity sc n ->
  NoDup universe -> Z.of_nat (List.length universe) <= capacity ->
  incl (StatementCache.normalizeSQL sql :: JsMap.keys (SC_store sc)) universe ->
  let r := StatementCache.prepare sc sql now (d, n) in
  SC_inv prepareFn capacity (snd (fst r)) (snd (snd r)) /\
  (forall k, In k (JsMap.keys (SC_store (snd (fst r)))) <->
             k = StatementCache.normalizeSQL sql \/
             In k (JsMap.keys (SC_store sc))) /\
  StatementCache.hits (snd (fst r)) + StatementCache.misses (snd (fst r)) =
    StatementCache.hits sc + StatementCache.misses sc + 1.
Proof.
  intros (Hdb & Hwf & Hage & Hcap & Hn & Hmiss & Hhits) Hnd Hlen Hincl.
  set (key := StatementCache.normalizeSQL sql) in *.
  unfold StatementCache.prepare. fold key. cbv zeta.
  unfold SC_store in *.
  destruct (JsMap.get key (LRU.cache (StatementCache.cache sc))) as [e|] eqn:Hk.
  - assert (Hlive : LRU.isExpired (StatementCache.cache sc) e now = false).
    { unfold LRU.isExpired. now rewrite Hage. }
    rewrite (LRU_get_hit _ key now e Hk Hlive). cbn [fst snd].
    split; [|split].
    + unfold SC_inv, SC_store.
      cbn [StatementCache.db_prepare StatementCache.cache LRU.cache
           LRU.maxAge LRU.maxSize StatementCache.misses StatementCache.hits].
      repeat split; try assumption; try lia.
      * rewrite <- (LRU_promote_shape key e e). now apply LRU_promote_wf.
      * unfold JsMap.size. rewrite (JsMap_length_promote key e e _ Hwf Hk).
        exact Hn.
    + intros k. cbn [StatementCache.cache LRU.cache]. split.
      * intros Hin. right. revert Hin. apply (JsMap_keys_promote key e e _ Hk).
      * intros Hin.
        assert (Hbound : In k (JsMap.keys (LRU.cache (StatementCache.cache sc)))).
        { destruct Hin as [->|Hin]; [|exact Hin].
          destruct (in_dec string_dec key
                      (JsMap.keys (LRU.cache (StatementCache.cache sc))))
            as [Hin|Hout]; [exact Hin|].
          apply JsMap_get_In in Hout. congruence. }
        destruct (in_dec string_dec k
                    (JsMap.keys (JsMap.delete key
                       (LRU.cache (StatementCache.cache sc)) ++ [(key, e)])))
          as [Hyes|Hno]; [exact Hyes|].
        exfalso. apply JsMap_get_In in Hno.
        rewrite (JsMap_get_promote key k e _ Hk) in Hno.
        apply JsMap_get_In in Hno. contradiction.
    + cbn [StatementCache.hits StatementCache.misses]. lia.
  - unfold LRU.get. rewrite Hk.
    cbn [StatementCache.db_prepare StatementCache.cache StatementCache.hits
         StatementCache.misses].
    rewrite Hdb. unfold SC_counting. cbn [fst snd].
    destruct (prepareFn_succeeds key d) as [stmt Hstmt].
    destruct (prepareFn key d) as [outcome d']. cbn [fst] in Hstmt. subst outcome.
    cbn [fst snd].
    assert (Hroom : JsMap.size (LRU.cache (StatementCache.cache sc)) + 1
                    <= capacity).
    { assert (Hnd' : NoDup (key :: JsMap.keys
                                     (LRU.cache (StatementCache.cache sc)))).
      { constructor; [now apply JsMap_get_In | exact Hwf]. }
      pose proof (NoDup_incl_length Hnd' Hincl) as Hle.
      unfold JsMap.size, JsMap.keys in *. cbn [List.length] in Hle.
      rewrite length_map in Hle. lia. }
    assert (Hset : LRU.cache
              (fst (LRU.set
                 (LRU.mk (LRU.cache (StatementCache.cache sc))
                    (LRU.maxSize (StatementCache.cache sc))
                    (LRU.maxAge (StatementCache.cache sc))
                    (LRU.onEvict (StatementCache.cache sc))
                    (LRU.hits (StatementCache.cache sc))
                    (LRU.misses (StatementCache.cache sc) + 1))
                 key stmt now tt)) =
            LRU.cache (StatementCache.cache sc) ++ [(key, LRU.mkEntry stmt now)]).
    { unfold LRU.set, LRU.make_room. cbn [LRU.cache LRU.maxSize].
      unfold JsMap.has. rewrite Hk.
      destruct (Z.geb_spec (JsMap.size (LRU.cache (StatementCache.cache sc)))
                  (LRU.maxSize (StatementCache.cache sc))); [lia|].
      cbn [fst LRU.with_cache LRU.cache]. now apply JsMap_set_absent. }
    split; [|split].
    + unfold SC_inv, SC_store.
      cbn [StatementCache.db_prepare StatementCache.cache
           StatementCache.misses StatementCache.hits].
      rewrite Hset. split; [reflexivity|].
      split; [now apply JsMap_wf_add|].
      split; [unfold LRU.set; now destruct (LRU.make_room _ key tt)|].
      split; [unfold LRU.set; now destruct (LRU.make_room _ key tt)|].
      unfold JsMap.size in *. rewrite length_app. cbn [List.length].
      repeat split; lia.
    + intros k. cbn [StatementCache.cache]. rewrite Hset.
      unfold JsMap.keys. rewrite map_app, in_app_iff. cbn [List.map fst In].
      intuition.
    + cbn [StatementCache.hits StatementCache.misses]. lia.
Qed.

Lemma SC_prepare_each_within (calls : list (Z * string)) sc (d : D)
    (n capacity : Z) (universe : list string) :
  SC_inv prepareFn capacity sc n ->
  NoDup universe -> Z.of_nat (List.length universe) <= capacity ->
  incl (List.map (fun call => StatementCache.normalizeSQL (snd call)) calls
        ++ JsMap.keys (SC_store sc)) universe ->
  let r := SC_prepare_each sc (d, n) calls in
  SC_inv prepareFn capacity (fst r) (snd (snd r)) /\
  (forall k, In k (JsMap.keys (SC_store (fst r))) <->
             In k (List.map (fun call => StatementCache.normalizeSQL (snd call))
                            calls) \/
             In k (JsMap.keys (SC_store sc))) /\
  StatementCache.hits (fst r) + StatementCache.misses (fst r) =
    StatementCache.hits sc + StatementCache.misses sc +
    Z.of_nat (List.length calls).
Proof.
  revert sc d n. induction calls as [|[now sql] calls IH];
    intros sc d n Hinv Hnd Hlen Hincl.
  - cbn [SC_prepare_each fst snd List.map List.length In].
    split; [exact Hinv|]. split; [intros k; tauto | lia].
  - cbn [SC_prepare_each List.map snd] in *.
    assert (Hincl1 : incl (StatementCache.normalizeSQL sql ::
                           JsMap.keys (SC_store sc)) universe).
    { intros k [<-|Hin]; apply Hincl; [now left|].
      right. apply in_app_iff. now right. }
    pose proof (SC_prepare_within sc sql now d n capacity universe
                  Hinv Hnd Hlen Hincl1) as Hstep.
    cbv zeta in Hstep.
    destruct (StatementCache.prepare sc sql now (d, n)) as [[res sc1] [d1 n1]].
    cbn [fst snd] in *. destruct Hstep as (Hinv1 & Hkeys1 & Hsum1).
    assert (Hincl2 : incl
              (List.map (fun call => StatementCache.normalizeSQL (snd call))
                        calls ++ JsMap.keys (SC_store sc1)) universe).
    { intros k Hin. apply in_app_iff in Hin. destruct Hin as [Hin|Hin].
      - apply Hincl. right. apply in_app_iff. now left.
      - apply Hkeys1 in Hin. destruct Hin as [->|Hin];
          [apply Hincl; now left|].
        apply Hincl. right. apply in_app_iff. now right. }
    specialize (IH sc1 d1 n1 Hinv1 Hnd Hlen Hincl2). cbv zeta in IH.
    destruct IH as (Hinv2 & Hkeys2 & Hsum2).
    split; [exact Hinv2|]. split.
    + intros k. rewrite Hkeys2, Hkeys1. cbn [In]. intuition.
    + rewrite Hsum2, Hsum1. cbn [List.length]. lia.
Qed.

End SCRuns.

(** X14. Within the capacity every statement is prepared once. On a
    database whose [prepare] does not fail, a fresh statement cache whose
    capacity is at least the number of distinct normalized texts among
    the calls asks the database exactly once for each distinct normalized
    text: the number of database calls, the number of misses and the size
    of the cache all equal that number, and every other call is a hit. *)
Theorem X14_sc_prepares_once {Stmt D E : Type}
    (prepareFn : string -> D -> (E + Stmt) * D) (maxSize : Z) (d : D)
    (calls : list (Z * string)) :
  (forall sql d, exists stmt, fst (prepareFn sql d) = inr stmt) ->
  1 <= maxSize ->
  Z.of_nat (List.length (SC_distinct_keys calls)) <= maxSize ->
  let r := SC_prepare_each (SC_fresh (SC_counting prepareFn) maxSize) (d, 0)
                           calls in
  let distinct := Z.of_nat (List.length (SC_distinct_keys calls)) in
  snd (snd r) = distinct /\
  StatementCache.st_misses (StatementCache.getStats (fst r)) = distinct /\
  StatementCache.st_size (StatementCache.getStats (fst r)) = distinct /\
  StatementCache.st_hits (StatementCache.getStats (fst r)) =
    Z.of_nat (List.length calls) - distinct.
Proof.
  intros Hok Hcap Hdistinct.
  assert (Hinv : SC_inv prepareFn maxSize
                   (SC_fresh (SC_counting prepareFn) maxSize) 0).
  { unfold SC_inv, SC_fresh, SC_store. cbn. repeat split; try lia. constructor. }
  assert (Hincl : incl
    (List.map (fun call => StatementCache.normalizeSQL (snd call)) calls ++
     JsMap.keys (SC_store (SC_fresh (Stmt := Stmt) (E := E)
                             (SC_counting prepareFn) maxSize)))
    (SC_distinct_keys calls)).
  { intros k Hin. apply in_app_iff in Hin. destruct Hin as [Hin|[]].
    unfold SC_distinct_keys. now apply nodup_In. }
  pose proof (SC_prepare_each_within prepareFn Hok calls _ d 0 maxSize
                (SC_distinct_keys calls) Hinv
                (NoDup_nodup string_dec _) Hdistinct Hincl) as Hrun.
  cbv zeta in *.
  destruct (SC_prepare_each (SC_fresh (SC_counting prepareFn) maxSize) (d, 0)
              calls) as [sc [d' n]].
  cbn [fst snd] in *.
  destruct Hrun as ((Hdb & Hwf & Hage & Hmax & Hn & Hmiss & Hhits) & Hkeys & Hsum).
  assert (Hsize : JsMap.size (SC_store sc) =
                  Z.of_nat (List.length (SC_distinct_keys calls))).
  { unfold JsMap.size. f_equal.
    rewrite <- (length_map fst (SC_store sc)). fold (JsMap.keys (SC_store sc)).
    apply Nat.le_antisymm.
    - apply NoDup_incl_length; [exact Hwf|].
      intros k Hin. apply Hkeys in Hin. destruct Hin as [Hin|[]].
      unfold SC_distinct_keys. now apply nodup_In.
    - apply NoDup_incl_length; [apply NoDup_nodup|].
      intros k Hin. apply Hkeys. left.
      unfold SC_distinct_keys in Hin. now apply nodup_In in Hin. }
  unfold StatementCache.getStats, LRU.getStats.
  cbn [StatementCache.st_misses StatementCache.st_size StatementCache.st_hits
       LRU.st_size].
  unfold SC_store, SC_fresh in *.
  cbn [StatementCache.hits StatementCache.misses] in Hsum.
  repeat split; lia.
Qed.

(** X14 on five calls with two distinct statements. *)
Lemma X14_sc_prepares_once_witness :
  let r := SC_prepare_each
      (SC_fresh (SC_counting (fun sql (d : unit) =>
                                (inr sql : string + string, d))) 2) (tt, 0)
      [(0, "SELECT 1"); (1, "SELECT  1"); (2, "SELECT 2");
       (3, " SELECT 1 "); (4, "SELECT   2")] in
  snd (snd r) = 2 /\
  StatementCache.st_hits (StatementCache.getStats (fst r)) = 3.
Proof.
  pose proof (X14_sc_prepares_once
                (fun sql (d : unit) => (inr sql : string + string, d)) 2 tt
                [(0, "SELECT 1"); (1, "SELECT  1"); (2, "SELECT 2");
                 (3, " SELECT 1 "); (4, "SELECT   2")]
                (fun sql d => ex_intro _ sql eq_refl)
                ltac:(lia) ltac:(vm_compute; discriminate)) as H.
  cbv zeta in H. destruct H as (Hcalls & _ & _ & Hhits).
  split; [exact Hcalls | exact Hhits].
Defined.

(** ** LIKE patterns *)

Lemma Security_replaceAll_app (c : ascii) (replacement a b : string) :
  Security.replaceAll c replacement (a ++ b) =
  (Security.replaceAll c replacement a ++
   Security.replaceAll c replacement b)%string.
Proof.
  induction a as [|x a IH]; [reflexivity|].
  cbn [String.append Security.replaceAll]. rewrite IH.
  destruct (Ascii.eqb x c); [now rewrite str_app_assoc | reflexivity].
Qed.

(** The three passes of [escapeLikePattern] put an escape character before
    each special code unit and leave the others. *)
Lemma Security_escape_chars (input : string) :
  Security.escapeLikePattern input =
  match input with
  | EmptyString => ""
  | String c rest =>
      (LIKE_escapeChar c ++ Security.escapeLikePattern rest)%string
  end.
Proof.
  assert (Hpasses : forall s,
    Security.escapeLikePattern s =
    Security.replaceAll "_" (String Security.backslash "_")
      (Security.replaceAll "%" (String Security.backslash "%")
         (Security.replaceAll Security.backslash
            (String Security.backslash (String Security.backslash "")) s))).
  { now intros [|c s]. }
  destruct input as [|c rest]; [reflexivity|].
  rewrite !Hpasses.
  change (String c rest) with (String c "" ++ rest)%string.
  rewrite !Security_replaceAll_app. f_equal.
  unfold LIKE_escapeChar, LIKE_special. cbn [Security.replaceAll].
  destruct (Ascii.eqb_spec c Security.backslash) as [->|H1]; [reflexivity|].
  cbn [Security.replaceAll orb].
  destruct (Ascii.eqb_spec c "%") as [->|H2]; [reflexivity|].
  cbn [Security.replaceAll orb].
  destruct (Ascii.eqb_spec c "_") as [->|H3]; reflexivity.
Qed.

Lemma LIKE_tokens_app (a b : string) (escaped : bool)
    (tokens : list LIKE_token) :
  LIKE_tokens_from escaped a = Some tokens ->
  LIKE_tokens_from escaped (a ++ b) =
  option_map (app tokens) (LIKE_tokens_from false b).
Proof.
  revert escaped tokens. induction a as [|c a IH]; intros escaped tokens.
  - cbn [LIKE_tokens_from String.append]. destruct escaped; [discriminate|].
    intros [= <-]. now destruct (LIKE_tokens_from false b).
  - assert (Hcons : forall (t : LIKE_token) (e : bool),
              option_map (cons t) (LIKE_tokens_from e a) = Some tokens ->
              option_map (cons t) (LIKE_tokens_from e (a ++ b)) =
              option_map (app tokens) (LIKE_tokens_from false b)).
    { intros t e Heq.
      destruct (LIKE_tokens_from e a) as [ts|] eqn:Ha; [|discriminate].
      injection Heq as <-. rewrite (IH e ts Ha).
      now destruct (LIKE_tokens_from false b). }
    cbn [LIKE_tokens_from String.append].
    destruct escaped; [apply Hcons|].
    destruct (Ascii.eqb c Security.backslash); [apply IH|].
    destruct (Ascii.eqb c "%"); [apply Hcons|].
    destruct (Ascii.eqb c "_"); apply Hcons.
Qed.

Lemma LIKE_tokens_escapeChar (c : ascii) :
  LIKE_tokens_from false (LIKE_escapeChar c) = Some [LIKE_Lit c].
Proof.
  unfold LIKE_escapeChar, LIKE_special.
  destruct (Ascii.eqb c Security.backslash) eqn:H1.
  - cbn [orb LIKE_tokens_from]. now rewrite Ascii.eqb_refl.
  - destruct (Ascii.eqb c "%") eqn:H2.
    + cbn [orb LIKE_tokens_from]. now rewrite Ascii.eqb_refl.
    + destruct (Ascii.eqb c "_") eqn:H3.
      * cbn [orb LIKE_tokens_from]. now rewrite Ascii.eqb_refl.
      * cbn [orb LIKE_tokens_from]. now rewrite H1, H2, H3.
Qed.

(** The escaped text reads as the literals of the input. *)
Lemma LIKE_tokens_escaped (input : string) :
  LIKE_tokens (Security.escapeLikePattern input) =
  Some (List.map LIKE_Lit (list_ascii_of_string input)).
Proof.
  unfold LIKE_tokens. induction input as [|c input IH]; [reflexivity|].
  rewrite Security_escape_chars.
  rewrite (LIKE_tokens_app _ _ false _ (LIKE_tokens_escapeChar c)), IH.
  reflexivity.
Qed.

Lemma LIKE_skip_spec (f : string -> bool) (text : string) :
  LIKE_skip f text = true <->
  exists before rest, text = (before ++ rest)%string /\ f rest = true.
Proof.
  induction text as [|a text IH]; cbn [LIKE_skip].
  - rewrite orb_false_r. split.
    + intros H. now exists "", "".
    + intros (before & rest & Heq & H). destruct before; [|discriminate].
      cbn in Heq. now subst rest.
  - rewrite orb_true_iff, IH. split.
    + intros [H|(before & rest & -> & H)].
      * now exists "", (String a text).
      * now exists (String a before), rest.
    + intros (before & rest & Heq & H). destruct before as [|x before].
      * left. cbn in Heq. now subst rest.
      * right. injection Heq as -> ->. now exists before, rest.
Qed.

Lemma LIKE_match_literals (eqc : ascii -> ascii -> bool) (term : string)
    (rest : list LIKE_token) (text : string) :
  LIKE_match eqc (List.map LIKE_Lit (list_ascii_of_string term) ++ rest) text
  = true <->
  exists found after, text = (found ++ after)%string /\
    LIKE_same eqc term found = true /\ LIKE_match eqc rest after = true.
Proof.
  revert text. induction term as [|c term IH]; intros text.
  - cbn [list_ascii_of_string List.map app]. split.
    + intros H. now exists "", text.
    + intros (found & after & -> & Hsame & H).
      destruct found; [exact H | discriminate].
  - cbn [list_ascii_of_string List.map app LIKE_match].
    destruct text as [|a text].
    + split; [discriminate|]. intros (found & after & Heq & Hsame & _).
      destruct found; discriminate.
    + rewrite andb_true_iff, IH. split.
      * intros (Hc & found & after & -> & Hsame & H).
        exists (String a found), after. cbn [LIKE_same]. now rewrite Hc, Hsame.
      * intros (found & after & Heq & Hsame & H).
        destruct found as [|x found]; [discriminate|].
        injection Heq as -> ->. cbn [LIKE_same] in Hsame.
        apply andb_true_iff in Hsame. destruct Hsame as [Hc Hsame].
        split; [exact Hc|]. now exists found, after.
Qed.

Lemma LIKE_match_end (eqc : ascii -> ascii -> bool) (text : string) :
  LIKE_match eqc [] text = true <-> text = "".
Proof. destruct text; split; (reflexivity || discriminate). Qed.

Lemma LIKE_match_any (eqc : ascii -> ascii -> bool) (text : string) :
  LIKE_match eqc [LIKE_AnyString] text = true.
Proof.
  cbn [LIKE_match]. apply LIKE_skip_spec. exists text, "".
  now rewrite str_app_nil_r.
Qed.

(** X15. [escapeLikePattern] leaves no wildcard. Read as a LIKE pattern
    with the backslash as the escape character, the escaped text consists
    of literals only, and these spell the input: no [%] or [_] of the
    input acts as a wildcard and no escape character is left dangling.
    Hence the input can be read back from the escaped text; a text with no
    special code unit is returned as it is, and the empty text gives the
    empty text. *)
Theorem X15_escapeLikePattern_literal (input : string) :
  LIKE_tokens (Security.escapeLikePattern input) =
    Some (List.map LIKE_Lit (list_ascii_of_string input)) /\
  (forall other, Security.escapeLikePattern other =
                 Security.escapeLikePattern input -> other = input) /\
  (allChars LIKE_ordinary input = true ->
   Security.escapeLikePattern input = input) /\
  Security.escapeLikePattern "" = "".
Proof.
  split; [apply LIKE_tokens_escaped|]. split; [|split; [|reflexivity]].
  - intros other Heq.
    pose proof (LIKE_tokens_escaped other) as H1.
    rewrite Heq, LIKE_tokens_escaped in H1. injection H1 as H1.
    rewrite <- (string_of_list_ascii_of_string input),
            <- (string_of_list_ascii_of_string other).
    f_equal. symmetry in H1. revert H1.
    generalize (list_ascii_of_string other), (list_ascii_of_string input).
    intros l1. induction l1 as [|x l1 IH]; intros [|y l2] H;
      try discriminate; [reflexivity|].
    injection H as -> H. f_equal. now apply IH.
  - induction input as [|c input IH]; [reflexivity|].
    cbn [allChars]. intros H. apply andb_true_iff in H. destruct H as [Hc H].
    rewrite Security_escape_chars, (IH H). unfold LIKE_escapeChar.
    unfold LIKE_ordinary in Hc. apply negb_true_iff in Hc. now rewrite Hc.
Qed.

(** X16. The patterns of [createSafeLikePattern] and of [searchByName]
    match what their names say. With the escape clause the function
    returns, a text matches the 'contains' pattern (also the pattern for an
    omitted position, and the one [searchByName] binds) exactly when the
    search term occurs in it, the 'startsWith' pattern when it starts
    with the term, the 'endsWith' pattern when it ends with it and the
    'exact' pattern when it is the term, whatever special code units the
    term holds; code units are compared as the database compares a
    literal. *)
Theorem X16_createSafeLikePattern_matches (eqc : ascii -> ascii -> bool)
    (searchTerm text : string) :
  let matches := fun position =>
    LIKE_matches eqc
      (Security.pattern (Security.createSafeLikePattern searchTerm position))
      text in
  (matches (Some Security.Contains) = true <->
   exists before found after,
     text = (before ++ found ++ after)%string /\
     LIKE_same eqc searchTerm found = true) /\
  matches None = matches (Some Security.Contains) /\
  (matches (Some Security.StartsWith) = true <->
   exists found after,
     text = (found ++ after)%string /\ LIKE_same eqc searchTerm found = true) /\
  (matches (Some Security.EndsWith) = true <->
   exists before found,
     text = (before ++ found)%string /\ LIKE_same eqc searchTerm found = true) /\
  (matches (Some Security.Exact) = true <->
   LIKE_same eqc searchTerm text = true) /\
  (forall position,
     Security.escapeClause (Security.createSafeLikePattern searchTerm position)
     = ("ESCAPE '" ++ String Security.backslash "'")%string) /\
  (forall projectPath,
     Repositories.searchByName_params projectPath searchTerm =
     [projectPath;
      Security.pattern
        (Security.createSafeLikePattern searchTerm (Some Security.Contains))]).
Proof.
  intros matches.
  pose proof (LIKE_tokens_escaped searchTerm) as Hesc. unfold LIKE_tokens in Hesc.
  set (lits := List.map LIKE_Lit (list_ascii_of_string searchTerm)) in *.
  assert (Hcontains : LIKE_tokens
            ("%" ++ Security.escapeLikePattern searchTerm ++ "%") =
          Some (LIKE_AnyString :: lits ++ [LIKE_AnyString])).
  { unfold LIKE_tokens. cbn [String.append LIKE_tokens_from Ascii.eqb Bool.eqb
                             Security.backslash].
    now rewrite (LIKE_tokens_app _ "%" false _ Hesc). }
  assert (Hstarts : LIKE_tokens (Security.escapeLikePattern searchTerm ++ "%") =
                    Some (lits ++ [LIKE_AnyString])).
  { unfold LIKE_tokens. now rewrite (LIKE_tokens_app _ "%" false _ Hesc). }
  assert (Hends : LIKE_tokens ("%" ++ Security.escapeLikePattern searchTerm) =
                  Some (LIKE_AnyString :: lits ++ [])).
  { unfold LIKE_tokens. cbn [String.append LIKE_tokens_from Ascii.eqb Bool.eqb
                             Security.backslash].
    now rewrite Hesc, app_nil_r. }
  assert (Hexact : LIKE_tokens (Security.escapeLikePattern searchTerm) =
                   Some (lits ++ [])).
  { unfold LIKE_tokens. now rewrite Hesc, app_nil_r. }
  unfold matches, LIKE_matches, Security.createSafeLikePattern.
  cbn [Security.pattern Security.escapeClause].
  rewrite Hcontains, Hstarts, Hends, Hexact. subst lits.
  split; [|split; [reflexivity|split; [|split; [|split; [|split]]]]].
  - cbn [LIKE_match]. rewrite LIKE_skip_spec. split.
    + intros (before & rest & -> & H).
      apply LIKE_match_literals in H. destruct H as (found & after & -> & Hsame & _).
      now exists before, found, after.
    + intros (before & found & after & -> & Hsame).
      exists before, (found ++ after)%string. split; [reflexivity|].
      apply LIKE_match_literals. exists found, after.
      split; [reflexivity|]. split; [exact Hsame | apply LIKE_match_any].
  - rewrite LIKE_match_literals. split.
    + intros (found & after & -> & Hsame & _). now exists found, after.
    + intros (found & after & -> & Hsame). exists found, after.
      split; [reflexivity|]. split; [exact Hsame | apply LIKE_match_any].
  - cbn [LIKE_match]. rewrite LIKE_skip_spec. split.
    + intros (before & rest & -> & H).
      apply LIKE_match_literals in H. destruct H as (found & after & -> & Hsame & H).
      apply LIKE_match_end in H. subst after. rewrite str_app_nil_r.
      now exists before, found.
    + intros (before & found & -> & Hsame). exists before, found.
      split; [reflexivity|]. apply LIKE_match_literals. exists found, "".
      rewrite str_app_nil_r. now repeat split.
  - rewrite LIKE_match_literals. split.
    + intros (found & after & -> & Hsame & H).
      apply LIKE_match_end in H. subst after. now rewrite str_app_nil_r.
    + intros Hsame. exists text, "". rewrite str_app_nil_r. now repeat split.
  - reflexivity.
  - reflexivity.
Qed.

(** ** Clearing the statement cache *)

(** X17. [clear] forces re-preparation. After [clear] the statistics read
    zero, and the next [prepare] of any text, cached before or not, asks
    the database for the normalized text, returns what the database
    returns and counts as the first miss. *)
Theorem X17_sc_clear {Stmt D E : Type} (sc : StatementCache.t Stmt D E)
    (sql : string) (now : Z) (d : D) :
  let cleared := StatementCache.clear sc in
  let r := StatementCache.prepare cleared sql now d in
  StatementCache.getStats cleared = StatementCache.mkStats 0 0 0 0%Q /\
  (fst (fst r), snd r) =
    StatementCache.db_prepare sc (StatementCache.normalizeSQL sql) d /\
  StatementCache.misses (snd (fst r)) = 1 /\
  StatementCache.hits (snd (fst r)) = 0.
Proof.
  cbv zeta. split; [reflexivity|].
  unfold StatementCache.prepare, StatementCache.clear, LRU.clear, LRU.get.
  cbn [StatementCache.cache LRU.cache JsMap.get JsMap.empty
       StatementCache.db_prepare StatementCache.hits StatementCache.misses].
  destruct (StatementCache.db_prepare sc (StatementCache.normalizeSQL sql) d)
    as [[err|stmt] d']; cbn; repeat split.
Qed.

(** ** The statement of [IntelligenceRepository.update] *)

Lemma IU_update_none (id : string) (u : Repositories.IntelligenceUpdates) :
  Repositories.update id u = None <->
  IU_given u = [false; false; false; false; false; false].
Proof.
  destruct u as [[a|] [b|] [c|] [d|] [e|] [f|] m];
    split; intros H; (reflexivity || discriminate).
Qed.

Lemma IU_update_some (id : string) (u : Repositories.IntelligenceUpdates)
    (sql : string) (values : list Repositories.SqlValue) :
  Repositories.update id u = Some (sql, values) ->
  countChar "?" sql = List.length values /\
  values = IU_values u ++ [Repositories.SqlText id] /\
  option_map fst (Repositories.update "" (IU_blank u)) = Some sql.
Proof.
  destruct u as [[a|] [b|] [c|] [d|] [e|] [f|] m]; intros H;
    try discriminate; injection H as <- <-; repeat split.
Qed.

Lemma IU_blank_given (u u' : Repositories.IntelligenceUpdates) :
  IU_given u' = IU_given u -> IU_blank u' = IU_blank u.
Proof.
  destruct u as [[a|] [b|] [c|] [d|] [e|] [f|] m];
    destruct u' as [[a'|] [b'|] [c'|] [d'|] [e'|] [f'|] m'];
    intros H; (reflexivity || discriminate).
Qed.

(** X18. The statement of [update]. No statement is run when none of
    [projectPath], [status], [fileCount], [conceptCount], [patternCount],
    [updatedAt] is given: an update of [metadata] alone is dropped without
    an error. Otherwise the statement has as many placeholders as bound
    values, the values are those of the given fields in the order of the
    record followed by the id, and the text of the statement depends only
    on which fields are given, never on a value or on the id. *)
Theorem X18_update_statement (id : string)
    (u : Repositories.IntelligenceUpdates) :
  (Repositories.update id u = None <->
   IU_given u = [false; false; false; false; false; false]) /\
  (forall sql values,
     Repositories.update id u = Some (sql, values) ->
     countChar "?" sql = List.length values /\
     values = IU_values u ++ [Repositories.SqlText id] /\
     forall id' u', IU_given u' = IU_given u ->
       option_map fst (Repositories.update id' u') = Some sql).
Proof.
  split; [apply IU_update_none|].
  intros sql values H.
  destruct (IU_update_some id u sql values H) as (Hcount & Hvalues & Hsql).
  split; [exact Hcount|]. split; [exact Hvalues|].
  intros id' u' Hgiven.
  destruct (Repositories.update id' u') as [[sql' values']|] eqn:H'.
  - destruct (IU_update_some id' u' sql' values' H') as (_ & _ & Hsql').
    rewrite (IU_blank_given u u' Hgiven) in Hsql'.
    cbn [option_map fst]. congruence.
  - apply IU_update_none in H'. rewrite Hgiven in H'.
    apply IU_update_none with (id := id) in H'. congruence.
Qed.

(** ** Keys of different queries *)

(** X19. Keys of different queries do not collide. When the query names
    hold no colon, two generated keys are equal only if the names are
    equal and the parameters have the same JSON text, so that an entry
    stored for one query is never returned for another. *)
Theorem X19_key_names_distinct (name1 name2 : string)
    (params1 params2 : JSON.object) :
  allChars notColon name1 = true -> allChars notColon name2 = true ->
  KeyBuilder.generateCacheKey name1 params1 =
  KeyBuilder.generateCacheKey name2 params2 ->
  name1 = name2 /\
  JSON.stringify (KeyBuilder.sortedParams params1) =
  JSON.stringify (KeyBuilder.sortedParams params2).
Proof.
  intros H1 H2 Heq. unfold KeyBuilder.generateCacheKey in Heq.
  apply (delimited_inj notColon) in Heq; try assumption; try reflexivity.
  destruct Heq as [Hname Hrest]. split; [exact Hname|].
  now apply (str_app_inv_head ":") in Hrest.
Qed.

(** X19 on two query names. *)
Lemma X19_key_names_distinct_witness :
  KeyBuilder.generateCacheKey "patterns" [("id", JSON.Int 1)] <>
  KeyBuilder.generateCacheKey "concepts" [("id", JSON.Int 1)].
Proof.
  intros Heq.
  destruct (X19_key_names_distinct "patterns" "concepts"
              [("id", JSON.Int 1)] [("id", JSON.Int 1)]
              eq_refl eq_refl Heq) as [Hname _].
  discriminate Hname.
Defined.

(** ** The order of [forEach] *)

Section LRUVisits.
Context {T W : Type}.
Implicit Types (c : LRU.t T W) (w : W) (key k : string) (v : T) (now : Z).

Lemma LRU_forEach_fold {A : Type} (callback : T -> string -> A -> A)
    (m : JsMap.t (LRU.CacheEntry T)) (a : A) (seen : list (string * T)) :
  fold_left (fun acc kv => callback (LRU.value (snd kv)) (fst kv) acc) m
            (fold_left (fun acc p => callback (snd p) (fst p) acc) seen a) =
  fold_left (fun acc p => callback (snd p) (fst p) acc)
    (fold_left (fun acc kv => acc ++ [(fst kv, LRU.value (snd kv))]) m seen) a.
Proof.
  revert seen. induction m as [|kv m IH]; intros seen; [reflexivity|].
  cbn [fold_left]. rewrite <- IH. f_equal.
  now rewrite fold_left_app.
Qed.

Lemma LRU_visits_store c :
  LRU_visits c =
  List.map (fun kv => (fst kv, LRU.value (snd kv))) (LRU.cache c).
Proof.
  unfold LRU_visits, LRU.forEach.
  assert (H : forall m seen,
    fold_left (fun acc (kv : string * LRU.CacheEntry T) =>
                 acc ++ [(fst kv, LRU.value (snd kv))]) m seen =
    seen ++ List.map (fun kv => (fst kv, LRU.value (snd kv))) m).
  { induction m as [|kv m IH]; intros seen; cbn [fold_left List.map].
    - now rewrite app_nil_r.
    - now rewrite IH, <- app_assoc. }
  apply H.
Qed.

End LRUVisits.

(** X20. [forEach] visits in eviction order. Whatever the callback, it is
    called on the bindings in the order of the cache, once for each bound
    key and also for entries that have aged. The key of the last [set],
    and the key of a [get] that returned a value, is visited last; when a
    [set] of a new key finds the cache full, the key that was visited
    first is the one that goes. *)
Theorem X20_lru_forEach_order {T W : Type} (c : LRU.t T W) :
  (forall (A : Type) (callback : T -> string -> A -> A) (a : A),
     LRU.forEach c callback a =
     fold_left (fun acc p => callback (snd p) (fst p) acc) (LRU_visits c) a) /\
  List.map fst (LRU_visits c) = JsMap.keys (LRU.cache c) /\
  (forall key v now w,
     exists earlier,
       LRU_visits (fst (LRU.set c key v now w)) = earlier ++ [(key, v)]) /\
  (forall key v now,
     fst (LRU.get c key now) = Some v ->
     exists earlier,
       LRU_visits (snd (LRU.get c key now)) = earlier ++ [(key, v)]) /\
  (forall key v now w,
     LRU_inv c -> LRU_evicting c key = true ->
     exists oldest rest,
       LRU_visits c = oldest :: rest /\
       LRU_visits (fst (LRU.set c key v now w)) = rest ++ [(key, v)]).
Proof.
  split; [|split; [|split; [|split]]].
  - intros A callback a. unfold LRU_visits, LRU.forEach.
    apply (LRU_forEach_fold callback (LRU.cache c) a []).
  - rewrite LRU_visits_store, map_map. reflexivity.
  - intros key v now w. rewrite LRU_visits_store, LRU_set_store, map_app.
    now eexists.
  - intros key v now Hres. rewrite LRU_get_result in Hres.
    destruct (JsMap.get key (LRU.cache c)) as [e|] eqn:Hk; [|discriminate].
    destruct (LRU.isExpired c e now) eqn:Hexp; [discriminate|].
    injection Hres as <-.
    rewrite LRU_visits_store, (LRU_get_hit c key now e Hk Hexp).
    cbn [snd LRU.cache]. rewrite map_app. now eexists.
  - intros key v now w Hinv Hfull.
    destruct (LRU_set_full c key v now w Hinv Hfull)
      as (k0 & e0 & rest & Hm & Hset).
    rewrite !LRU_visits_store, Hset, Hm.
    cbn [fst LRU.with_cache LRU.cache List.map]. rewrite map_app.
    now do 2 eexists.
Qed.

(** ** The constructors *)

(** X22. A capacity below 1 is refused by every cache. The constructors of
    the query cache and of the statement cache throw the error of the
    inner cache, [maxSize must be at least 1], exactly when the capacity is
    below 1; otherwise they give an empty cache whose statistics read
    zero. Nothing else is checked: any [ttlMs] is accepted. *)
Theorem X22_capacity_below_one {V Stmt D E : Type}
    (options : QueryCache.Options)
    (prepareFn : string -> D -> (E + Stmt) * D) (maxSize : Z) :
  (QueryCache.opt_maxSize options < 1 ->
   QueryCache.new (V := V) options = inl "maxSize must be at least 1") /\
  (1 <= QueryCache.opt_maxSize options ->
   exists q, QueryCache.new (V := V) options = inr q /\
     QueryCache.getStats q = QueryCache.mkStats 0 0 0 0%Q 0 0 /\
     QueryCache.ttlMs q = QueryCache.opt_ttlMs options) /\
  (maxSize < 1 ->
   StatementCache.new prepareFn maxSize = inl "maxSize must be at least 1") /\
  (1 <= maxSize ->
   exists sc, StatementCache.new prepareFn maxSize = inr sc /\
     StatementCache.getStats sc = StatementCache.mkStats 0 0 0 0%Q).
Proof.
  unfold QueryCache.new, StatementCache.new, LRU.new. cbn [LRU.opt_maxSize].
  split; [|split; [|split]].
  - intros H. destruct (Z.ltb_spec (QueryCache.opt_maxSize options) 1);
      [reflexivity | lia].
  - intros H. destruct (Z.ltb_spec (QueryCache.opt_maxSize options) 1); [lia|].
    eexists. split; [reflexivity|]. now split.
  - intros H. destruct (Z.ltb_spec maxSize 1); [reflexivity | lia].
  - intros H. destruct (Z.ltb_spec maxSize 1); [lia|].
    eexists. split; reflexivity.
Qed.

(** ** What keeps a memoized value *)

Section QCMemo.
Context {V E : Type}.
Implicit Types (q : QueryCache.t V) (key k : string) (v : V).








End QCMemo.



(** ** Where a cached value comes from *)

Section QCProvenance.
Context {V E : Type}.
Implicit Types (q : QueryCache.t V) (key k : string) (now : Z).

Lemma JsMap_get_delete_some {A : Type} key k (m : JsMap.t A) (e : A) :
  JsMap.get k (JsMap.delete key m) = Some e -> JsMap.get k m = Some e.
Proof.
  destruct (String.eqb_spec k key) as [->|Hne].
  - now rewrite JsMap_get_delete_eq.
  - now rewrite JsMap_get_delete_ne.
Qed.

Lemma LRU_make_room_binding {T W : Type} (c : LRU.t T W) key (w : W) k
    (e : LRU.CacheEntry T) :
  JsMap.get k (fst (LRU.make_room c key w)) = Some e ->
  JsMap.get k (LRU.cache c) = Some e.
Proof.
  unfold LRU.make_room.
  destruct (JsMap.has key (LRU.cache c)); [apply JsMap_get_delete_some|].
  destruct (JsMap.size (LRU.cache c) >=? LRU.maxSize c); [|tauto].
  destruct (JsMap.first_key (LRU.cache c)) as [k0|]; [|tauto].
  cbv zeta. destruct (LRU.onEvict c), (JsMap.get k0 (LRU.cache c));
    apply JsMap_get_delete_some.
Qed.

(** A binding after [set] is the new one or a binding from before. *)
Lemma QC_set_binding q key (v : option V) now k
    (e : LRU.CacheEntry (QueryCache.CacheEntry V)) :
  JsMap.get k (QC_store (QueryCache.set q key v now)) = Some e ->
  (k = key /\ e = QC_new_entry q v now) \/ JsMap.get k (QC_store q) = Some e.
Proof.
  unfold QC_store, QueryCache.set. cbv zeta.
  pose proof (LRU_set_store (QueryCache.cache q) key
                (QueryCache.mkEntry v
                   (if QueryCache.ttlMs q >? 0
                    then QueryCache.At (now + QueryCache.ttlMs q)
                    else QueryCache.Never))
                now (QueryCache.evictions q)) as Hstore.
  destruct (LRU.set (QueryCache.cache q) key _ now (QueryCache.evictions q))
    as [c ev] eqn:Hset.
  cbn [fst QueryCache.cache] in *. rewrite Hstore, JsMap_get_app_last.
  destruct (JsMap.get k (fst (LRU.make_room (QueryCache.cache q) key
                                (QueryCache.evictions q)))) as [e0|] eqn:Hk.
  - intros [= <-]. right. now apply LRU_make_room_binding in Hk.
  - destruct (String.eqb_spec key k) as [<-|]; [|discriminate].
    intros [= <-]. now left.
Qed.

(** A binding after [get] comes from a binding before, with the same
    value; without [refreshOnAccess] it is the same entry. *)
Lemma QC_get_binding q key now k
    (e' : LRU.CacheEntry (QueryCache.CacheEntry V)) :
  QC_inv q ->
  JsMap.get k (QC_store (snd (QueryCache.get q key now))) = Some e' ->
  exists e, JsMap.get k (QC_store q) = Some e /\
    QueryCache.value (LRU.value e') = QueryCache.value (LRU.value e) /\
    (QueryCache.refreshOnAccess q = false -> e' = e).
Proof.
  intros (_ & Hage & _).
  destruct (String.eqb_spec k key) as [->|Hne].
  2:{ rewrite (QC_get_frame q key now k Hne). intros H. now exists e'. }
  destruct (JsMap.get key (QC_store q)) as [e|] eqn:Hk.
  2:{ rewrite (QC_get_absent q key now Hk). cbn [snd]. unfold QC_store at 1.
      cbn [QueryCache.cache LRU.cache]. rewrite Hk. discriminate. }
  destruct ((QueryCache.ttlMs q >? 0) &&
            QueryCache.isPast now (QueryCache.expiresAt (LRU.value e)))
    eqn:Hpast.
  - rewrite (QC_get_expired q key now e Hage Hk Hpast). cbn [snd].
    unfold QC_store at 1. cbn [QueryCache.cache LRU.cache].
    rewrite JsMap_get_delete_eq. discriminate.
  - rewrite (QC_get_valid q key now e Hage Hk Hpast). cbn [snd].
    set (st := QC_store q) in *. unfold QC_store. cbv zeta.
    cbn [QueryCache.cache].
    destruct (QueryCache.refreshOnAccess q && (QueryCache.ttlMs q >? 0))
      eqn:Hrefresh.
    + rewrite QC_store_writeExpiresAt. cbn [LRU.cache].
      rewrite (JsMap_get_promote key key e st Hk), Hk, String.eqb_refl.
      intros [= <-]. exists e. split; [reflexivity|]. split; [reflexivity|].
      intros Hoff. rewrite Hoff in Hrefresh. discriminate.
    + cbn [LRU.cache]. rewrite (JsMap_get_promote key key e st Hk), Hk.
      intros [= <-]. now exists e.
Qed.

Lemma QC_last_stored_app (key : string) (events more : list (QC_event V)) :
  QC_last_stored key (events ++ more) =
  fold_left (QC_track key) more (QC_last_stored key events).
Proof. unfold QC_last_stored. apply fold_left_app. Qed.

(** Provenance goes through a call that stores nothing and keeps the
    values of the entries it keeps. *)
Lemma QC_provenance_kept q q' (events : list (QC_event V)) :
  QueryCache.ttlMs q' = QueryCache.ttlMs q ->
  QueryCache.refreshOnAccess q' = QueryCache.refreshOnAccess q ->
  (forall k e', JsMap.get k (QC_store q') = Some e' ->
     exists e, JsMap.get k (QC_store q) = Some e /\
       QueryCache.value (LRU.value e') = QueryCache.value (LRU.value e) /\
       (QueryCache.refreshOnAccess q = false -> e' = e)) ->
  QC_provenance q events -> QC_provenance q' events.
Proof.
  intros Httl Hrefresh Hfrom Hprov k e' Hk.
  destruct (Hfrom k e' Hk) as (e & Hke & Hvalue & Hsame).
  destruct (Hprov k e Hke) as (t & Hstored & Hexpiry).
  exists t. rewrite Hvalue. split; [exact Hstored|].
  rewrite Httl, Hrefresh. intros Hoff Hpos.
  rewrite (Hsame Hoff). now apply Hexpiry.
Qed.

Lemma QC_get_provenance q key now (events : list (QC_event V)) :
  QC_inv q -> QC_provenance q events ->
  QC_provenance (snd (QueryCache.get q key now)) events.
Proof.
  intros Hinv. apply QC_provenance_kept.
  - apply QC_get_config.
  - apply QC_get_config.
  - intros k e'. now apply QC_get_binding.
Qed.

Lemma QC_set_provenance q key (v : option V) now (events : list (QC_event V)) :
  QC_provenance q events ->
  QC_provenance (QueryCache.set q key v now) (events ++ [QStored key v now]).
Proof.
  intros Hprov k e Hk.
  destruct (QC_set_fields q key v now) as (Hnew & Httl & Hrefresh & _).
  rewrite Httl, Hrefresh, QC_last_stored_app.
  cbn [fold_left QC_track].
  destruct (String.eqb_spec key k) as [<-|Hne].
  - rewrite Hnew in Hk. injection Hk as <-. exists now. split; [reflexivity|].
    intros _ Hpos. unfold QC_new_entry. cbn [LRU.value QueryCache.expiresAt].
    destruct (Z.gtb_spec (QueryCache.ttlMs q) 0); [reflexivity | lia].
  - destruct (QC_set_binding q key v now k e Hk) as [[-> _]|Hold];
      [congruence|].
    exact (Hprov k e Hold).
Qed.

Lemma QC_step_provenance q now (op : QC_call V E)
    (events : list (QC_event V)) :
  QC_inv q -> QC_provenance q events ->
  QC_inv (QC_step q now op) /\
  QC_provenance (QC_step q now op) (events ++ QC_event_of q now op) /\
  QueryCache.ttlMs (QC_step q now op) = QueryCache.ttlMs q /\
  QueryCache.refreshOnAccess (QC_step q now op) = QueryCache.refreshOnAccess q.
Proof.
  intros Hinv Hprov.
  destruct op as [key|key v|key outcome storedAt| |prefix|];
    cbn [QC_step QC_event_of].
  - rewrite app_nil_r. split; [now apply QC_get_inv|].
    split; [now apply QC_get_provenance|]. apply QC_get_config.
  - split; [now apply QC_set_inv|]. split; [now apply QC_set_provenance|].
    destruct (QC_set_fields q key v now) as (_ & Httl & Hrefresh & _).
    now split.
  - pose proof (QC_get_inv q key now Hinv) as Hinv1.
    pose proof (QC_get_provenance q key now events Hinv Hprov) as Hprov1.
    destruct (QC_get_config q key now) as [Httl1 Hrefresh1].
    unfold QueryCache.getOrCompute.
    destruct (QueryCache.get q key now) as [[v|] q1]; cbn [fst snd] in *.
    { rewrite app_nil_r. split; [exact Hinv1|]. split; [exact Hprov1|].
      now split. }
    destruct outcome as [err|v]; cbn [fst snd].
    { rewrite app_nil_r. split; [exact Hinv1|]. split; [exact Hprov1|].
      now split. }
    destruct (QC_set_fields q1 key v storedAt) as (_ & Httl & Hrefresh & _).
    split; [now apply QC_set_inv|].
    split; [now apply QC_set_provenance|]. split; congruence.
  - split; [now apply QC_clear_inv|]. split; [|now split].
    intros k e Hk. discriminate Hk.
  - split; [now apply QC_invalidate_inv|]. split; [|now split].
    intros k e Hk. rewrite QC_invalidate_store in Hk.
    rewrite (JsMap_get_filter_key
               (fun key => negb (String.prefix prefix key))) in Hk.
    destruct (String.prefix prefix k) eqn:Hp; [discriminate|].
    cbn [negb] in Hk. destruct (Hprov k e Hk) as (t & Hstored & Hexpiry).
    exists t. split; [|exact Hexpiry].
    rewrite QC_last_stored_app. cbn [fold_left QC_track]. now rewrite Hp.
  - rewrite app_nil_r. split; [exact Hinv|]. split; [exact Hprov|]. now split.
Qed.

Lemma QC_run_provenance (calls : list (Z * QC_call V E)) q
    (events : list (QC_event V)) :
  QC_inv q -> QC_provenance q events ->
  QC_inv (QC_run q calls) /\
  QC_provenance (QC_run q calls) (events ++ QC_events q calls) /\
  QueryCache.ttlMs (QC_run q calls) = QueryCache.ttlMs q /\
  QueryCache.refreshOnAccess (QC_run q calls) = QueryCache.refreshOnAccess q.
Proof.
  revert q events. induction calls as [|[now op] calls IH];
    intros q events Hinv Hprov.
  - cbn [QC_run QC_events]. rewrite app_nil_r.
    split; [exact Hinv|]. split; [exact Hprov|]. now split.
  - cbn [QC_run QC_events].
    destruct (QC_step_provenance q now op events Hinv Hprov)
      as (Hinv1 & Hprov1 & Httl1 & Hrefresh1).
    destruct (IH _ _ Hinv1 Hprov1) as (Hinv2 & Hprov2 & Httl2 & Hrefresh2).
    rewrite <- app_assoc in Hprov2.
    split; [exact Hinv2|]. split; [exact Hprov2|]. split; congruence.
Qed.

End QCProvenance.

(** X21. No stale, no foreign and no overwritten value. From the
    constructed cache on, after any sequence of calls, a value that [get]
    returns for a key is the value stored last for that very key (by a
    [set], or by a [getOrCompute] whose lookup found nothing and whose
    [computeFn] returned it), with no [clear] and no invalidation of a
    prefix of the key since; and when [ttlMs] is positive and
    [refreshOnAccess] is off, that store was made no more than [ttlMs]
    before the lookup. *)
Theorem X21_qc_no_stale_value {V E : Type} (options : QueryCache.Options)
    (q0 : QueryCache.t V) (calls : list (Z * QC_call V E)) (key : string)
    (now : Z) (v : V) :
  QueryCache.new options = inr q0 ->
  fst (QueryCache.get (QC_run q0 calls) key now) = Some v ->
  exists t, QC_last_stored key (QC_events q0 calls) = Some (Some v, t) /\
    (QueryCache.opt_ttlMs options > 0 ->
     QueryCache.opt_refreshOnAccess options <> Some true ->
     now <= t + QueryCache.opt_ttlMs options).
Proof.
  intros Hnew Hget.
  assert (Hcap : 1 <= QueryCache.opt_maxSize options).
  { unfold QueryCache.new, LRU.new in Hnew. cbn [LRU.opt_maxSize] in Hnew.
    destruct (Z.ltb_spec (QueryCache.opt_maxSize options) 1);
      [discriminate | lia]. }
  destruct (QC_new_ok (V := V) options Hcap)
    as (q & Hq & Hinv & Hempty & Httl & _).
  rewrite Hnew in Hq. injection Hq as <-.
  assert (Hrefresh : QueryCache.refreshOnAccess q0 =
                     match QueryCache.opt_refreshOnAccess options with
                     | Some b => b | None => false end).
  { clear - Hnew. unfold QueryCache.new in Hnew.
    destruct (LRU.new _); [discriminate|]. now injection Hnew as <-. }
  assert (Hprov0 : QC_provenance q0 []).
  { intros k e Hk. rewrite Hempty in Hk. discriminate. }
  destruct (QC_run_provenance calls q0 [] Hinv Hprov0)
    as (Hinv' & Hprov & Httl' & Hrefresh').
  cbn [app] in Hprov.
  pose proof Hinv' as (_ & Hage & _).
  rewrite (QC_get_result _ key now Hage) in Hget.
  destruct (JsMap.get key (QC_store (QC_run q0 calls))) as [e|] eqn:Hk;
    [|discriminate].
  destruct (Hprov key e Hk) as (t & Hstored & Hexpiry).
  destruct ((QueryCache.ttlMs (QC_run q0 calls) >? 0) &&
            QueryCache.isPast now (QueryCache.expiresAt (LRU.value e)))
    eqn:Hpast; [discriminate|].
  exists t. rewrite Hget in Hstored. split; [exact Hstored|].
  intros Hpos Hoff.
  rewrite Httl', Httl in *. rewrite Hrefresh', Hrefresh in Hexpiry.
  assert (Hoff' : match QueryCache.opt_refreshOnAccess options with
                  | Some b => b | None => false end = false).
  { destruct (QueryCache.opt_refreshOnAccess options) as [[|]|];
      [congruence | reflexivity | reflexivity]. }
  rewrite (Hexpiry Hoff' Hpos) in Hpast. cbn [QueryCache.isPast] in Hpast.
  destruct (Z.gtb_spec (QueryCache.opt_ttlMs options) 0); [|lia].
  cbn [andb] in Hpast.
  destruct (Z.gtb_spec now (t + QueryCache.opt_ttlMs options));
    [discriminate | lia].
Qed.

(** X21 on a run that sets 7 at time 0, finds it in a [getOrCompute] at
    time 45 whose [computeFn] would have given 9, sets 8 at time 55 and
    reads it at time 60: the value read is the one stored at time 55. *)
Lemma X21_qc_no_stale_value_witness :
  let calls : list (Z * QC_call Z string) :=
    [(0, QSet "k" (Some 7)); (45, QCompute "k" (inr (Some 9)) 45);
     (55, QSet "k" (Some 8))] in
  fst (QueryCache.get (QC_run QC_fresh calls) "k" 60) = Some 8 /\
  QC_last_stored "k" (QC_events QC_fresh calls) = Some (Some 8, 55) /\
  exists t, QC_last_stored "k" (QC_events QC_fresh calls) = Some (Some 8, t) /\
            60 <= t + 50.
Proof.
  intros calls.
  assert (Hget : fst (QueryCache.get (QC_run QC_fresh calls) "k" 60) = Some 8)
    by reflexivity.
  split; [exact Hget|]. split; [reflexivity|].
  destruct (X21_qc_no_stale_value (V := Z) (E := string)
              (QueryCache.mkOptions 10 50 None) QC_fresh calls "k" 60 8
              eq_refl Hget) as (t & Hstored & Hfresh).
  exists t. split; [exact Hstored|]. apply Hfresh; [reflexivity | discriminate].
Defined.
